(** * tars-swarm: the orchestration loop, action dispatch and trace recorder

    A shallow embedding of [src/core/swarm.ts], [src/core/agent.ts],
    [src/core/result.ts], [src/core/types.ts], [src/tracing/index.ts] and
    the guardrail classes, and the properties of the natural-language
    specification checked on it, with further properties of the code.

    Conventions.
    - JavaScript strings are sequences of code units; they are embedded as
      Rocq strings, and the constants of the source appear as written there.
    - JavaScript numbers are embedded as integers ([Z]); non-integral
      numbers do not occur in the embedded code paths.
    - Objects that are shared and updated in place (message arrays) live in
      a heap of the [World]; an array spread [[...a]] allocates.
    - Callbacks supplied by the caller (actions, validators, instruction
      functions) are functions of their arguments that either return or
      throw; they do not write to the orchestrator's heap.
    - [async]/[await] is sequential in every embedded path. *)

From stdpp Require Import gmap strings list fin_maps.
From Stdlib Require Import ZArith DecimalString DecimalZ DecimalPos Ascii.

#[local] Set Warnings "-register-all".
#[local] Open Scope string_scope.
#[local] Open Scope Z_scope.
#[local] Open Scope list_scope.

(* ===================================================================== *)
(** * JavaScript values *)
(* ===================================================================== *)

(** Plain data: what context variables, parsed arguments and trace payloads
    are made of.  The property list of [JObj] is in the object's own
    property order. *)
Inductive JsVal : Type :=
| JUndefined
| JNull
| JBool (b : bool)
| JNum (n : Z)
| JStr (s : string)
| JArr (items : list JsVal)
| JObj (props : list (string * JsVal)).

(** [Record<string, any>] used as a map. *)
Abbreviation Ctx := (gmap string JsVal).

(** A thrown value: an [Error] instance (its [name] and [message]) or any
    other value. *)
Inductive Thrown : Type :=
| ThrowError (name message : string)
| ThrowValue (v : JsVal).

(** Faults raised by the JavaScript engine itself; the wording of their
    messages belongs to the engine, see [engine_message]. *)
Inductive EngineFault : Type :=
| CannotConvertToPrimitive
| NotAFunction
| NullishToObject (operation : string).

Definition Z_to_string (n : Z) : string := NilZero.string_of_int (Z.to_int n).

(** [obj[k]] on own data properties. *)
Fixpoint obj_get (k : string) (props : list (string * JsVal)) : option JsVal :=
  match props with
  | [] => None
  | (k', v) :: rest => if String.eqb k k' then Some v else obj_get k rest
  end.

(** [obj[k] = v]: overwrite in place, or append a new property. *)
Fixpoint obj_set (k : string) (v : JsVal) (props : list (string * JsVal))
  : list (string * JsVal) :=
  match props with
  | [] => [(k, v)]
  | (k', v') :: rest =>
      if String.eqb k k' then (k, v) :: rest else (k', v') :: obj_set k v rest
  end.

(** [String(v)] (the abstract operation ToString).  [None] stands for the
    TypeError of OrdinaryToPrimitive: a data object that shadows [toString]
    with a non-callable property has no primitive value.  Arrays join their
    elements with a comma, [null] and [undefined] elements giving the empty
    string. *)
Fixpoint js_String (v : JsVal) : option string :=
  match v with
  | JUndefined => Some "undefined"
  | JNull => Some "null"
  | JBool true => Some "true"
  | JBool false => Some "false"
  | JNum n => Some (Z_to_string n)
  | JStr s => Some s
  | JArr items =>
      let elem (x : JsVal) : option string :=
        match x with
        | JUndefined | JNull => Some ""
        | _ => js_String x
        end in
      (fix join (l : list JsVal) : option string :=
         match l with
         | [] => Some ""
         | [x] => elem x
         | x :: rest =>
             match elem x, join rest with
             | Some a, Some b => Some (a +:+ "," +:+ b)
             | _, _ => None
             end
         end) items
  | JObj props =>
      match obj_get "toString" props with
      | Some _ => None
      | None => Some "[object Object]"
      end
  end.

(** Truthiness of a string-or-null ([if (content)]). *)
Definition truthy_str (s : option string) : bool :=
  match s with
  | Some s => negb (String.eqb s "")
  | None => false
  end.

(** [a || b] on strings-or-null. *)
Definition str_or (a : option string) (b : string) : string :=
  match a with
  | Some s => if String.eqb s "" then b else s
  | None => b
  end.

(** [s.substring(0, n) + (s.length > n ? '...' : '')] *)
Definition abbreviate (n : nat) (s : string) : string :=
  String.substring 0 n s +:+ (if Nat.ltb n (String.length s) then "..." else "").

(** [errors.join(', ')] *)
Fixpoint join_with (sep : string) (l : list string) : string :=
  match l with
  | [] => ""
  | [x] => x
  | x :: rest => x +:+ sep +:+ join_with sep rest
  end.

(** [haystack] contains [needle] as a substring. *)
Definition mentions (needle haystack : string) : Prop :=
  ∃ pre post, haystack = pre +:+ needle +:+ post.

Definition ctx_to_js (c : Ctx) : JsVal := JObj (map_to_list c).

Definition opt_str_to_js (s : option string) : JsVal :=
  match s with Some s => JStr s | None => JNull end.

(** An optional property that is [undefined] when absent. *)
Definition undef_or {A} (f : A → JsVal) (o : option A) : JsVal :=
  match o with Some a => f a | None => JUndefined end.

(* ===================================================================== *)
(** * types.ts *)
(* ===================================================================== *)

Inductive Role : Type := system | user | assistant | function | tool.

#[global] Instance Role_eq_dec : EqDecision Role.
Proof. solve_decision. Defined.

Definition Role_to_string (r : Role) : string :=
  match r with
  | system => "system" | user => "user" | assistant => "assistant"
  | function => "function" | tool => "tool"
  end.

(** The [ToolCall] interface of swarm.ts: [type] is a string there. *)
Record ToolCall : Type := {
  tc_id : string;
  tc_type : string;
  tc_name : string;        (* function.name *)
  tc_arguments : string    (* function.arguments *)
}.

Record Message : Type := {
  msg_role : Role;
  msg_content : option string;                 (* string | null *)
  msg_name : option string;
  msg_tool_call_id : option string;
  msg_function_call : option (string * string);
  msg_tool_calls : option (list ToolCall)
}.

Inductive EventType : Type :=
| agent_start | agent_end | function_call | function_return
| handoff | guardrail_check | model_call.

#[global] Instance EventType_eq_dec : EqDecision EventType.
Proof. solve_decision. Defined.

Record TraceEvent : Type := {
  ev_timestamp : Z;
  ev_type : EventType;
  ev_data : JsVal
}.

(** Object identity of an [Agent]; [agents] of the environment resolves
    it.  Agents refer to each other through the actions they close over. *)
Definition AgentRef := nat.

(** result.ts: [value?: string], [agent?], [context_variables?]. *)
Record Result : Type := {
  res_value : option string;
  res_agent : option AgentRef;
  res_context_variables : option Ctx
}.

(** What an action gave back, by the tests the dispatcher applies to it. *)
Inductive Returned : Type :=
| RetResult (r : Result)      (* instanceof Result *)
| RetAgent (a : AgentRef)     (* instanceof Agent *)
| RetValue (v : JsVal).       (* anything else *)

Inductive ActionOutcome : Type :=
| Returns (r : Returned)
| Throws (e : Thrown).

(** A JavaScript function of the executor's [functions] list.
    [fn_params] and [fn_description] are what [getFunctionSchemas] extracts
    from [fn.toString()]: the trimmed non-empty parameter names of the first
    parenthesised group, and the text of the first JSDoc comment (empty
    when there is none). *)
Record Callable : Type := {
  fn_name : string;
  fn_params : list string;
  fn_description : string;
  fn_call : Ctx → list JsVal → ActionOutcome;
  (** A function named [__proto__] would, on registration in the action
      map, replace the map's prototype instead of becoming an entry; such
      functions are outside the embedding. *)
  fn_name_ok : fn_name ≠ "__proto__"
}.

(** [FunctionType = Function | string | Record<string, any>] *)
Inductive FunctionType : Type :=
| FnCallable (f : Callable)
| FnSchema (schema : JsVal).

(** A validation rule; the validator returns a boolean or throws. *)
Record ValidationRule : Type := {
  rule_name : string;
  rule_validator : string → bool + Thrown;
  rule_errorMessage : string
}.

Record GuardrailConfig : Type := {
  inputValidation : option (list ValidationRule);
  outputValidation : option (list ValidationRule)
}.

Inductive InstructionsType : Type :=
| InstrText (s : string)
| InstrFn (f : Ctx → string + Thrown).

Record Agent : Type := {
  ag_name : string;
  ag_model : string;
  ag_instructions : InstructionsType;
  ag_functions : list FunctionType;
  ag_tool_choice : option string;
  ag_guardrails : GuardrailConfig;
  ag_maxTokens : Z;
  ag_parallel_tool_calls : option bool
}.

(** The parameter object handed to the model provider. *)
Record Request : Type := {
  rq_model : string;
  rq_messages : list Message;
  rq_tools : option (list JsVal);
  rq_tool_choice : option string;
  rq_max_tokens : Z;
  rq_parallel_tool_calls : option bool;
  rq_stream : bool
}.

(** [response.choices[0].message] *)
Record Completion : Type := {
  cp_content : option string;
  cp_tool_calls : option (list ToolCall)
}.

(** One tool-call fragment of a streamed chunk. *)
Record ToolCallDelta : Type := {
  td_index : nat;
  td_id : option string;
  td_type : option string;
  td_function : option (option string * option string)  (* name, arguments *)
}.

(** [chunk.choices[0].delta] *)
Record Chunk : Type := {
  ch_content : option string;
  ch_tool_calls : option (list ToolCallDelta)
}.

(** [max_turns: number = Infinity] *)
Inductive Bound : Type := Finite (n : Z) | Infinity.

Definition below (turns : nat) (max_turns : Bound) : bool :=
  match max_turns with
  | Finite n => Z.ltb (Z.of_nat turns) n
  | Infinity => true
  end.

(* ===================================================================== *)
(** * The JSON built-ins *)
(* ===================================================================== *)

Module JSON.

(** JSON text, as a list of code units. *)
Abbreviation text := (list ascii).

Definition lit (s : string) : text := String.list_ascii_of_string s.

Definition dquote : ascii := "034"%char.
Definition backslash : ascii := "092"%char.
Definition newline : ascii := "010"%char.

(** ** JSON.stringify(value, null, 2) *)

Definition hex_digit (n : N) : ascii :=
  match n with
  | 0 => "0" | 1 => "1" | 2 => "2" | 3 => "3" | 4 => "4" | 5 => "5" | 6 => "6" | 7 => "7"
  | 8 => "8" | 9 => "9" | 10 => "a" | 11 => "b" | 12 => "c" | 13 => "d" | 14 => "e"
  | _ => "f"
  end%N%char.

(** QuoteJSONString, one code unit. *)
Definition escape (c : ascii) : text :=
  let n := N_of_ascii c in
  if (n =? 8)%N then lit "\b"
  else if (n =? 9)%N then lit "\t"
  else if (n =? 10)%N then lit "\n"
  else if (n =? 12)%N then lit "\f"
  else if (n =? 13)%N then lit "\r"
  else if (n =? 34)%N then [backslash; dquote]
  else if (n =? 92)%N then [backslash; backslash]
  else if (n <? 32)%N
  then lit "\u00" ++ [hex_digit (n / 16); hex_digit (n mod 16)]
  else [c].

Fixpoint quote_chars (s : string) : text :=
  match s with
  | EmptyString => []
  | String c r => escape c ++ quote_chars r
  end.

Definition quote (s : string) : text := dquote :: quote_chars s ++ [dquote].

Fixpoint join (sep : text) (l : list text) : text :=
  match l with
  | [] => []
  | [x] => x
  | x :: rest => x ++ sep ++ join sep rest
  end.

Definition gap : text := lit "  ".

Definition wrap (opening closing : ascii) (stepback : text) (partial : list text) : text :=
  match partial with
  | [] => [opening; closing]
  | _ => opening :: newline :: (stepback ++ gap)
         ++ join ("," :: newline :: (stepback ++ gap))%char partial
         ++ newline :: stepback ++ [closing]
  end.

(** SerializeJSONProperty with the two-space gap; [None] is [undefined]. *)
Fixpoint serialize (stepback : text) (v : JsVal) : option text :=
  let indent := stepback ++ gap in
  match v with
  | JUndefined => None
  | JNull => Some (lit "null")
  | JBool true => Some (lit "true")
  | JBool false => Some (lit "false")
  | JNum n => Some (lit (Z_to_string n))
  | JStr s => Some (quote s)
  | JArr items =>
      Some (wrap "[" "]" stepback
              ((fix elements (l : list JsVal) : list text :=
                  match l with
                  | [] => []
                  | x :: rest => default (lit "null") (serialize indent x) :: elements rest
                  end) items))
  | JObj props =>
      Some (wrap "{" "}" stepback
              ((fix members (l : list (string * JsVal)) : list text :=
                  match l with
                  | [] => []
                  | (k, x) :: rest =>
                      match serialize indent x with
                      | Some strP => (quote k ++ lit ": " ++ strP) :: members rest
                      | None => members rest
                      end
                  end) props))
  end.

Definition stringify (v : JsVal) : option string :=
  String.string_of_list_ascii <$> serialize [] v.

(** ** JSON.parse(text)

    The JSON grammar, with two restrictions of the embedding: number
    literals are integers, and a [\u] escape denotes a code unit below
    256.  [None] is the SyntaxError. *)

Definition is_ws (c : ascii) : bool :=
  (Ascii.eqb c " " || Ascii.eqb c "009" || Ascii.eqb c "010" || Ascii.eqb c "013")%char.

Fixpoint skip_ws (t : text) : text :=
  match t with
  | c :: r => if is_ws c then skip_ws r else t
  | [] => []
  end.

Definition is_num_char (c : ascii) : bool :=
  Ascii.eqb c "-" || ((48 <=? N_of_ascii c)%N && (N_of_ascii c <=? 57)%N).

Fixpoint span_num (t : text) : text * text :=
  match t with
  | c :: r => if is_num_char c then let '(tok, rest) := span_num r in (c :: tok, rest)
              else ([], t)
  | [] => ([], [])
  end.

(** An integer literal is the decimal form of the integer it denotes,
    or ["-0"]. *)
Definition parse_number (t : text) : option (Z * text) :=
  let '(tok, rest) := span_num t in
  let tok := String.string_of_list_ascii tok in
  match rest with
  | c :: _ => if (Ascii.eqb c "." || Ascii.eqb c "e" || Ascii.eqb c "E")%char then None else Some tt
  | [] => Some tt
  end ≫= λ _,
  if String.eqb tok "-0" then Some (0%Z, rest)
  else match NilZero.int_of_string tok with
       | Some d => if String.eqb (Z_to_string (Z.of_int d)) tok
                   then Some (Z.of_int d, rest) else None
       | None => None
       end.

Definition hex_value (c : ascii) : option N :=
  let n := N_of_ascii c in
  if (48 <=? n)%N && (n <=? 57)%N then Some (n - 48)%N
  else if (97 <=? n)%N && (n <=? 102)%N then Some (n - 87)%N
  else if (65 <=? n)%N && (n <=? 70)%N then Some (n - 55)%N
  else None.

Definition simple_escape (e : ascii) : option ascii :=
  (if Ascii.eqb e dquote then Some dquote
   else if Ascii.eqb e backslash then Some backslash
   else if Ascii.eqb e "/" then Some "/"
   else if Ascii.eqb e "b" then Some "008"
   else if Ascii.eqb e "f" then Some "012"
   else if Ascii.eqb e "n" then Some "010"
   else if Ascii.eqb e "r" then Some "013"
   else if Ascii.eqb e "t" then Some "009"
   else None)%char.

(** The characters of a string literal, after its opening quote. *)
Fixpoint parse_chars (t : text) : option (string * text) :=
  match t with
  | [] => None
  | c :: r =>
      if Ascii.eqb c dquote then Some ("", r)
      else if Ascii.eqb c backslash then
        match r with
        | e :: r' =>
            if Ascii.eqb e "u" then
              match r' with
              | h1 :: h2 :: h3 :: h4 :: r'' =>
                  match hex_value h1, hex_value h2, hex_value h3, hex_value h4 with
                  | Some a, Some b, Some c, Some d =>
                      let n := (((a * 16 + b) * 16 + c) * 16 + d)%N in
                      if (n <? 256)%N
                      then '(s, rest) ← parse_chars r''; Some (String (ascii_of_N n) s, rest)
                      else None
                  | _, _, _, _ => None
                  end
              | _ => None
              end
            else
              match simple_escape e with
              | Some x => '(s, rest) ← parse_chars r'; Some (String x s, rest)
              | None => None
              end
        | [] => None
        end
      else if (N_of_ascii c <? 32)%N then None
      else '(s, rest) ← parse_chars r; Some (String c s, rest)
  end.

Fixpoint expect (word : text) (t : text) : option text :=
  match word, t with
  | [], _ => Some t
  | a :: word', b :: t' => if Ascii.eqb a b then expect word' t' else None
  | _ :: _, [] => None
  end.

Fixpoint parse_value (fuel : nat) (t : text) : option (JsVal * text) :=
  match fuel with
  | O => None
  | S fuel =>
      match skip_ws t with
      | [] => None
      | c :: r =>
          if Ascii.eqb c "n" then rest ← expect (lit "ull") r; Some (JNull, rest)
          else if Ascii.eqb c "t" then rest ← expect (lit "rue") r; Some (JBool true, rest)
          else if Ascii.eqb c "f" then rest ← expect (lit "alse") r; Some (JBool false, rest)
          else if Ascii.eqb c dquote then '(s, rest) ← parse_chars r; Some (JStr s, rest)
          else if Ascii.eqb c "[" then
            match skip_ws r with
            | c' :: r' =>
                if Ascii.eqb c' "]" then Some (JArr [], r')
                else '(items, rest) ← parse_elements fuel r; Some (JArr items, rest)
            | [] => None
            end
          else if Ascii.eqb c "{" then
            match skip_ws r with
            | c' :: r' =>
                if Ascii.eqb c' "}" then Some (JObj [], r')
                else '(members, rest) ← parse_members fuel r;
                     Some (JObj (fold_left (λ acc '(k, v), obj_set k v acc) members []), rest)
            | [] => None
            end
          else '(n, rest) ← parse_number (c :: r); Some (JNum n, rest)
      end
  end%char
with parse_elements (fuel : nat) (t : text) : option (list JsVal * text) :=
  match fuel with
  | O => None
  | S fuel =>
      '(v, rest) ← parse_value fuel t;
      match skip_ws rest with
      | c :: r =>
          if Ascii.eqb c "," then '(vs, rest') ← parse_elements fuel r; Some (v :: vs, rest')
          else if Ascii.eqb c "]" then Some ([v], r)
          else None
      | [] => None
      end
  end%char
with parse_members (fuel : nat) (t : text) : option (list (string * JsVal) * text) :=
  match fuel with
  | O => None
  | S fuel =>
      match skip_ws t with
      | q :: r =>
          if Ascii.eqb q dquote then
            '(k, rest) ← parse_chars r;
            match skip_ws rest with
            | colon :: r' =>
                if Ascii.eqb colon ":" then
                  '(v, rest') ← parse_value fuel r';
                  match skip_ws rest' with
                  | c :: r'' =>
                      if Ascii.eqb c ","
                      then '(ms, rest'') ← parse_members fuel r''; Some ((k, v) :: ms, rest'')
                      else if Ascii.eqb c "}" then Some ([(k, v)], r'')
                      else None
                  | [] => None
                  end
                else None
            | [] => None
            end
          else None
      | [] => None
      end
  end%char.

Definition parse (s : string) : option JsVal :=
  let t := lit s in
  match parse_value (2 * length t + 2) t with
  | Some (v, rest) => match skip_ws rest with [] => Some v | _ => None end
  | None => None
  end.

End JSON.

(* ===================================================================== *)
(** * The environment and the mutable world *)
(* ===================================================================== *)

Definition loc := nat.

(** The step events of the streaming variant, by their [type] tag. *)
Inductive Step : Type :=
| stream_start (agent : string)
| content_step (content : string)                    (* 'content' *)
| tool_call_step (tool_call : ToolCall)              (* 'tool_call' *)
| stream_end (messages : loc)
| validation_failed (errors : list string)
| tool_response (message : Message)
| handoff_step (from to : string)                    (* 'handoff' *)
| error_step (error : string)                        (* 'error' *)
| complete (messages : loc) (agent : AgentRef) (context_variables : loc)
           (trace : list TraceEvent).

(** What surrounds one run and is not written by it: the agent objects,
    the model provider, the engine's built-ins that are taken as given,
    and the clock.  The provider and the clock are indexed by the number of
    earlier calls, so that they may answer differently each time. *)
Record Env : Type := {
  agents : AgentRef → Agent;
  createChatCompletion : nat → Request → Completion + Thrown;
  createChatCompletionStream : nat → Request → list Chunk * option Thrown;
  JSON_parse : string → JsVal + Thrown;
  Date_now : nat → Z;
  engine_message : EngineFault → string
}.

(** tracing/index.ts: [class Tracer]. *)
Record Tracer : Type := {
  events : list TraceEvent;
  enabled : bool
}.

Record World : Type := {
  arrays : gmap loc (list Message);     (* message arrays *)
  objects : gmap loc Ctx;               (* context-variable objects *)
  tracer : Tracer;                      (* this.tracer *)
  clock : nat;                          (* readings of Date.now() so far *)
  emitted : list Step;                  (* steps yielded to the consumer *)
  (* ghost state, for stating properties only *)
  requests : list Request;              (* requests sent to the provider *)
  invoked : list (string * ActionOutcome) (* callables invoked by dispatch *)
}.

Definition set_arrays (f : gmap loc (list Message) → gmap loc (list Message)) (w : World) : World :=
  {| arrays := f (arrays w); objects := objects w; tracer := tracer w;
     clock := clock w; emitted := emitted w;
     requests := requests w; invoked := invoked w |}.

Definition set_objects (f : gmap loc Ctx → gmap loc Ctx) (w : World) : World :=
  {| arrays := arrays w; objects := f (objects w); tracer := tracer w;
     clock := clock w; emitted := emitted w;
     requests := requests w; invoked := invoked w |}.

Definition set_tracer (t : Tracer) (c : nat) (w : World) : World :=
  {| arrays := arrays w; objects := objects w; tracer := t;
     clock := c; emitted := emitted w;
     requests := requests w; invoked := invoked w |}.

Definition emit (s : Step) (w : World) : World :=
  {| arrays := arrays w; objects := objects w; tracer := tracer w;
     clock := clock w; emitted := emitted w ++ [s];
     requests := requests w; invoked := invoked w |}.

Definition log_request (r : Request) (w : World) : World :=
  {| arrays := arrays w; objects := objects w; tracer := tracer w;
     clock := clock w; emitted := emitted w;
     requests := requests w ++ [r]; invoked := invoked w |}.

Definition log_invocation (n : string) (o : ActionOutcome) (w : World) : World :=
  {| arrays := arrays w; objects := objects w; tracer := tracer w;
     clock := clock w; emitted := emitted w;
     requests := requests w; invoked := invoked w ++ [(n, o)] |}.

(** ** A state-and-exception monad *)

Inductive Res (A : Type) : Type :=
| Done (a : A)          (* normal completion *)
| Raised (e : Thrown)   (* an exception propagates *)
| OutOfFuel.            (* the loop bound of the embedding was reached *)
Arguments Done {A} a.
Arguments Raised {A} e.
Arguments OutOfFuel {A}.

Definition M (A : Type) : Type := World → Res A * World.

Definition ret {A} (a : A) : M A := λ w, (Done a, w).

Definition bind {A B} (m : M A) (k : A → M B) : M B :=
  λ w, match m w with
       | (Done a, w') => k a w'
       | (Raised e, w') => (Raised e, w')
       | (OutOfFuel, w') => (OutOfFuel, w')
       end.

Definition throw {A} (e : Thrown) : M A := λ w, (Raised e, w).

(** [try { m } catch (error) { h error }] *)
Definition try_catch {A} (m : M A) (h : Thrown → M A) : M A :=
  λ w, match m w with
       | (Raised e, w') => h e w'
       | r => r
       end.

Definition get_world : M World := λ w, (Done w, w).
Definition update (f : World → World) : M unit := λ w, (Done tt, f w).

#[global] Instance M_ret : MRet M := @ret.
#[global] Instance M_bind : MBind M := λ A B k m, bind m k.

(** Lift a pure computation that may throw. *)
Definition lift {A} (r : A + Thrown) : M A :=
  match r with inl a => ret a | inr e => throw e end.

(** ** The heap *)

(** A fresh array holding [l]: [[...l]]. *)
Definition alloc_array (l : list Message) : M loc :=
  λ w, let r := fresh (dom (arrays w)) in (Done r, set_arrays (insert r l) w).

Definition read_array (r : loc) : M (list Message) :=
  λ w, (Done (default [] (arrays w !! r)), w).

(** [a.push(m)]: in place. *)
Definition push (r : loc) (m : Message) : M unit :=
  update (set_arrays (λ h, <[r := default [] (h !! r) ++ [m]]> h)).

(** A fresh object holding [c]: [{...c}]. *)
Definition alloc_object (c : Ctx) : M loc :=
  λ w, let r := fresh (dom (objects w)) in (Done r, set_objects (insert r c) w).

Definition read_object (r : loc) : M Ctx :=
  λ w, (Done (default ∅ (objects w !! r)), w).

(** [{...a, ...b}]: the properties of [b] win. *)
Definition spread (a b : Ctx) : Ctx := b ∪ a.

(* ===================================================================== *)
(** * tracing/index.ts *)
(* ===================================================================== *)

Module Tracer_.

Definition new (enabled : bool) : Tracer := {| events := []; enabled := enabled |}.

(** [addEvent]: nothing when disabled, else push with the current time. *)
Definition addEvent (now : Z) (type : EventType) (data : JsVal) (t : Tracer) : Tracer :=
  if enabled t
  then {| events := events t ++ [ {| ev_timestamp := now; ev_type := type; ev_data := data |} ];
          enabled := enabled t |}
  else t.

Definition clear (t : Tracer) : Tracer := {| events := []; enabled := enabled t |}.

Definition getEvents (t : Tracer) : list TraceEvent := events t.

Definition EventType_to_string (t : EventType) : string :=
  match t with
  | agent_start => "agent_start" | agent_end => "agent_end"
  | function_call => "function_call" | function_return => "function_return"
  | handoff => "handoff" | guardrail_check => "guardrail_check"
  | model_call => "model_call"
  end.

(** A trace event as the object it is: [{timestamp, type, data}]. *)
Definition event_to_js (ev : TraceEvent) : JsVal :=
  JObj [("timestamp", JNum (ev_timestamp ev));
        ("type", JStr (EventType_to_string (ev_type ev)));
        ("data", ev_data ev)].

(** [JSON.stringify(this.events, null, 2)] *)
Definition exportToJson (t : Tracer) : string :=
  default "" (JSON.stringify (JArr (map event_to_js (events t)))).

End Tracer_.

(** [this.tracer.addEvent(type, data)], reading the clock when enabled. *)
Definition addEvent (E : Env) (type : EventType) (data : JsVal) : M unit :=
  update (λ w,
    if enabled (tracer w)
    then set_tracer (Tracer_.addEvent (Date_now E (clock w)) type data (tracer w)) (S (clock w)) w
    else w).

Definition tracer_clear : M unit :=
  update (λ w, set_tracer (Tracer_.clear (tracer w)) (clock w) w).

(* ===================================================================== *)
(** * core/agent.ts *)
(* ===================================================================== *)

Definition TypeError (E : Env) (f : EngineFault) : Thrown :=
  ThrowError "TypeError" (engine_message E f).

(** [String(v)], throwing. *)
Definition String_ (E : Env) (v : JsVal) : string + Thrown :=
  match js_String v with
  | Some s => inl s
  | None => inr (TypeError E CannotConvertToPrimitive)
  end.

(** [String(error)] and [`${error}`] of a caught value;
    [Error.prototype.toString] for an [Error]. *)
Definition String_thrown (E : Env) (e : Thrown) : string + Thrown :=
  match e with
  | ThrowError n m =>
      inl (if String.eqb n "" then m
           else if String.eqb m "" then n
           else n +:+ ": " +:+ m)
  | ThrowValue v => String_ E v
  end.

Definition getInstructions (a : Agent) (context_variables : Ctx) : string + Thrown :=
  match ag_instructions a with
  | InstrFn f => f context_variables
  | InstrText s => inl s
  end.

(** The schema built for one JavaScript function. *)
Definition schema_of (fn : Callable) : JsVal :=
  let fnName := fn_name fn in
  let properties :=
    fold_left
      (λ acc param,
         if String.eqb param "context_variables" then acc
         else obj_set param (JObj [("type", JStr "string")]) acc)
      (fn_params fn) [] in
  JObj [("type", JStr "function");
        ("function",
         JObj [("name", JStr fnName);
               ("description",
                JStr (str_or (Some (fn_description fn)) ("Function " +:+ fnName)));
               ("parameters",
                JObj [("type", JStr "object");
                      ("properties", JObj properties);
                      ("required", JArr [])])])].

Definition getFunctionSchemas (a : Agent) : list JsVal :=
  map (λ fn, match fn with
             | FnSchema s => s
             | FnCallable f => schema_of f
             end) (ag_functions a).

Record ValidationResult : Type := {
  valid : bool;
  errors : list string
}.

(** The rule loop shared by [validateInput] and [validateOutput]: every
    rule runs, failures accumulate.  A rule that throws is recorded through
    [`${error}`], whose own failure propagates. *)
Fixpoint run_rules (E : Env) (rules : list ValidationRule) (text : string)
    (errs : list string) : list string + Thrown :=
  match rules with
  | [] => inl errs
  | rule :: rest =>
      match rule_validator rule text with
      | inl isValid =>
          run_rules E rest text
            (if isValid then errs else errs ++ [rule_errorMessage rule])
      | inr error =>
          match String_thrown E error with
          | inl s =>
              run_rules E rest text
                (errs ++ ["Validation error in rule " +:+ rule_name rule +:+ ": " +:+ s])
          | inr e => inr e
          end
      end
  end.

Definition validate (E : Env) (rules : option (list ValidationRule)) (text : string)
  : ValidationResult + Thrown :=
  match rules with
  | None | Some [] => inl {| valid := true; errors := [] |}
  | Some rules =>
      match run_rules E rules text [] with
      | inl errs => inl {| valid := bool_decide (length errs = 0%nat); errors := errs |}
      | inr e => inr e
      end
  end.

Definition validateInput (E : Env) (a : Agent) (input : string) : ValidationResult + Thrown :=
  validate E (inputValidation (ag_guardrails a)) input.

Definition validateOutput (E : Env) (a : Agent) (output : string) : ValidationResult + Thrown :=
  validate E (outputValidation (ag_guardrails a)) output.

(* ===================================================================== *)
(** * core/swarm.ts: action dispatch *)
(* ===================================================================== *)

(** What [functionMap[name]] can evaluate to. *)
Inductive Slot : Type :=
| SlotFunction (call : Ctx → list JsVal → ActionOutcome)  (* callable *)
| SlotObject                                              (* truthy, not callable *)
| SlotUndefined.

(** [functionMap] is created by the literal [{}], so a name that is not an
    own entry is looked up on [Object.prototype].  Its members are called
    here as plain functions, that is with [this] undefined and the context
    object as first argument:
    - [toString] answers for the undefined receiver;
    - [constructor] is [Object], which returns its object argument;
    - [hasOwnProperty] and [propertyIsEnumerable] convert the argument to a
      property key and then fail on the receiver;
    - the other methods fail on the receiver at once;
    - [__proto__] is an accessor whose getter yields [Object.prototype]. *)
Definition Object_prototype_get (E : Env) (name : string) : Slot :=
  let on_receiver := λ _ _, Throws (TypeError E (NullishToObject name)) in
  let key_then_receiver := λ (c : Ctx) (_ : list JsVal),
    match String_ E (ctx_to_js c) with
    | inl _ => Throws (TypeError E (NullishToObject name))
    | inr e => Throws e
    end in
  if String.eqb name "toString"
  then SlotFunction (λ _ _, Returns (RetValue (JStr "[object Undefined]")))
  else if String.eqb name "constructor"
  then SlotFunction (λ c _, Returns (RetValue (ctx_to_js c)))
  else if String.eqb name "hasOwnProperty" || String.eqb name "propertyIsEnumerable"
  then SlotFunction key_then_receiver
  else if String.eqb name "valueOf" || String.eqb name "toLocaleString"
          || String.eqb name "isPrototypeOf"
          || String.eqb name "__defineGetter__" || String.eqb name "__defineSetter__"
          || String.eqb name "__lookupGetter__" || String.eqb name "__lookupSetter__"
  then SlotFunction on_receiver
  else if String.eqb name "__proto__"
  then SlotObject
  else SlotUndefined.

(** [for (const func of functions) if (typeof func === 'function')
      functionMap[func.name] = func] *)
Definition functionMap_build (functions : list FunctionType) : gmap string Callable :=
  fold_left
    (λ functionMap func,
       match func with
       | FnCallable f => <[fn_name f := f]> functionMap
       | FnSchema _ => functionMap
       end)
    functions ∅.

Definition functionMap_get (E : Env) (functionMap : gmap string Callable) (name : string) : Slot :=
  match functionMap !! name with
  | Some f => SlotFunction (fn_call f)
  | None => Object_prototype_get E name
  end.

(** [Object.values(v)] *)
Definition Object_values (E : Env) (v : JsVal) : list JsVal + Thrown :=
  match v with
  | JObj props => inl (map snd props)
  | JArr items => inl items
  | JStr s => inl (map (λ c, JStr (String c "")) (String.list_ascii_of_string s))
  | JBool _ | JNum _ => inl []
  | JUndefined | JNull => inr (TypeError E (NullishToObject "Object.values"))
  end.

Definition tool_message (content name toolCallId : string) : Message :=
  {| msg_role := tool; msg_content := Some content; msg_name := Some name;
     msg_tool_call_id := Some toolCallId;
     msg_function_call := None; msg_tool_calls := None |}.

Record HandledResult : Type := {
  hr_message : option Message;
  hr_agent : option AgentRef;
  hr_context_variables : Ctx
}.

Definition handleFunctionResult (E : Env) (result : Returned)
    (funcName toolCallId : string) : HandledResult + Thrown :=
  match result with
  | RetResult r =>
      inl {| hr_message := Some (tool_message (default "" (res_value r)) funcName toolCallId);
             hr_agent := res_agent r;
             hr_context_variables := default ∅ (res_context_variables r) |}
  | RetAgent a =>
      inl {| hr_message := None; hr_agent := Some a; hr_context_variables := ∅ |}
  | RetValue v =>
      let resultStr :=
        match v with
        | JUndefined => inl ""
        | _ => match String_ E v with
               | inl s => inl s
               | inr _ => inr (ThrowError "TypeError" "函数返回值无法转换为字符串")
               end
        end in
      match resultStr with
      | inl s =>
          inl {| hr_message := Some (tool_message s funcName toolCallId);
                 hr_agent := None; hr_context_variables := ∅ |}
      | inr e => inr e
      end
  end.

Definition serializeResult (E : Env) (result : Returned) : JsVal + Thrown :=
  match result with
  | RetAgent a => inl (JObj [("agent", JStr (ag_name (agents E a)))])
  | RetResult r =>
      inl (JObj [("value", undef_or JStr (res_value r));
                 ("agent", match res_agent r with
                           | Some a => JStr (ag_name (agents E a))
                           | None => JNull
                           end);
                 ("context_variables", undef_or ctx_to_js (res_context_variables r))])
  | RetValue v =>
      match String_ E v with
      | inl s => inl (JStr s)
      | inr e => inr e
      end
  end.

(** The value [handleToolCalls] accumulates and returns. *)
Record ToolCallResult : Type := {
  tr_messages : list Message;
  tr_agent : option AgentRef;
  tr_context_variables : Ctx
}.

(** [func(contextVariables, ...values)] *)
Definition invoke (E : Env) (func : Slot) (name : string)
    (contextVariables : Ctx) (values : list JsVal) : M Returned :=
  match func with
  | SlotFunction call =>
      let outcome := call contextVariables values in
      update (log_invocation name outcome);;
      match outcome with
      | Returns r => mret r
      | Throws e => throw e
      end
  | SlotObject | SlotUndefined => throw (TypeError E NotAFunction)
  end.

(** The [try] block of the dispatch loop. *)
Definition attempt (E : Env) (func : Slot) (contextVariables : Ctx)
    (response : ToolCallResult) (toolCall : ToolCall) : M ToolCallResult :=
  let name := tc_name toolCall in
  let args := tc_arguments toolCall in
  let toolCallId := tc_id toolCall in
  parsedArgs ← lift (JSON_parse E args);
  values ← lift (Object_values E parsedArgs);
  funcResult ← invoke E func name contextVariables values;
  serialized ← lift (serializeResult E funcResult);
  addEvent E function_return (JObj [("name", JStr name); ("result", serialized)]);;
  result ← lift (handleFunctionResult E funcResult name toolCallId);
  mret {| tr_messages := tr_messages response ++ option_list (hr_message result);
          tr_context_variables :=
            spread (tr_context_variables response) (hr_context_variables result);
          tr_agent := match hr_agent result with
                      | Some a => Some a
                      | None => tr_agent response
                      end |}.

(** [error instanceof Error ? error.message : String(error)] *)
Definition error_text (E : Env) (error : Thrown) : string + Thrown :=
  match error with
  | ThrowError _ message => inl message
  | ThrowValue v => String_ E v
  end.

(** The [catch] block of the dispatch loop. *)
Definition recover (E : Env) (response : ToolCallResult) (toolCall : ToolCall)
    (error : Thrown) : M ToolCallResult :=
  let name := tc_name toolCall in
  let toolCallId := tc_id toolCall in
  errorMessage ← lift (error_text E error);
  addEvent E function_return (JObj [("name", JStr name); ("error", JStr errorMessage)]);;
  mret {| tr_messages :=
            tr_messages response
            ++ [tool_message ("函数 " +:+ name +:+ " 执行错误: " +:+ errorMessage)
                             name toolCallId];
          tr_agent := tr_agent response;
          tr_context_variables := tr_context_variables response |}.

(** The [else] branch: no function of that name. *)
Definition not_found (E : Env) (response : ToolCallResult) (toolCall : ToolCall)
  : M ToolCallResult :=
  let name := tc_name toolCall in
  let toolCallId := tc_id toolCall in
  let errorMessage := "函数 " +:+ name +:+ " 未找到" in
  addEvent E function_return (JObj [("name", JStr name); ("error", JStr errorMessage)]);;
  mret {| tr_messages := tr_messages response ++ [tool_message errorMessage name toolCallId];
          tr_agent := tr_agent response;
          tr_context_variables := tr_context_variables response |}.

(** The body of the loop over the requested tool calls. *)
Definition dispatch (E : Env) (functionMap : gmap string Callable)
    (contextVariables : Ctx) (response : ToolCallResult) (toolCall : ToolCall)
  : M ToolCallResult :=
  if String.eqb (tc_type toolCall) "function" then
    addEvent E function_call
      (JObj [("name", JStr (tc_name toolCall)); ("arguments", JStr (tc_arguments toolCall))]);;
    match functionMap_get E functionMap (tc_name toolCall) with
    | SlotUndefined => not_found E response toolCall
    | func =>
        try_catch (attempt E func contextVariables response toolCall)
                  (recover E response toolCall)
    end
  else mret response.

Fixpoint dispatch_all (E : Env) (functionMap : gmap string Callable)
    (contextVariables : Ctx) (response : ToolCallResult) (toolCalls : list ToolCall)
  : M ToolCallResult :=
  match toolCalls with
  | [] => mret response
  | toolCall :: rest =>
      response' ← dispatch E functionMap contextVariables response toolCall;
      dispatch_all E functionMap contextVariables response' rest
  end.

Definition handleToolCalls (E : Env) (toolCalls : list ToolCall)
    (functions : list FunctionType) (contextVariables : Ctx) : M ToolCallResult :=
  let functionMap := functionMap_build functions in
  dispatch_all E functionMap contextVariables
    {| tr_messages := []; tr_agent := None; tr_context_variables := ∅ |}
    toolCalls.

(* ===================================================================== *)
(** * core/swarm.ts: the batched loop *)
(* ===================================================================== *)

Definition system_message (instructions : string) : Message :=
  {| msg_role := system; msg_content := Some instructions; msg_name := None;
     msg_tool_call_id := None; msg_function_call := None; msg_tool_calls := None |}.

Definition assistant_message (content : option string) (tool_calls : option (list ToolCall))
  : Message :=
  {| msg_role := assistant; msg_content := content; msg_name := None;
     msg_tool_call_id := None; msg_function_call := None; msg_tool_calls := tool_calls |}.

(** The parameter object [createParams] of [getChatCompletion]. *)
Definition createParams (a : Agent) (instructions : string) (history : list Message)
    (model_override : option string) (stream : bool) : Request :=
  let messages := system_message instructions :: history in
  let tools := getFunctionSchemas a in
  let has_tools := negb (bool_decide (length tools = 0%nat)) in
  {| rq_model := str_or model_override (ag_model a);
     rq_messages := messages;
     rq_tools := if has_tools then Some tools else None;
     rq_tool_choice := match ag_tool_choice a with
                       | Some c => if String.eqb c "" then None else Some c
                       | None => None
                       end;
     rq_max_tokens := ag_maxTokens a;
     rq_parallel_tool_calls := if has_tools then ag_parallel_tool_calls a else None;
     rq_stream := stream |}.

(** [getChatCompletion], non-streaming: one call of the provider. *)
Definition getChatCompletion (E : Env) (a : Agent) (history : loc)
    (context_variables : Ctx) (model_override : option string) : M Completion :=
  instructions ← lift (getInstructions a context_variables);
  messages ← read_array history;
  let params := createParams a instructions messages model_override false in
  w ← get_world;
  update (log_request params);;
  lift (createChatCompletion E (length (requests w)) params).

(** [getChatCompletion], streaming: the chunks the provider will deliver,
    and the error that ends the sequence if it does not close normally. *)
Definition getChatCompletionStream (E : Env) (a : Agent) (history : loc)
    (context_variables : Ctx) (model_override : option string)
  : M (list Chunk * option Thrown) :=
  instructions ← lift (getInstructions a context_variables);
  messages ← read_array history;
  let params := createParams a instructions messages model_override true in
  w ← get_world;
  update (log_request params);;
  mret (createChatCompletionStream E (length (requests w)) params).

Definition errors_to_js (errs : list string) : JsVal := JArr (map JStr errs).

(** The body of the loop that validates the user messages of the history. *)
Definition validate_message (E : Env) (a : Agent) (message : Message) : M unit :=
  if bool_decide (msg_role message = user) && truthy_str (msg_content message)
  then
    validationResult ← lift (validateInput E a (default "" (msg_content message)));
    if valid validationResult
    then addEvent E guardrail_check
           (JObj [("type", JStr "input_validation"); ("success", JBool true)])
    else
      addEvent E guardrail_check
        (JObj [("type", JStr "input_validation"); ("success", JBool false);
               ("errors", errors_to_js (errors validationResult))]);;
      throw (ThrowError "Error"
               ("输入验证失败: " +:+ join_with ", " (errors validationResult)))
  else mret tt.

Fixpoint validate_messages (E : Env) (a : Agent) (messages : list Message) : M unit :=
  match messages with
  | [] => mret tt
  | message :: rest => validate_message E a message;; validate_messages E a rest
  end.

Definition model_call_data (model : string) (messages : list Message) : JsVal :=
  JObj [("model", JStr model);
        ("messages",
         JArr (map (λ m, JObj [("role", JStr (Role_to_string (msg_role m)));
                               ("content",
                                if truthy_str (msg_content m)
                                then JStr (abbreviate 100 (default "" (msg_content m)))
                                else JNull)])
                   messages))].

(** The local variables of [run] that the loop updates. *)
Record LoopState : Type := {
  currentAgent : AgentRef;
  currentMessages : loc;
  currentContextVars : loc;
  turns : nat
}.

Inductive Next : Type := Continue | Break.

(** Output validation; gives back the failures, none when the text is
    empty or passes. *)
Definition validate_output (E : Env) (a : Agent) (content : option string)
  : M (list string) :=
  if truthy_str content then
    validationResult ← lift (validateOutput E a (default "" content));
    if valid validationResult
    then addEvent E guardrail_check
           (JObj [("type", JStr "output_validation"); ("success", JBool true)]);;
         mret []
    else addEvent E guardrail_check
           (JObj [("type", JStr "output_validation"); ("success", JBool false);
                  ("errors", errors_to_js (errors validationResult))]);;
         mret (errors validationResult)
  else mret [].

(** The tool-call branch, common to both variants up to the steps the
    streaming one yields in between: dispatch, append the tool messages to
    a new array, merge the context variables into a new object, and switch
    the executor when one was handed over. *)
Definition tool_round (E : Env) (streaming : option string) (st : LoopState)
    (tool_calls : list ToolCall) : M (Next * LoopState) :=
  let a := agents E (currentAgent st) in
  context ← read_object (currentContextVars st);
  toolCallResult ← handleToolCalls E tool_calls (ag_functions a) context;
  history ← read_array (currentMessages st);
  messages' ← alloc_array (history ++ tr_messages toolCallResult);
  match streaming with
  | Some _ =>
      update (λ w, fold_left (λ w m, emit (tool_response m) w) (tr_messages toolCallResult) w)
  | None => mret tt
  end;;
  context ← read_object (currentContextVars st);
  context' ← alloc_object (spread context (tr_context_variables toolCallResult));
  match tr_agent toolCallResult with
  | Some next =>
      addEvent E handoff
        (JObj [("from", JStr (ag_name a));
               ("to", JStr (ag_name (agents E next)));
               ("context_update", ctx_to_js (tr_context_variables toolCallResult))]);;
      match streaming with
      | Some initial => update (emit (handoff_step initial (ag_name (agents E next))))
      | None => mret tt
      end;;
      mret (Continue, {| currentAgent := next; currentMessages := messages';
                         currentContextVars := context'; turns := turns st |})
  | None =>
      mret (Break, {| currentAgent := currentAgent st; currentMessages := messages';
                      currentContextVars := context'; turns := turns st |})
  end.

Definition bump (st : LoopState) : LoopState :=
  {| currentAgent := currentAgent st; currentMessages := currentMessages st;
     currentContextVars := currentContextVars st; turns := S (turns st) |}.

(** One pass through the body of [while (turns < max_turns)] in [run]. *)
Definition run_iteration (E : Env) (execute_tools : bool) (model_override : option string)
    (st : LoopState) : M (Next * LoopState) :=
  let a := agents E (currentAgent st) in
  history ← read_array (currentMessages st);
  validate_messages E a history;;
  addEvent E model_call (model_call_data (str_or model_override (ag_model a)) history);;
  context ← read_object (currentContextVars st);
  responseMessage ← getChatCompletion E a (currentMessages st) context model_override;
  validate_output E a (cp_content responseMessage);;
  push (currentMessages st)
       (assistant_message (cp_content responseMessage) (cp_tool_calls responseMessage));;
  match cp_tool_calls responseMessage with
  | Some (toolCall :: rest) =>
      if execute_tools
      then tool_round E None (bump st) (toolCall :: rest)
      else mret (Break, st)
  | _ => mret (Break, st)
  end.

Fixpoint run_loop (E : Env) (fuel : nat) (max_turns : Bound) (execute_tools : bool)
    (model_override : option string) (st : LoopState) : M LoopState :=
  if below (turns st) max_turns then
    match fuel with
    | O => λ w, (OutOfFuel, w)
    | S fuel' =>
        '(next, st') ← run_iteration E execute_tools model_override st;
        match next with
        | Continue => run_loop E fuel' max_turns execute_tools model_override st'
        | Break => mret st'
        end
    end
  else mret st.

Record Response : Type := {
  rs_messages : loc;
  rs_agent : AgentRef;
  rs_context_variables : loc;
  rs_trace : list TraceEvent
}.

Definition agent_start_data (a : Agent) (systemInstructions : string) : JsVal :=
  JObj [("agent", JStr (ag_name a));
        ("instructions", JStr (abbreviate 200 systemInstructions))].

(** [Swarm.run] with [stream = false].  [fuel] bounds the number of loop
    iterations of the embedding; the source has no such bound.  The
    [debug] flag only prints and is left out. *)
Definition run (E : Env) (fuel : nat) (agent : AgentRef) (messages : loc)
    (context_variables : loc) (max_turns : Bound) (execute_tools : bool)
    (model_override : option string) : M Response :=
  tracer_clear;;
  input ← read_array messages;
  messagesCopy ← alloc_array input;
  context ← read_object context_variables;
  contextCopy ← alloc_object context;
  systemInstructions ← lift (getInstructions (agents E agent) context);
  addEvent E agent_start (agent_start_data (agents E agent) systemInstructions);;
  st ← run_loop E fuel max_turns execute_tools model_override
         {| currentAgent := agent; currentMessages := messagesCopy;
            currentContextVars := contextCopy; turns := 0 |};
  addEvent E agent_end (JObj [("agent", JStr (ag_name (agents E (currentAgent st))))]);;
  w ← get_world;
  mret {| rs_messages := currentMessages st; rs_agent := currentAgent st;
          rs_context_variables := currentContextVars st;
          rs_trace := Tracer_.getEvents (tracer w) |}.

(* ===================================================================== *)
(** * core/swarm.ts: the streaming loop *)
(* ===================================================================== *)

Definition empty_slot : ToolCall :=
  {| tc_id := ""; tc_type := ""; tc_name := ""; tc_arguments := "" |}.

(** [while (tool_calls.length <= toolCallIndex) tool_calls.push({...})] *)
Definition pad_slots (slots : list ToolCall) (toolCallIndex : nat) : list ToolCall :=
  slots ++ replicate (S toolCallIndex - length slots) empty_slot.

(** One tool-call fragment: the slot it addresses, updated. *)
Definition merge_delta (currentToolCall : ToolCall) (d : ToolCallDelta) : ToolCall :=
  {| tc_id := if truthy_str (td_id d) then default "" (td_id d) else tc_id currentToolCall;
     tc_type := if truthy_str (td_type d) then default "" (td_type d)
                else tc_type currentToolCall;
     tc_name := match td_function d with
                | Some (name, _) =>
                    if truthy_str name then default "" name else tc_name currentToolCall
                | None => tc_name currentToolCall
                end;
     tc_arguments := match td_function d with
                     | Some (_, arguments) =>
                         if truthy_str arguments
                         then tc_arguments currentToolCall +:+ default "" arguments
                         else tc_arguments currentToolCall
                     | None => tc_arguments currentToolCall
                     end |}.

Definition collect_delta (slots : list ToolCall) (d : ToolCallDelta) : M (list ToolCall) :=
  let slots := pad_slots slots (td_index d) in
  let currentToolCall := merge_delta (default empty_slot (slots !! td_index d)) d in
  (if negb (String.eqb (tc_name currentToolCall) "")
   then update (emit (tool_call_step currentToolCall))
   else mret tt);;
  mret (<[td_index d := currentToolCall]> slots).

Fixpoint collect_deltas (slots : list ToolCall) (ds : list ToolCallDelta)
  : M (list ToolCall) :=
  match ds with
  | [] => mret slots
  | d :: rest => slots' ← collect_delta slots d; collect_deltas slots' rest
  end.

(** [for await (const chunk of stream)] over the delivered chunks. *)
Fixpoint collect_chunks (content : string) (slots : list ToolCall) (chunks : list Chunk)
  : M (string * list ToolCall) :=
  match chunks with
  | [] => mret (content, slots)
  | chunk :: rest =>
      content' ← (if truthy_str (ch_content chunk)
                  then update (emit (content_step (default "" (ch_content chunk))));;
                       mret (content +:+ default "" (ch_content chunk))
                  else mret content);
      slots' ← match ch_tool_calls chunk with
               | Some (d :: ds) => collect_deltas slots (d :: ds)
               | _ => mret slots
               end;
      collect_chunks content' slots' rest
  end.

(** One pass through the body of the loop in [runWithStream]; [initial] is
    the name of the executor the run was started with. *)
Definition stream_iteration (E : Env) (execute_tools : bool)
    (model_override : option string) (initial : string) (st : LoopState)
  : M (Next * LoopState) :=
  let a := agents E (currentAgent st) in
  history ← read_array (currentMessages st);
  validate_messages E a history;;
  let st := bump st in
  update (emit (stream_start (ag_name a)));;
  try_catch
    (addEvent E model_call (model_call_data (str_or model_override (ag_model a)) history);;
     context ← read_object (currentContextVars st);
     '(chunks, failure) ← getChatCompletionStream E a (currentMessages st) context model_override;
     '(content, tool_calls) ← collect_chunks "" [] chunks;
     match failure with
     | Some error => throw error
     | None => mret tt
     end;;
     push (currentMessages st) (assistant_message (Some content) (Some tool_calls));;
     update (emit (stream_end (currentMessages st)));;
     failures ← validate_output E a (Some content);
     match failures with
     | [] => mret tt
     | _ => update (emit (validation_failed failures))
     end;;
     match tool_calls with
     | _ :: _ =>
         if execute_tools
         then tool_round E (Some initial) st tool_calls
         else mret (Break, st)
     | [] => mret (Break, st)
     end)
    (λ error,
       text ← lift (String_thrown E error);
       update (emit (error_step text));;
       mret (Break, st)).

Fixpoint stream_loop (E : Env) (fuel : nat) (max_turns : Bound) (execute_tools : bool)
    (model_override : option string) (initial : string) (st : LoopState) : M LoopState :=
  if below (turns st) max_turns then
    match fuel with
    | O => λ w, (OutOfFuel, w)
    | S fuel' =>
        '(next, st') ← stream_iteration E execute_tools model_override initial st;
        match next with
        | Continue => stream_loop E fuel' max_turns execute_tools model_override initial st'
        | Break => mret st'
        end
    end
  else mret st.

(** [Swarm.runWithStream], drained by its consumer: the yielded steps are
    appended to [emitted]. *)
Definition runWithStream (E : Env) (fuel : nat) (agent : AgentRef) (messages : loc)
    (context_variables : loc) (max_turns : Bound) (execute_tools : bool)
    (model_override : option string) : M unit :=
  tracer_clear;;
  input ← read_array messages;
  messagesCopy ← alloc_array input;
  context ← read_object context_variables;
  contextCopy ← alloc_object context;
  systemInstructions ← lift (getInstructions (agents E agent) context);
  addEvent E agent_start (agent_start_data (agents E agent) systemInstructions);;
  st ← stream_loop E fuel max_turns execute_tools model_override (ag_name (agents E agent))
         {| currentAgent := agent; currentMessages := messagesCopy;
            currentContextVars := contextCopy; turns := 0 |};
  addEvent E agent_end (JObj [("agent", JStr (ag_name (agents E (currentAgent st))))]);;
  w ← get_world;
  update (emit (complete (currentMessages st) (currentAgent st) (currentContextVars st)
                         (Tracer_.getEvents (tracer w)))).

(* ===================================================================== *)
(** * core/agent.ts: the hand-over helpers *)
(* ===================================================================== *)

(** [updateContextVariables ? { ...current, ...updateContextVariables } : current] *)
Definition handoff_context (updateContextVariables : option Ctx) (current : Ctx) : Ctx :=
  match updateContextVariables with
  | Some update => spread current update
  | None => current
  end.

(** [new Result({ agent: targetAgent, context_variables: ... })] *)
Definition handoff_result (targetAgent : AgentRef) (updateContextVariables : option Ctx)
    (current : Ctx) : Result :=
  {| res_value := None; res_agent := Some targetAgent;
     res_context_variables := Some (handoff_context updateContextVariables current) |}.

(** [Handoff.createHandoffFunction(targetAgent, updateContextVariables)]:
    the function it returns is declared as [handoff], with one parameter. *)
Definition createHandoffFunction (targetAgent : AgentRef)
    (updateContextVariables : option Ctx) : Callable :=
  {| fn_name := "handoff"; fn_params := ["currentContextVariables"]; fn_description := "";
     fn_call := λ currentContextVariables _,
       Returns (RetResult (handoff_result targetAgent updateContextVariables
                                          currentContextVariables));
     fn_name_ok := ltac:(done) |}.

(** One entry of the list given to [Handoff.createConditionalHandoff]. *)
Record HandoffCondition : Type := {
  condition : Ctx → bool + Thrown;
  targetAgent : AgentRef;
  updateContextVariables : option Ctx
}.

(** The body of [conditionalHandoff]: the first condition that holds
    decides; [null] when none does. *)
Fixpoint conditionalHandoff (conditions : list HandoffCondition) (contextVariables : Ctx)
  : ActionOutcome :=
  match conditions with
  | [] => Returns (RetValue JNull)
  | c :: rest =>
      match condition c contextVariables with
      | inl true =>
          Returns (RetResult (handoff_result (targetAgent c) (updateContextVariables c)
                                             contextVariables))
      | inl false => conditionalHandoff rest contextVariables
      | inr error => Throws error
      end
  end.

Definition createConditionalHandoff (conditions : list HandoffCondition) : Callable :=
  {| fn_name := "conditionalHandoff"; fn_params := ["contextVariables"]; fn_description := "";
     fn_call := λ contextVariables _, conditionalHandoff conditions contextVariables;
     fn_name_ok := ltac:(done) |}.

(* ===================================================================== *)
(** * guardrails: validators, safety checks and built-in rules *)
(* ===================================================================== *)

Module Guardrails.

(** The loop of [InputValidator.validate] and [OutputValidator.validate]:
    every rule runs, failures accumulate; a rule that throws is recorded
    through [`${error}`], whose own failure propagates. *)
Fixpoint check_rules (E : Env) (rules : list ValidationRule) (text : string)
    (errs : list string) : list string + Thrown :=
  match rules with
  | [] => inl errs
  | rule :: rest =>
      match rule_validator rule text with
      | inl isValid =>
          check_rules E rest text
            (if isValid then errs else errs ++ [rule_errorMessage rule])
      | inr error =>
          match String_thrown E error with
          | inl s =>
              check_rules E rest text
                (errs ++ ["验证规则 " +:+ rule_name rule +:+ " 执行错误: " +:+ s])
          | inr e => inr e
          end
      end
  end.

(** [new InputValidator(rules).validate(input)] *)
Definition InputValidator_validate (E : Env) (rules : list ValidationRule) (input : string)
  : ValidationResult + Thrown :=
  match check_rules E rules input [] with
  | inl errs => inl {| valid := bool_decide (length errs = 0%nat); errors := errs |}
  | inr e => inr e
  end.


(** [SafetyCheckRule] *)
Inductive Severity : Type := warning | error.
Inductive SafetyAction : Type := log | block | modify.

Record SafetyCheckRule : Type := {
  sc_name : string;
  sc_checker : string → bool + Thrown;
  sc_severity : Severity;
  sc_action : SafetyAction;
  sc_errorMessage : string
}.

Record SafetyReport : Type := {
  safe : bool;
  issues : list (SafetyCheckRule * bool)
}.

(** The loop of [SafetyChecker.check]; a checker that throws is logged to
    the console and counted as an issue. *)
Fixpoint check_safety (rules : list SafetyCheckRule) (content : string)
    (issues : list (SafetyCheckRule * bool)) : list (SafetyCheckRule * bool) :=
  match rules with
  | [] => issues
  | rule :: rest =>
      match sc_checker rule content with
      | inl result =>
          check_safety rest content (if result then issues else issues ++ [(rule, result)])
      | inr _ => check_safety rest content (issues ++ [(rule, false)])
      end
  end.

(** [new SafetyChecker(rules).check(content)] *)
Definition SafetyChecker_check (rules : list SafetyCheckRule) (content : string)
  : SafetyReport :=
  let issues := check_safety rules content [] in
  {| safe := bool_decide (length issues = 0%nat); issues := issues |}.





End Guardrails.

(* ===================================================================== *)
(** * Vocabulary of the properties *)
(* ===================================================================== *)

(** ** Context variables *)



(** Merging deltas one after the other, each over what came before. *)
Definition merge_all (c : Ctx) (deltas : list Ctx) : Ctx :=
  foldl spread c deltas.

(** ** Input validation *)

(** Every user message of [messages] passes the input rules of [a]. *)
Definition inputs_pass (E : Env) (a : Agent) (messages : list Message) : Prop :=
  Forall (λ m, msg_role m = user → truthy_str (msg_content m) = true →
               ∃ vr, validateInput E a (default "" (msg_content m)) = inl vr
                     ∧ valid vr = true) messages.

(** Some user message of [messages] fails the input rules of [a]. *)
Definition input_rejected (E : Env) (a : Agent) (messages : list Message) : Prop :=
  Exists (λ m, msg_role m = user ∧ truthy_str (msg_content m) = true
               ∧ ∃ vr, validateInput E a (default "" (msg_content m)) = inl vr
                       ∧ valid vr = false) messages.

(** The trace of [w'] extends that of [w] by guardrail checks only. *)
Definition only_guardrail_checks (w w' : World) : Prop :=
  ∃ checks, events (tracer w') = events (tracer w) ++ checks
            ∧ Forall (λ ev, ev_type ev = guardrail_check) checks.

(** ** The caller's objects *)

(** The caller's array and context object are intact in [w]. *)
Definition arguments_kept (messages context_variables : loc) (input : list Message)
    (context : Ctx) (w : World) : Prop :=
  arrays w !! messages = Some input ∧ objects w !! context_variables = Some context.

(** Invariant of the loops: besides, the loop works on an array of its own
    that extends the input. *)
Definition works_on_copy (messages context_variables : loc) (input : list Message)
    (context : Ctx) (st : LoopState) (w : World) : Prop :=
  arguments_kept messages context_variables input context w
  ∧ currentMessages st ≠ messages
  ∧ ∃ appended, arrays w !! currentMessages st = Some (input ++ appended).

(** ** Dispatch *)

(** [response] with one more tool message, and nothing else changed. *)
Definition with_message (response : ToolCallResult) (m : Message) : ToolCallResult :=
  {| tr_messages := tr_messages response ++ [m];
     tr_agent := tr_agent response;
     tr_context_variables := tr_context_variables response |}.

(** The tool message the [catch] block builds. *)
Definition failure_message (tc : ToolCall) (errorMessage : string) : Message :=
  tool_message ("函数 " +:+ tc_name tc +:+ " 执行错误: " +:+ errorMessage)
               (tc_name tc) (tc_id tc).

(** The tool message of the [else] branch. *)
Definition not_found_message (tc : ToolCall) : Message :=
  tool_message ("函数 " +:+ tc_name tc +:+ " 未找到") (tc_name tc) (tc_id tc).

(** The tool-role messages of a list. *)
Definition tool_messages (messages : list Message) : list Message :=
  filter (λ m, msg_role m = tool) messages.

(** ** Replies of the model *)

(** A reply that is plain text: no tool calls are requested. *)
Definition plain_reply (text : string) : Completion :=
  {| cp_content := Some text; cp_tool_calls := None |}.

(** Whether a reply leads to a tool-execution round. *)
Definition starts_tool_round (execute_tools : bool) (reply : Completion) : bool :=
  match cp_tool_calls reply with
  | Some (_ :: _) => execute_tools
  | _ => false
  end.

(** ** Reasoning about monadic code *)

(** [m] leaves every world related by [R] to the world it ends in,
    whatever its outcome. *)
Definition preserves {A} (R : relation World) (m : M A) : Prop := ∀ w, R w (m w).2.

(** The projection [f] of the world is left as it was. *)
Definition kept {X} (f : World → X) : relation World := λ w w', f w' = f w.

(** Which primitive writes a projection of the world does not depend on. *)
Definition tracer_free {X} (f : World → X) : Prop := ∀ w tr c, f (set_tracer tr c w) = f w.
Definition invoke_free {X} (f : World → X) : Prop := ∀ w n o, f (log_invocation n o w) = f w.
Definition request_free {X} (f : World → X) : Prop := ∀ w r, f (log_request r w) = f w.
Definition emit_free {X} (f : World → X) : Prop := ∀ w s, f (emit s w) = f w.
Definition arrays_free {X} (f : World → X) : Prop := ∀ w g, f (set_arrays g w) = f w.
Definition objects_free {X} (f : World → X) : Prop := ∀ w g, f (set_objects g w) = f w.

(** [m] never exhausts the loop bound of the embedding. *)
Definition terminates {A} (m : M A) : Prop := ∀ w, (m w).1 ≠ OutOfFuel.

(** [m] always completes normally. *)
Definition succeeds {A} (m : M A) : Prop := ∀ w, ∃ a, (m w).1 = Done a.

(** ** The trace as JSON *)

(** The values that JSON has: no [undefined] at any depth.  The keys of
    an object are distinct, as they are in the engine; the list of
    properties that embeds it has to say so. *)
Fixpoint json_value (v : JsVal) : bool :=
  match v with
  | JUndefined => false
  | JNull | JBool _ | JNum _ | JStr _ => true
  | JArr items => forallb json_value items
  | JObj props => bool_decide (NoDup props.*1) && forallb (λ p, json_value p.2) props
  end.

(** A bound on the nesting the parser goes through for a value. *)
Fixpoint weight (v : JsVal) : nat :=
  match v with
  | JArr items => S (sum_list_with (λ x, S (weight x)) items)
  | JObj props => S (sum_list_with (λ p, S (weight p.2)) props)
  | _ => 1
  end.

(** Text that cannot continue a number literal. *)
Definition number_ends (rest : JSON.text) : bool :=
  match rest with
  | [] => true
  | c :: _ => negb (JSON.is_num_char c || Ascii.eqb c "." || Ascii.eqb c "e" || Ascii.eqb c "E")
  end.

(** Indentation. *)
Definition blank (t : JSON.text) : bool := forallb JSON.is_ws t.

(** What the induction gives for one value: at every depth of
    indentation its text parses back to it. *)
Definition parses_back (v : JsVal) : Prop :=
  ∀ sb rest fuel, blank sb = true → number_ends rest = true → (weight v ≤ fuel)%nat →
    ∃ t, JSON.serialize sb v = Some t ∧ JSON.parse_value fuel (t ++ rest) = Some (v, rest).

(** The JavaScript functions among the entries of a [functions] list. *)
Definition callables (functions : list FunctionType) : list Callable :=
  omap (λ func, match func with FnCallable f => Some f | FnSchema _ => None end) functions.

(** The executor an invocation handed over to, if any. *)
Definition handover_of (o : ActionOutcome) : option AgentRef :=
  match o with
  | Returns (RetResult r) => res_agent r
  | Returns (RetAgent a) => Some a
  | _ => None
  end.

(** The last hand-over of a log of invocations. *)
Definition last_handover (log : list (string * ActionOutcome)) : option AgentRef :=
  last (omap (λ call, handover_of call.2) log).

(** [m] is a tool message for the call [tc]. *)
Definition answers (tc : ToolCall) (m : Message) : Prop :=
  msg_role m = tool ∧ msg_name m = Some (tc_name tc)
  ∧ msg_tool_call_id m = Some (tc_id tc).

Definition is_function_call (tc : ToolCall) : bool := String.eqb (tc_type tc) "function".

(** The response after a successful [try] block. *)
Definition absorb (response : ToolCallResult) (result : HandledResult) : ToolCallResult :=
  {| tr_messages := tr_messages response ++ option_list (hr_message result);
     tr_context_variables :=
       spread (tr_context_variables response) (hr_context_variables result);
     tr_agent := match hr_agent result with
                 | Some a => Some a
                 | None => tr_agent response
                 end |}.

(** [Object.values(JSON.parse(args))] *)
Definition argument_values (E : Env) (args : string) : list JsVal + Thrown :=
  match JSON_parse E args with
  | inl parsedArgs => Object_values E parsedArgs
  | inr e => inr e
  end.

(** While the tracer is switched off it stays as it is. *)
Definition stays_off (w w' : World) : Prop :=
  enabled (tracer w) = false → tracer w' = tracer w.

(** The number of [model_call] events of a trace. *)
Definition model_calls (trace : list TraceEvent) : nat :=
  length (filter (λ ev, ev_type ev = model_call) trace).

(** Whether the tracer is switched on, and how many model calls it holds. *)
Definition model_call_count (w : World) : bool * nat :=
  (enabled (tracer w), model_calls (events (tracer w))).

Definition not_model_call (t : EventType) : bool := bool_decide (t ≠ model_call).

(** [w'] has at most [n] requests more than [w]. *)
Definition sent_at_most (n : nat) (w w' : World) : Prop :=
  ∃ sent, requests w' = requests w ++ sent ∧ (length sent ≤ n)%nat.

(** The steps yielded up to [w'] extend those yielded up to [w]. *)
Definition yields_more (w w' : World) : Prop :=
  ∃ steps, emitted w' = emitted w ++ steps.

(** Strings put one after the other. *)
Definition glue (l : list string) : string := foldr String.append "" l.

(** A string-valued field that is set: [if (x)]. *)
Definition truthy_part (s : option string) : option string :=
  if truthy_str s then s else None.

(** The content fragments of the chunks, in order of arrival. *)
Definition fragments (chunks : list Chunk) : list string :=
  omap (λ chunk, truthy_part (ch_content chunk)) chunks.

(** The [content] steps among yielded steps. *)
Definition content_steps (steps : list Step) : list string :=
  omap (λ s, match s with content_step c => Some c | _ => None end) steps.

(** The tool-call fragments of the chunks, in order of arrival. *)
Definition deltas (chunks : list Chunk) : list ToolCallDelta :=
  concat (map (λ chunk, default [] (ch_tool_calls chunk)) chunks).

(** What the fragments for slot [i] carry in one of their fields. *)
Definition parts_at (field : ToolCallDelta → option string) (i : nat)
    (ds : list ToolCallDelta) : list string :=
  omap (λ d, if decide (td_index d = i) then truthy_part (field d) else None) ds.

Definition td_name (d : ToolCallDelta) : option string :=
  match td_function d with Some (name, _) => name | None => None end.

Definition td_arguments (d : ToolCallDelta) : option string :=
  match td_function d with Some (_, arguments) => arguments | None => None end.

(** The slot at [i], an empty one when there is none yet. *)
Definition slot_at (slots : list ToolCall) (i : nat) : ToolCall :=
  default empty_slot (slots !! i).

(** The update of the slots by one fragment. *)
Definition absorb_delta (slots : list ToolCall) (d : ToolCallDelta) : list ToolCall :=
  <[td_index d := merge_delta (slot_at (pad_slots slots (td_index d)) (td_index d)) d]>
    (pad_slots slots (td_index d)).

(** Yielded steps that are not content. *)
Definition yields_no_content (w w' : World) : Prop :=
  ∃ steps, emitted w' = emitted w ++ steps ∧ content_steps steps = [].

(** The rule's validator returns [true] on the text. *)
Definition passes (text : string) (rule : ValidationRule) : bool :=
  match rule_validator rule text with
  | inl isValid => isValid
  | inr _ => false
  end.

(** The rule's validator returns, whatever it returns. *)
Definition decides (text : string) (rule : ValidationRule) : Prop :=
  ∃ isValid, rule_validator rule text = inl isValid.

(** The error messages of the rules a text does not pass, in rule order. *)
Definition complaints (rules : list ValidationRule) (text : string) : list string :=
  map rule_errorMessage (filter (λ rule, passes text rule = false) rules).

(** [v.a.b.c] on own data properties. *)
Fixpoint js_path (path : list string) (v : JsVal) : option JsVal :=
  match path with
  | [] => Some v
  | k :: rest =>
      match v with
      | JObj props =>
          match obj_get k props with
          | Some v' => js_path rest v'
          | None => None
          end
      | _ => None
      end
  end.

(** The response [handleToolCalls] starts from. *)
Definition no_response : ToolCallResult :=
  {| tr_messages := []; tr_agent := None; tr_context_variables := ∅ |}.

(** The checker returns [true] on the content. *)
Definition cleared (content : string) (rule : Guardrails.SafetyCheckRule) : bool :=
  match Guardrails.sc_checker rule content with
  | inl result => result
  | inr _ => false
  end.


(** The tracer keeps its switch and only gains events. *)
Definition trace_grows (w w' : World) : Prop :=
  enabled (tracer w') = enabled (tracer w)
  ∧ ∃ more, events (tracer w') = events (tracer w) ++ more.

(** A step that, when it is a [handoff] step, names [name] as its origin. *)
Definition hands_from (name : string) (s : Step) : Prop :=
  match s with
  | handoff_step from _ => from = name
  | _ => True
  end.

(** The steps yielded from [w] to [w'] name no other origin than [name]
    in their [handoff] steps. *)
Definition yields_from (name : string) (w w' : World) : Prop :=
  ∃ steps, emitted w' = emitted w ++ steps ∧ Forall (hands_from name) steps.

(** A request of a batched run over [input]: built for one of the
    executors from its rendered instructions and a history that extends
    [input]. *)
Definition request_over (E : Env) (input : list Message) (model_override : option string)
    (rq : Request) : Prop :=
  ∃ ref instructions appended,
    rq = createParams (agents E ref) instructions (input ++ appended) model_override false.

(** From [w] to [w'] only such requests were sent. *)
Definition sends_over (E : Env) (input : list Message) (model_override : option string)
    (w w' : World) : Prop :=
  ∃ sent, requests w' = requests w ++ sent ∧ Forall (request_over E input model_override) sent.

(* ===================================================================== *)
(** * Concrete scenarios *)
(* ===================================================================== *)

Module Scenario.

(** The wording V8 gives to the engine's faults. *)
Definition engine (f : EngineFault) : string :=
  match f with
  | CannotConvertToPrimitive => "Cannot convert object to primitive value"
  | NotAFunction => "func is not a function"
  | NullishToObject _ => "Cannot convert undefined or null to object"
  end.

Definition parse_args (s : string) : JsVal + Thrown :=
  match JSON.parse s with
  | Some v => inl v
  | None => inr (ThrowError "SyntaxError" "Unexpected token in JSON")
  end.

(** A provider that answers the n-th request with the n-th scripted reply,
    and a clock that ticks once per reading. *)
Definition env (agents : AgentRef → Agent) (replies : list (Completion + Thrown))
    (streams : list (list Chunk * option Thrown)) : Env :=
  {| agents := agents;
     createChatCompletion := λ n _,
       default (inr (ThrowError "Error" "no reply")) (replies !! n);
     createChatCompletionStream := λ n _,
       default ([], Some (ThrowError "Error" "no reply")) (streams !! n);
     JSON_parse := parse_args;
     Date_now := λ n, (1700000000000 + Z.of_nat n)%Z;
     engine_message := engine |}.

Definition no_guardrails : GuardrailConfig :=
  {| inputValidation := None; outputValidation := None |}.

(** [new Agent({ name, functions, guardrails })], the other fields at their
    defaults. *)
Definition agent (name : string) (functions : list FunctionType)
    (guardrails : GuardrailConfig) : Agent :=
  {| ag_name := name; ag_model := "gpt-4o";
     ag_instructions := InstrText "You are a helpful agent.";
     ag_functions := functions; ag_tool_choice := None;
     ag_guardrails := guardrails; ag_maxTokens := 16385;
     ag_parallel_tool_calls := Some true |}.

Definition user_message (text : string) : Message :=
  {| msg_role := user; msg_content := Some text; msg_name := None;
     msg_tool_call_id := None; msg_function_call := None; msg_tool_calls := None |}.

(** The caller's objects: the array [[{role: 'user', content: 'Hi'}]] and
    the empty context object, each at reference 0 of its heap; a fresh
    orchestrator with tracing enabled. *)
Definition world : World :=
  {| arrays := {[ 0%nat := [user_message "Hi"] ]};
     objects := {[ 0%nat := ∅ ]};
     tracer := Tracer_.new true;
     clock := 0; emitted := []; requests := []; invoked := [] |}.

(** A requested tool call with the empty argument object. *)
Definition call (id name : string) : ToolCall :=
  {| tc_id := id; tc_type := "function"; tc_name := name; tc_arguments := "{}" |}.

Definition wants (tool_calls : list ToolCall) : Completion + Thrown :=
  inl {| cp_content := None; cp_tool_calls := Some tool_calls |}.

Definition says (text : string) : Completion + Thrown := inl (plain_reply text).

(** A function without parameters or documentation. *)
Definition action (name : string) (H : name ≠ "__proto__") (outcome : ActionOutcome)
  : FunctionType :=
  FnCallable {| fn_name := name; fn_params := []; fn_description := "";
                fn_call := λ _ _, outcome; fn_name_ok := H |}.

(** [new Result({ value: 'ok', context_variables: { a: n } })] *)
Definition sets_a (n : Z) : ActionOutcome :=
  Returns (RetResult {| res_value := Some "ok"; res_agent := None;
                        res_context_variables := Some {[ "a" := JNum n ]} |}).

(** [new Result({ value: 'transferring', agent: next })] *)
Definition hands_over (next : AgentRef) : ActionOutcome :=
  Returns (RetResult {| res_value := Some "transferring"; res_agent := Some next;
                        res_context_variables := None |}).

(** The object [{ toString: 1 }]: its own [toString] property is not
    callable, so it has no string conversion. *)
Definition unconvertible : JsVal := JObj [("toString", JNum 1)].

(** Scenario A: no actions, the model answers "Hello". *)
Definition echo : Env :=
  env (λ _, agent "Echo" [] no_guardrails) [says "Hello"] [].

(** Scenario C: one turn requests [setA1] then [setA2]. *)
Definition setters : Env :=
  env (λ _, agent "Setter"
              [action "setA1" ltac:(done) (sets_a 1); action "setA2" ltac:(done) (sets_a 2)]
              no_guardrails)
      [wants [call "c1" "setA1"; call "c2" "setA2"]] [].

(** An action returns an object without string conversion. *)
Definition describes : Env :=
  env (λ _, agent "Describer"
              [action "describe" ltac:(done) (Returns (RetValue unconvertible))]
              no_guardrails)
      [wants [call "c1" "describe"]] [].

(** An action throws an object without string conversion. *)
Definition rejects : Env :=
  env (λ _, agent "Rejecter"
              [action "reject" ltac:(done) (Throws (ThrowValue unconvertible))]
              no_guardrails)
      [wants [call "c1" "reject"]] [].

(** An action throws [new Error('boom')]. *)
Definition fails : Env :=
  env (λ _, agent "Failer"
              [action "fail" ltac:(done) (Throws (ThrowError "Error" "boom"))]
              no_guardrails)
      [wants [call "c1" "fail"]] [].

(** Scenario D: the model asks for an action the executor does not have. *)
Definition asks_for (name : string) : Env :=
  env (λ _, agent "Plain" [] no_guardrails) [wants [call "c1" name]] [].

(** A rule that no input satisfies. *)
Definition refuse_all : ValidationRule :=
  {| rule_name := "refuse_all"; rule_validator := λ _, inl false;
     rule_errorMessage := "not accepted" |}.

Definition strict : GuardrailConfig :=
  {| inputValidation := Some [refuse_all]; outputValidation := None |}.

(** A front desk (agent 0) that hands over to an executor (agent 1) whose
    input rules refuse every message. *)
Definition front_desk : Env :=
  env (λ r, match r with
            | O => agent "Front" [action "transfer" ltac:(done) (hands_over 1%nat)] no_guardrails
            | _ => agent "Strict" [] strict
            end)
      [wants [call "c1" "transfer"]; says "welcome"] [].

(** A front desk that hands over to an executor without rules. *)
Definition reception : Env :=
  env (λ r, match r with
            | O => agent "Front" [action "transfer" ltac:(done) (hands_over 1%nat)] no_guardrails
            | _ => agent "Support" [] no_guardrails
            end)
      [wants [call "c1" "transfer"]; says "welcome"] [].

(** An executor whose input rules refuse every message, started directly. *)
Definition strict_only : Env :=
  env (λ _, agent "Strict" [] strict) [says "welcome"] [].

(** The provider streams the single content fragment "Hello". *)
Definition streams_hello : Env :=
  env (λ _, agent "Echo" [] no_guardrails) [says "Hello"]
      [([ {| ch_content := Some "Hello"; ch_tool_calls := None |} ], None)].

(** The state in which both loops start in [world]. *)
Definition start : LoopState :=
  {| currentAgent := 0%nat; currentMessages := 0%nat; currentContextVars := 0%nat;
     turns := 0 |}.

(** A requested call whose arguments are not JSON. *)
Definition malformed_call (id name : string) : ToolCall :=
  {| tc_id := id; tc_type := "function"; tc_name := name; tc_arguments := "{" |}.

(** A front desk whose action returns the executor 1 itself, not wrapped
    in a [Result]. *)
Definition delegates : Env :=
  env (λ r, match r with
            | O => agent "Front" [action "delegate" ltac:(done) (Returns (RetAgent 1%nat))]
                         no_guardrails
            | _ => agent "Support" [] no_guardrails
            end)
      [wants [call "c1" "delegate"]; says "welcome"] [].

(** A backend that fails on every request. *)
Definition silent : Env :=
  env (λ _, agent "Echo" [] no_guardrails) [] [].

(** [world] with tracing switched off. *)
Definition untraced : World :=
  {| arrays := {[ 0%nat := [user_message "Hi"] ]};
     objects := {[ 0%nat := ∅ ]};
     tracer := Tracer_.new false;
     clock := 0; emitted := []; requests := []; invoked := [] |}.

(** A chunk with a content fragment, and a chunk with one tool-call
    fragment for the slot [index]. *)
Definition content_chunk (text : string) : Chunk :=
  {| ch_content := Some text; ch_tool_calls := None |}.

Definition call_chunk (index : nat) (name arguments : option string) : Chunk :=
  {| ch_content := None;
     ch_tool_calls := Some [ {| td_index := index; td_id := None; td_type := None;
                                td_function := Some (name, arguments) |} ] |}.

(** Two calls streamed in interleaved fragments. *)
Definition interleaved : list Chunk :=
  [call_chunk 0 (Some "setA1") (Some "{"); call_chunk 1 (Some "setA2") (Some "{}");
   call_chunk 0 None (Some "}")].

(** A rule that every text satisfies, a rule for texts of at most two
    characters, and a rule whose validator throws [new Error('boom')]. *)
Definition accept_all : ValidationRule :=
  {| rule_name := "accept_all"; rule_validator := λ _, inl true;
     rule_errorMessage := "never shown" |}.

Definition at_most_two : ValidationRule :=
  {| rule_name := "at_most_two";
     rule_validator := λ text, inl (Nat.leb (String.length text) 2);
     rule_errorMessage := "too long" |}.

Definition broken : ValidationRule :=
  {| rule_name := "broken"; rule_validator := λ _, inr (ThrowError "Error" "boom");
     rule_errorMessage := "never shown" |}.

(** An executor with input and output rules. *)
Definition checked (input output : list ValidationRule) : Agent :=
  agent "Checked" [] {| inputValidation := Some input; outputValidation := Some output |}.

(** [function greet(context_variables, name) { return 'hello'; }] *)
Definition greet : Callable :=
  {| fn_name := "greet"; fn_params := ["context_variables"; "name"]; fn_description := "";
     fn_call := λ _ _, Returns (RetValue (JStr "hello")); fn_name_ok := ltac:(done) |}.

(** [ctx => ctx.vip === true] and [ctx => true], as conditions of a
    conditional hand-over to the executors 1 and 2. *)
Definition is_vip (c : Ctx) : bool + Thrown :=
  inl match c !! "vip" with Some (JBool true) => true | _ => false end.

Definition vip_first : list HandoffCondition :=
  [ {| condition := is_vip;
       targetAgent := 1%nat; updateContextVariables := None |};
    {| condition := λ _, inl true;
       targetAgent := 2%nat; updateContextVariables := Some {[ "queue" := JStr "general" ]} |} ].

Definition vip_only : list HandoffCondition :=
  [ {| condition := is_vip;
       targetAgent := 1%nat; updateContextVariables := None |} ].

(** A chunk that carries one whole call, without arguments. *)
Definition whole_call_chunk (id name : string) : Chunk :=
  {| ch_content := None;
     ch_tool_calls := Some [ {| td_index := 0; td_id := Some id; td_type := Some "function";
                                td_function := Some (Some name, Some "{}") |} ] |}.

(** A front desk (0) hands over to support (1), which hands over to an
    expert (2); the provider streams. *)
Definition relay : Env :=
  env (λ r, match r with
            | 0%nat => agent "Front" [action "transfer" ltac:(done) (hands_over 1%nat)]
                             no_guardrails
            | 1%nat => agent "Support" [action "escalate" ltac:(done) (hands_over 2%nat)]
                             no_guardrails
            | _ => agent "Expert" [] no_guardrails
            end)
      []
      [([whole_call_chunk "c1" "transfer"], None); ([whole_call_chunk "c2" "escalate"], None);
       ([content_chunk "welcome"], None)].

End Scenario.
(* ===================================================================== *)
(** * Reasoning about monadic code *)
(* ===================================================================== *)

Lemma bind_Done {A B} (m : M A) (k : A → M B) w a w' :
  m w = (Done a, w') → (m ≫= k) w = k a w'.
Proof. intros H. unfold mbind, M_bind, bind. by rewrite H. Qed.

Lemma bind_Raised {A B} (m : M A) (k : A → M B) w e w' :
  m w = (Raised e, w') → (m ≫= k) w = (Raised e, w').
Proof. intros H. unfold mbind, M_bind, bind. by rewrite H. Qed.

Lemma bind_OutOfFuel {A B} (m : M A) (k : A → M B) w w' :
  m w = (OutOfFuel, w') → (m ≫= k) w = (OutOfFuel, w').
Proof. intros H. unfold mbind, M_bind, bind. by rewrite H. Qed.

Lemma bind_inv {A B} (m : M A) (k : A → M B) w (b : B) w'' :
  (m ≫= k) w = (Done b, w'') →
  ∃ a w', m w = (Done a, w') ∧ k a w' = (Done b, w'').
Proof.
  unfold mbind, M_bind, bind. destruct (m w) as [[a|e|] w']; intros H; try done.
  by exists a, w'.
Qed.

(** ** Frame rules: what a computation leaves related, whatever its outcome *)

Section frames.
Context (R : relation World) `{!PreOrder R}.

Lemma preserves_ret {A} (a : A) : preserves R (mret a).
Proof. intros w. reflexivity. Qed.

Lemma preserves_throw {A} (e : Thrown) : preserves R (@throw A e).
Proof. intros w. reflexivity. Qed.

Lemma preserves_lift {A} (r : A + Thrown) : preserves R (lift r).
Proof. destruct r; [apply preserves_ret | apply preserves_throw]. Qed.

Lemma preserves_get_world : preserves R get_world.
Proof. intros w. reflexivity. Qed.

Lemma preserves_out_of_fuel {A} : preserves R (λ w, (@OutOfFuel A, w)).
Proof. intros w. reflexivity. Qed.

Lemma preserves_update (f : World → World) :
  (∀ w, R w (f w)) → preserves R (update f).
Proof. intros H w. apply H. Qed.

Lemma preserves_bind {A B} (m : M A) (k : A → M B) :
  preserves R m → (∀ a, preserves R (k a)) → preserves R (m ≫= k).
Proof.
  intros Hm Hk w. unfold mbind, M_bind, bind.
  specialize (Hm w). destruct (m w) as [[a|e|] w']; simpl in *; try done.
  etrans; [exact Hm | apply Hk].
Qed.

Lemma preserves_try_catch {A} (m : M A) (h : Thrown → M A) :
  preserves R m → (∀ e, preserves R (h e)) → preserves R (try_catch m h).
Proof.
  intros Hm Hh w. unfold try_catch.
  specialize (Hm w). destruct (m w) as [[a|e|] w']; simpl in *; try done.
  etrans; [exact Hm | apply Hh].
Qed.
End frames.

#[global] Instance kept_preorder {X} (f : World → X) : PreOrder (kept f).
Proof. split; [by intros w | intros w1 w2 w3 H1 H2; unfold kept in *; congruence]. Qed.

Create HintDb frame.

Ltac frame_step :=
  first
    [ match goal with |- PreOrder _ => apply _ end
    | apply preserves_ret | apply preserves_throw | apply preserves_lift
    | apply preserves_get_world | apply preserves_out_of_fuel
    | apply preserves_bind | apply preserves_try_catch
    | apply preserves_update; intros ?; reflexivity
    | solve [eauto with frame]
    | match goal with
      | |- preserves _ (match ?x with _ => _ end) => destruct x
      | |- ∀ _, _ => intros ?
      end ].

Ltac frame := repeat frame_step.

#[global] Hint Extern 1 (tracer_free _) => (by intros ? ? ?) : frame.
#[global] Hint Extern 1 (invoke_free _) => (by intros ? ? ?) : frame.
#[global] Hint Extern 1 (request_free _) => (by intros ? ?) : frame.
#[global] Hint Extern 1 (emit_free _) => (by intros ? ?) : frame.
#[global] Hint Extern 1 (arrays_free _) => (by intros ? ?) : frame.
#[global] Hint Extern 1 (objects_free _) => (by intros ? ?) : frame.

Section primitive_frames.
Context {X : Type} (f : World → X).

Lemma lift_kept {A} (r : A + Thrown) : preserves (kept f) (lift r).
Proof. apply preserves_lift, _. Qed.

Lemma get_world_kept : preserves (kept f) get_world.
Proof. by intros w. Qed.

Lemma read_array_kept r : preserves (kept f) (read_array r).
Proof. by intros w. Qed.

Lemma read_object_kept r : preserves (kept f) (read_object r).
Proof. by intros w. Qed.

Lemma alloc_array_kept l : arrays_free f → preserves (kept f) (alloc_array l).
Proof. intros H w. apply H. Qed.

Lemma push_kept r m : arrays_free f → preserves (kept f) (push r m).
Proof. intros H w. apply H. Qed.

Lemma alloc_object_kept c : objects_free f → preserves (kept f) (alloc_object c).
Proof. intros H w. apply H. Qed.

(** Recording a trace event touches the tracer and the clock only. *)
Lemma addEvent_kept E t d : tracer_free f → preserves (kept f) (addEvent E t d).
Proof.
  intros H w. unfold addEvent, update, kept. simpl.
  destruct (enabled (tracer w)); [apply H | done].
Qed.

Lemma tracer_clear_kept : tracer_free f → preserves (kept f) tracer_clear.
Proof. intros H w. apply H. Qed.

Lemma emit_kept s : emit_free f → preserves (kept f) (update (emit s)).
Proof. intros H w. apply H. Qed.

Lemma log_invocation_kept n o :
  invoke_free f → preserves (kept f) (update (log_invocation n o)).
Proof. intros H w. apply H. Qed.

Lemma log_request_kept r :
  request_free f → preserves (kept f) (update (log_request r)).
Proof. intros H w. apply H. Qed.
End primitive_frames.

#[global] Hint Resolve lift_kept get_world_kept
  read_array_kept read_object_kept alloc_array_kept push_kept
  alloc_object_kept addEvent_kept tracer_clear_kept emit_kept
  log_invocation_kept log_request_kept : frame.

Section derived_frames.
Context {X : Type} (f : World → X).

Lemma validate_message_kept E a m :
  tracer_free f → preserves (kept f) (validate_message E a m).
Proof. intros H. unfold validate_message. frame. Qed.

Lemma validate_messages_kept E a msgs :
  tracer_free f → preserves (kept f) (validate_messages E a msgs).
Proof.
intros H. induction msgs as [|m msgs IH]; simpl; [frame|].
apply preserves_bind; [apply _ | by apply validate_message_kept | done].
Qed.

Lemma validate_output_kept E a c :
  tracer_free f → preserves (kept f) (validate_output E a c).
Proof. intros H. unfold validate_output. frame. Qed.

Lemma getChatCompletion_kept E a h c mo :
  request_free f → preserves (kept f) (getChatCompletion E a h c mo).
Proof.
  intros H. unfold getChatCompletion. frame.
Qed.

Lemma getChatCompletionStream_kept E a h c mo :
  request_free f → preserves (kept f) (getChatCompletionStream E a h c mo).
Proof.
  intros H. unfold getChatCompletionStream. frame.
Qed.

Lemma invoke_kept E func name c vals :
  invoke_free f → preserves (kept f) (invoke E func name c vals).
Proof.
  intros H. unfold invoke. destruct func; frame.
Qed.

Lemma dispatch_kept E fm c r tc :
  tracer_free f → invoke_free f → preserves (kept f) (dispatch E fm c r tc).
Proof.
  intros H1 H2. unfold dispatch.
  destruct (String.eqb _ _); frame.
Qed.

Lemma dispatch_all_kept E fm c r tcs :
  tracer_free f → invoke_free f → preserves (kept f) (dispatch_all E fm c r tcs).
Proof.
  intros H1 H2. revert r. induction tcs as [|tc tcs IH]; intros r; simpl.
  - frame.
  - apply preserves_bind; [apply _ | by apply dispatch_kept | done].
Qed.

Lemma handleToolCalls_kept E tcs fns c :
  tracer_free f → invoke_free f → preserves (kept f) (handleToolCalls E tcs fns c).
Proof. intros. by apply dispatch_all_kept. Qed.
Lemma emit_all_kept (l : list Message) (w : World) :
  emit_free f → f (fold_left (λ w m, emit (tool_response m) w) l w) = f w.
Proof.
intros Hf. revert w. induction l as [|m l IH]; intros w; simpl; [done|].
by rewrite IH, Hf.
Qed.

Lemma tool_round_kept E s st tcs :
  tracer_free f → invoke_free f → arrays_free f → objects_free f → emit_free f →
  preserves (kept f) (tool_round E s st tcs).
Proof.
intros H1 H2 H3 H4 H5. unfold tool_round.
assert (Hy : ∀ l, preserves (kept f)
               (update (λ w, fold_left (λ w m, emit (tool_response m) w) l w))).
{ intros l w. by apply emit_all_kept. }
pose proof (handleToolCalls_kept E) as Hh.
frame.
Qed.
End derived_frames.

#[global] Hint Resolve validate_message_kept validate_messages_kept validate_output_kept getChatCompletion_kept
  getChatCompletionStream_kept invoke_kept dispatch_kept dispatch_all_kept
  handleToolCalls_kept tool_round_kept : frame.

(** ** Computations that never exhaust the loop bound *)

Lemma terminates_ret {A} (a : A) : terminates (mret a).
Proof. by intros w. Qed.

Lemma terminates_throw {A} (e : Thrown) : terminates (@throw A e).
Proof. by intros w. Qed.

Lemma terminates_lift {A} (r : A + Thrown) : terminates (lift r).
Proof. by destruct r; intros w. Qed.

Lemma terminates_update (f : World → World) : terminates (update f).
Proof. by intros w. Qed.

Lemma terminates_get_world : terminates get_world.
Proof. by intros w. Qed.

Lemma terminates_read_array r : terminates (read_array r).
Proof. by intros w. Qed.

Lemma terminates_read_object r : terminates (read_object r).
Proof. by intros w. Qed.

Lemma terminates_alloc_array l : terminates (alloc_array l).
Proof. by intros w. Qed.

Lemma terminates_alloc_object c : terminates (alloc_object c).
Proof. by intros w. Qed.

Lemma terminates_bind {A B} (m : M A) (k : A → M B) :
  terminates m → (∀ a, terminates (k a)) → terminates (m ≫= k).
Proof.
  intros Hm Hk w. unfold mbind, M_bind, bind.
  specialize (Hm w). destruct (m w) as [[a|e|] w']; simpl in *; try done.
  apply Hk.
Qed.

Lemma terminates_try_catch {A} (m : M A) (h : Thrown → M A) :
  terminates m → (∀ e, terminates (h e)) → terminates (try_catch m h).
Proof.
  intros Hm Hh w. unfold try_catch.
  specialize (Hm w). destruct (m w) as [[a|e|] w']; simpl in *; try done.
  apply Hh.
Qed.

Create HintDb term.

#[global] Hint Resolve terminates_ret terminates_throw terminates_lift terminates_update
  terminates_get_world terminates_read_array terminates_read_object
  terminates_alloc_array terminates_alloc_object : term.

Ltac term_step :=
  first
    [ solve [eauto with term]
    | apply terminates_bind | apply terminates_try_catch
    | match goal with
      | |- terminates (match ?x with _ => _ end) => destruct x
      | |- ∀ _, _ => intros ?
      end ].

Ltac term := repeat term_step.

Lemma terminates_addEvent E t d : terminates (addEvent E t d).
Proof. apply terminates_update. Qed.

Lemma terminates_tracer_clear : terminates tracer_clear.
Proof. apply terminates_update. Qed.

Lemma terminates_push r m : terminates (push r m).
Proof. apply terminates_update. Qed.

#[global] Hint Resolve terminates_addEvent terminates_tracer_clear terminates_push : term.

Lemma terminates_validate_message E a m : terminates (validate_message E a m).
Proof. unfold validate_message. term. Qed.

#[global] Hint Resolve terminates_validate_message : term.

Lemma terminates_validate_messages E a msgs : terminates (validate_messages E a msgs).
Proof. induction msgs as [|m msgs IH]; simpl; term. Qed.

Lemma terminates_validate_output E a c : terminates (validate_output E a c).
Proof. unfold validate_output. term. Qed.

Lemma terminates_getChatCompletion E a h c mo : terminates (getChatCompletion E a h c mo).
Proof. unfold getChatCompletion. term. Qed.

Lemma terminates_getChatCompletionStream E a h c mo :
  terminates (getChatCompletionStream E a h c mo).
Proof. unfold getChatCompletionStream. term. Qed.

Lemma terminates_invoke E func name c vals : terminates (invoke E func name c vals).
Proof. unfold invoke. term. Qed.

#[global] Hint Resolve terminates_validate_messages terminates_validate_output
  terminates_getChatCompletion terminates_getChatCompletionStream terminates_invoke : term.

Lemma terminates_dispatch E fm c r tc : terminates (dispatch E fm c r tc).
Proof. unfold dispatch, attempt, recover, not_found. destruct (String.eqb _ _); term. Qed.

#[global] Hint Resolve terminates_dispatch : term.

Lemma terminates_dispatch_all E fm c r tcs : terminates (dispatch_all E fm c r tcs).
Proof. revert r. induction tcs as [|tc tcs IH]; intros r; simpl; term. Qed.

#[global] Hint Resolve terminates_dispatch_all : term.

(** Action dispatch always comes back: with a result or an exception. *)
Lemma terminates_handleToolCalls E tcs fns c : terminates (handleToolCalls E tcs fns c).
Proof. unfold handleToolCalls. term. Qed.

#[global] Hint Resolve terminates_handleToolCalls : term.

Lemma terminates_tool_round E s st tcs : terminates (tool_round E s st tcs).
Proof. unfold tool_round. term. Qed.

#[global] Hint Resolve terminates_tool_round : term.

Lemma terminates_run_iteration E et mo st : terminates (run_iteration E et mo st).
Proof. unfold run_iteration. term. Qed.

#[global] Hint Resolve terminates_run_iteration : term.

(** ** Stepping through a sequence of binds *)

(** Record what the computation [m], run from [w] with result [Hm], is
    known to keep. *)
Ltac note_kept f m w Hm :=
  try (let K := fresh "K" in
       assert (K : preserves (kept f) m) by (solve [eauto with frame]);
       specialize (K w); rewrite Hm in K; unfold kept in K; simpl in K).

Ltac no_fuel_case m w Hm :=
  try (exfalso;
       let T := fresh "T" in
       assert (T : terminates m) by (solve [eauto with term]);
       specialize (T w); rewrite Hm in T; by apply T).

Lemma succeeds_ret {A} (a : A) : succeeds (mret a).
Proof. intros w. by exists a. Qed.

Lemma succeeds_update f : succeeds (update f).
Proof. intros w. by exists tt. Qed.

Lemma succeeds_get_world : succeeds get_world.
Proof. intros w. by exists w. Qed.

Lemma succeeds_read_array r : succeeds (read_array r).
Proof. intros w. by eexists. Qed.

Lemma succeeds_read_object r : succeeds (read_object r).
Proof. intros w. by eexists. Qed.

Lemma succeeds_alloc_array l : succeeds (alloc_array l).
Proof. intros w. by eexists. Qed.

Lemma succeeds_alloc_object c : succeeds (alloc_object c).
Proof. intros w. by eexists. Qed.

Lemma succeeds_addEvent E t d : succeeds (addEvent E t d).
Proof. apply succeeds_update. Qed.

Lemma succeeds_tracer_clear : succeeds tracer_clear.
Proof. apply succeeds_update. Qed.

Lemma succeeds_push r m : succeeds (push r m).
Proof. apply succeeds_update. Qed.

Create HintDb succeed.

#[global] Hint Resolve succeeds_ret succeeds_update succeeds_get_world succeeds_read_array
  succeeds_read_object succeeds_alloc_array succeeds_alloc_object succeeds_addEvent
  succeeds_tracer_clear succeeds_push : succeed.

Ltac no_raise_case m w Hm :=
  try (exfalso;
       let T := fresh "T" in
       assert (T : succeeds m) by (solve [eauto with succeed]);
       destruct (T w) as [? T']; rewrite Hm in T'; by simpl in T').

(** Case analysis on the first computation of a bind applied to a world. *)
Tactic Notation "mstep" "as" simple_intropattern(a) ident(w1) ident(Hm) :=
  match goal with
  | |- context [ (?m ≫= ?k) ?w ] =>
      destruct (m w) as [[a| |] w1] eqn:Hm;
      [ rewrite (bind_Done m k w _ _ Hm)
      | rewrite (bind_Raised m k w _ _ Hm); no_raise_case m w Hm
      | rewrite (bind_OutOfFuel m k w _ Hm); no_fuel_case m w Hm ];
      note_kept arrays m w Hm; note_kept objects m w Hm;
      note_kept requests m w Hm; note_kept invoked m w Hm;
      note_kept emitted m w Hm; note_kept tracer m w Hm
  end.
(* ===================================================================== *)
(** * What the primitives do *)
(* ===================================================================== *)

Lemma bind_ret {A B} (a : A) (k : A → M B) : (mret a ≫= k) = k a.
Proof. reflexivity. Qed.

Lemma bind_throw {A B} (e : Thrown) (k : A → M B) : (throw e ≫= k) = throw e.
Proof. reflexivity. Qed.

Lemma lift_inl {A} (a : A) : lift (inl a) = mret a.
Proof. reflexivity. Qed.

Lemma lift_inr {A} (e : Thrown) : @lift A (inr e) = throw e.
Proof. reflexivity. Qed.

Ltac msimpl := rewrite ?lift_inl, ?lift_inr, ?bind_ret, ?bind_throw.

Lemma alloc_array_inv l w r w' :
  alloc_array l w = (Done r, w') →
  arrays w !! r = None ∧ arrays w' = <[r := l]> (arrays w) ∧ objects w' = objects w.
Proof.
  unfold alloc_array. intros [= <- <-]. split_and!; try done.
  apply not_elem_of_dom, is_fresh.
Qed.

Lemma alloc_object_inv c w r w' :
  alloc_object c w = (Done r, w') →
  objects w !! r = None ∧ objects w' = <[r := c]> (objects w) ∧ arrays w' = arrays w.
Proof.
  unfold alloc_object. intros [= <- <-]. split_and!; try done.
  apply not_elem_of_dom, is_fresh.
Qed.

Lemma push_inv r m w u w' :
  push r m w = (Done u, w') →
  arrays w' = <[r := default [] (arrays w !! r) ++ [m]]> (arrays w) ∧ objects w' = objects w.
Proof. unfold push, update. by intros [= <- <-]. Qed.

Lemma read_array_inv r w l w' :
  read_array r w = (Done l, w') → l = default [] (arrays w !! r) ∧ w' = w.
Proof. unfold read_array. by intros [= <- <-]. Qed.

Lemma read_object_inv r w c w' :
  read_object r w = (Done c, w') → c = default ∅ (objects w !! r) ∧ w' = w.
Proof. unfold read_object. by intros [= <- <-]. Qed.

Lemma tracer_clear_inv w u w' :
  tracer_clear w = (Done u, w') → events (tracer w') = [].
Proof. unfold tracer_clear, update. by intros [= <- <-]. Qed.

Lemma addEvent_inv E t d w u w' :
  addEvent E t d w = (Done u, w') →
  events (tracer w') = events (tracer w)
  ∨ ∃ ts, events (tracer w') = events (tracer w) ++ [ {| ev_timestamp := ts; ev_type := t; ev_data := d |} ].
Proof.
  unfold addEvent, update. intros [= <- <-].
  destruct (enabled (tracer w)) eqn:He; simpl; [|by left].
  unfold Tracer_.addEvent. rewrite He. simpl. right. by eexists.
Qed.

Lemma addEvent_Done E t d w : ∃ w', addEvent E t d w = (Done tt, w').
Proof. by eexists. Qed.

Lemma getChatCompletion_unfold E a h c mo w :
  getChatCompletion E a h c mo w =
  match getInstructions a c with
  | inr e => (Raised e, w)
  | inl instructions =>
      let params := createParams a instructions (default [] (arrays w !! h)) mo false in
      (match createChatCompletion E (length (requests w)) params with
       | inl r => Done r
       | inr e => Raised e
       end, log_request params w)
  end.
Proof.
  unfold getChatCompletion, mbind, M_bind, bind, lift. simpl.
  destruct (getInstructions a c); simpl; [|done].
  by destruct (createChatCompletion _ _ _).
Qed.

Lemma getChatCompletion_requests E a h c mo w r w' :
  getChatCompletion E a h c mo w = (r, w') →
  match r with
  | Done _ => ∃ rq, requests w' = requests w ++ [rq]
  | Raised _ => requests w' = requests w ∨ ∃ rq, requests w' = requests w ++ [rq]
  | OutOfFuel => False
  end.
Proof.
  rewrite getChatCompletion_unfold.
  destruct (getInstructions a c) as [i|e]; simpl.
  - destruct (createChatCompletion _ _ _); intros [= <- <-]; simpl; eauto.
  - intros [= <- <-]. by left.
Qed.

Lemma invoke_inv E func name c vals w r w' :
  invoke E func name c vals w = (r, w') →
  match func with
  | SlotFunction call =>
      w' = log_invocation name (call c vals) w
      ∧ r = match call c vals with Returns x => Done x | Throws e => Raised e end
  | _ => w' = w ∧ r = Raised (TypeError E NotAFunction)
  end.
Proof.
  unfold invoke. destruct func as [call| |]; try by intros [= <- <-].
  unfold mbind, M_bind, bind, update. simpl.
  destruct (call c vals); by intros [= <- <-].
Qed.

(* ===================================================================== *)
(** * Context variables merge in call order *)
(* ===================================================================== *)




Lemma spread_empty_r (c : Ctx) : spread c ∅ = c.
Proof. unfold spread. by rewrite (left_id_L ∅ (∪)). Qed.

Lemma spread_empty_l (c : Ctx) : spread ∅ c = c.
Proof. unfold spread. by rewrite (right_id_L ∅ (∪)). Qed.


Lemma merge_all_untouched c ds k :
  Forall (λ d', d' !! k = None) ds → merge_all c ds !! k = c !! k.
Proof.
  intros H. revert c. induction H as [|d ds Hd _ IH]; intros c; simpl; [done|].
  rewrite IH. unfold spread. by rewrite lookup_union_r.
Qed.









(* ===================================================================== *)
(** * Input validation *)
(* ===================================================================== *)

Lemma validate_message_pass E a m w :
  (msg_role m = user → truthy_str (msg_content m) = true →
   ∃ vr, validateInput E a (default "" (msg_content m)) = inl vr ∧ valid vr = true) →
  ∃ w', validate_message E a m w = (Done tt, w').
Proof.
  intros Hm. unfold validate_message.
  destruct (bool_decide (msg_role m = user)) eqn:Hrole; simpl; [|by eexists].
  apply bool_decide_eq_true in Hrole.
  destruct (truthy_str (msg_content m)) eqn:Htruthy; simpl; [|by eexists].
  destruct (Hm Hrole eq_refl) as (vr & Hv & Hvalid).
  rewrite Hv. unfold mbind, M_bind, bind, lift, mret, M_ret, ret. simpl. rewrite Hvalid.
  by eexists.
Qed.

Lemma validate_messages_pass E a msgs w :
  inputs_pass E a msgs → ∃ w', validate_messages E a msgs w = (Done tt, w').
Proof.
  intros H. revert w. induction H as [|m msgs Hm _ IH]; intros w; simpl; [by eexists|].
  destruct (validate_message_pass E a m w Hm) as [w1 H1].
  rewrite (bind_Done _ _ _ _ _ H1). apply IH.
Qed.

#[global] Instance only_guardrail_checks_preorder : PreOrder only_guardrail_checks.
Proof.
  split.
  - intros w. exists []. by rewrite app_nil_r.
  - intros w1 w2 w3 (c1 & H1 & F1) (c2 & H2 & F2). exists (c1 ++ c2).
    split; [rewrite H2, H1; by rewrite app_assoc | by apply Forall_app].
Qed.

Lemma addEvent_guardrail E d : preserves only_guardrail_checks (addEvent E guardrail_check d).
Proof.
  intros w. unfold addEvent, update. simpl.
  destruct (enabled (tracer w)) eqn:He; simpl; [|reflexivity].
  unfold Tracer_.addEvent. rewrite He. simpl.
  eexists. split; [done|]. by repeat constructor.
Qed.

Lemma validate_messages_guardrail E a msgs :
  preserves only_guardrail_checks (validate_messages E a msgs).
Proof.
  pose proof (addEvent_guardrail E) as Ha.
  induction msgs as [|m msgs IH]; simpl; [frame|].
  apply preserves_bind; [apply _ | | done].
  unfold validate_message. frame.
Qed.

Lemma validate_messages_reject E a msgs w :
  input_rejected E a msgs → ∃ e w', validate_messages E a msgs w = (Raised e, w').
Proof.
  intros H. revert w. induction H as [m msgs (Hrole & Htruthy & vr & Hv & Hvalid)|m msgs _ IH];
    intros w; simpl.
  - unfold validate_message.
    rewrite bool_decide_eq_true_2 by done. rewrite Htruthy. simpl.
    rewrite Hv. unfold mbind, M_bind, bind, lift, mret, M_ret, ret. simpl. rewrite Hvalid.
    simpl. by eexists _, _.
  - mstep as [] w1 H1; [apply IH | by eexists _, _].
Qed.

Lemma run_iteration_rejected E et mo st w :
  input_rejected E (agents E (currentAgent st)) (default [] (arrays w !! currentMessages st)) →
  ∃ e w', run_iteration E et mo st w = (Raised e, w')
          ∧ requests w' = requests w ∧ only_guardrail_checks w w'.
Proof.
  intros Hrej. unfold run_iteration.
  mstep as history w1 H1. apply read_array_inv in H1 as [-> ->].
  destruct (validate_messages_reject E _ _ w Hrej) as (e & w2 & Hval).
  pose proof (validate_messages_guardrail E (agents E (currentAgent st))
                (default [] (arrays w !! currentMessages st)) w) as Hg.
  pose proof (validate_messages_kept requests E (agents E (currentAgent st))
                (default [] (arrays w !! currentMessages st)) ltac:(done) w) as Hk.
  rewrite Hval in Hg, Hk. simpl in Hg, Hk.
  rewrite (bind_Raised _ _ _ _ _ Hval). by exists e, w2.
Qed.

Lemma validate_output_returns E a c vr w :
  validateOutput E a (default "" c) = inl vr →
  ∃ failures w', validate_output E a c w = (Done failures, w').
Proof.
  intros Hv. unfold validate_output. destruct (truthy_str c); [|by eexists _, _].
  rewrite Hv. unfold mbind, M_bind, bind, lift, mret, M_ret, ret. simpl.
  destruct (valid vr); simpl; by eexists _, _.
Qed.

(** C4, for the first pass of the loop: when the input rules of the
    starting executor reject the messages the run is given, the run throws
    without having sent a request to the backend, and the trace holds no
    [model_call] event. *)
Theorem input_rejected_before_first_call E fuel agent messages context_variables
    max_turns execute_tools model_override w :
  below 0 max_turns = true →
  input_rejected E (agents E agent) (default [] (arrays w !! messages)) →
  let '(r, w') := run E (S fuel) agent messages context_variables max_turns execute_tools
                      model_override w in
  (∃ e, r = Raised e)
  ∧ requests w' = requests w
  ∧ Forall (λ ev, ev_type ev ≠ model_call) (events (tracer w')).
Proof.
  intros Hbelow Hrej. unfold run.
  mstep as [] w1 H1. apply tracer_clear_inv in H1.
  mstep as input w2 H2. apply read_array_inv in H2 as [-> ->].
  mstep as cur w3 H3. apply alloc_array_inv in H3 as (_ & Harr & _).
  mstep as context w4 H4.
  mstep as ctxc w5 H5.
  assert (Hr5 : requests w5 = requests w) by congruence.
  assert (He5 : events (tracer w5) = []) by congruence.
  mstep as instr w6 H6.
  2:{ split; [by eexists|]. split; [congruence|].
      assert (events (tracer w6) = []) as -> by congruence. constructor. }
  mstep as [] w7 H7. apply addEvent_inv in H7.
  assert (Hr7 : requests w7 = requests w) by congruence.
  assert (He7 : Forall (λ ev, ev_type ev ≠ model_call) (events (tracer w7))).
  { assert (events (tracer w6) = []) as He6 by congruence. rewrite He6 in H7.
    destruct H7 as [-> | [ts ->]]; by repeat constructor. }
  assert (Ha7 : arrays w7 !! cur = Some (default [] (arrays w !! messages))).
  { assert (arrays w7 = arrays w3) as -> by congruence.
    rewrite Harr, lookup_insert_eq. f_equal. f_equal. congruence. }
  set (st := {| currentAgent := agent; currentMessages := cur;
                currentContextVars := ctxc; turns := 0 |}).
  destruct (run_iteration_rejected E execute_tools model_override st w7)
    as (e & w8 & Hit & Hr8 & checks & Hev & Hchecks).
  { simpl. by rewrite Ha7. }
  assert (Hloop : run_loop E (S fuel) max_turns execute_tools model_override st w7
                  = (Raised e, w8)).
  { simpl. rewrite Hbelow. by rewrite (bind_Raised _ _ _ _ _ Hit). }
  rewrite (bind_Raised _ _ _ _ _ Hloop).
  split; [by eexists|]. split; [congruence|].
  rewrite Hev. apply Forall_app. split; [done|].
  eapply Forall_impl; [exact Hchecks|]. by intros ev ->.
Qed.

(** C2, as the code has it: when the backend answers "Hello" without tool
    calls, the run returns after one request with the caller's messages
    followed by the assistant message "Hello", under the starting
    executor; the system message is the head of the request that was
    sent, not of the list that is returned. *)
Theorem plain_reply_run E fuel agent messages context_variables max_turns execute_tools
    model_override w instructions vr :
  let a := agents E agent in
  let input := default [] (arrays w !! messages) in
  let context := default ∅ (objects w !! context_variables) in
  let request := createParams a instructions input model_override false in
  below 0 max_turns = true →
  getInstructions a context = inl instructions →
  inputs_pass E a input →
  createChatCompletion E (length (requests w)) request = inl (plain_reply "Hello") →
  validateOutput E a "Hello" = inl vr →
  ∃ resp w',
    run E (S fuel) agent messages context_variables max_turns execute_tools model_override w
      = (Done resp, w')
    ∧ arrays w' !! rs_messages resp = Some (input ++ [assistant_message (Some "Hello") None])
    ∧ rs_agent resp = agent
    ∧ requests w' = requests w ++ [request]
    ∧ rq_messages request = system_message instructions :: input.
Proof.
  intros a input context request Hbelow Hinstr Hpass Hreply Hout.
  subst a input context request. unfold run.
  mstep as [] w1 H1.
  mstep as input' w2 H2. apply read_array_inv in H2 as [-> ->].
  mstep as cur w3 H3. apply alloc_array_inv in H3 as (_ & Harr & _).
  mstep as context' w4 H4. apply read_object_inv in H4 as [-> ->].
  mstep as ctxc w5 H5. apply alloc_object_inv in H5 as (_ & Hobj & _).
  assert (Ha1 : arrays w1 = arrays w) by congruence.
  assert (Ho3 : objects w3 = objects w) by congruence.
  rewrite Ha1 in Harr. rewrite Ho3 in *.
  rewrite Hinstr. simpl. unfold mbind at 1, M_bind at 1, bind at 1. simpl.
  mstep as [] w7 H7.
  assert (Ha7 : arrays w7 !! cur = Some (default [] (arrays w !! messages))).
  { assert (arrays w7 = arrays w3) as -> by congruence. by rewrite Harr, lookup_insert_eq. }
  assert (Ho7 : objects w7 !! ctxc = Some (default ∅ (objects w !! context_variables))).
  { assert (objects w7 = objects w5) as -> by congruence. by rewrite Hobj, lookup_insert_eq. }
  assert (Hr7 : requests w7 = requests w) by congruence.
  clear Harr Hobj.
  set (st := {| currentAgent := agent; currentMessages := cur;
                currentContextVars := ctxc; turns := 0 |}).
  assert (Hit : ∃ w8, run_iteration E execute_tools model_override st w7 = (Done (Break, st), w8)
     ∧ arrays w8 !! cur = Some (default [] (arrays w !! messages)
                                ++ [assistant_message (Some "Hello") None])
     ∧ requests w8 = requests w ++ [createParams (agents E agent) instructions
                       (default [] (arrays w !! messages)) model_override false]).
  { unfold run_iteration.
    mstep as history wa Ha. apply read_array_inv in Ha as [-> ->]. simpl. rewrite Ha7. simpl.
    destruct (validate_messages_pass E _ _ w7 Hpass) as [w8 H8].
    rewrite (bind_Done _ _ _ _ _ H8).
    pose proof (validate_messages_kept arrays E (agents E agent)
                  (default [] (arrays w !! messages)) ltac:(done) w7) as Ka.
    pose proof (validate_messages_kept objects E (agents E agent)
                  (default [] (arrays w !! messages)) ltac:(done) w7) as Ko.
    pose proof (validate_messages_kept requests E (agents E agent)
                  (default [] (arrays w !! messages)) ltac:(done) w7) as Kr.
    rewrite H8 in Ka, Ko, Kr. unfold kept in Ka, Ko, Kr. simpl in Ka, Ko, Kr.
    mstep as [] w9 H9.
    mstep as context' w10 H10. apply read_object_inv in H10 as [-> ->].
    assert (objects w9 = objects w7) as -> by congruence. rewrite Ho7.
    cbn [default from_option id].
    assert (arrays w9 !! cur = Some (default [] (arrays w !! messages))) as Ha9 by congruence.
    assert (requests w9 = requests w) as Hr9 by congruence.
    assert (Hget : getChatCompletion E (agents E agent) cur
                     (default ∅ (objects w !! context_variables)) model_override w9
                   = (Done (plain_reply "Hello"),
                      log_request (createParams (agents E agent) instructions
                        (default [] (arrays w !! messages)) model_override false) w9)).
    { rewrite getChatCompletion_unfold, Hinstr, Ha9, Hr9. simpl. by rewrite Hreply. }
    rewrite (bind_Done _ _ _ _ _ Hget).
    set (w11 := log_request _ w9).
    cbn [plain_reply cp_content cp_tool_calls].
    destruct (validate_output_returns E (agents E agent) (Some "Hello") vr w11 Hout)
      as (failures & w12 & H12).
    rewrite (bind_Done _ _ _ _ _ H12).
    pose proof (validate_output_kept arrays E (agents E agent) (Some "Hello") ltac:(done) w11) as Ka'.
    pose proof (validate_output_kept requests E (agents E agent) (Some "Hello") ltac:(done) w11) as Kr'.
    rewrite H12 in Ka', Kr'. unfold kept in Ka', Kr'. simpl in Ka', Kr'.
    mstep as [] w13 H13.
    assert (Hr13 : requests w13 = requests w12) by congruence.
    apply push_inv in H13 as [Hpush _].
    simpl. eexists. split; [done|]. split.
    - rewrite Hpush, lookup_insert_eq, Ka'. subst w11. simpl. by rewrite Ha9.
    - rewrite Hr13, Kr'. subst w11. simpl. by rewrite Hr9. }
  destruct Hit as (w8 & Hit & Ha8 & Hr8).
  assert (Hloop : run_loop E (S fuel) max_turns execute_tools model_override st w7
                  = (Done st, w8)).
  { simpl. rewrite Hbelow. by rewrite (bind_Done _ _ _ _ _ Hit). }
  rewrite (bind_Done _ _ _ _ _ Hloop).
  mstep as [] w9 H9.
  mstep as wf w10 H10. simpl.
  eexists _, _. split; [done|]. simpl.
  split; [congruence|]. split; [done|]. split; [congruence|]. done.
Qed.
(* ===================================================================== *)
(** * Runs that do not execute tools *)
(* ===================================================================== *)

Lemma run_iteration_no_tools E mo st w :
  let '(r, w') := run_iteration E false mo st w in
  invoked w' = invoked w ∧
  match r with
  | Done (next, st') => next = Break ∧ st' = st ∧ ∃ rq, requests w' = requests w ++ [rq]
  | Raised _ => requests w' = requests w ∨ ∃ rq, requests w' = requests w ++ [rq]
  | OutOfFuel => False
  end.
Proof.
  unfold run_iteration.
  mstep as history w1 H1.
  mstep as [] w2 H2; [| split; [congruence | left; congruence] ].
  mstep as [] w3 H3.
  mstep as context w4 H4.
  assert (Hrq : requests w4 = requests w) by congruence.
  assert (Hinv : invoked w4 = invoked w) by congruence.
  mstep as responseMessage w5 H5;
    apply getChatCompletion_requests in H5; rewrite Hrq in H5.
  2:{ split; [congruence | done]. }
  destruct H5 as [rq H5].
  mstep as ? w6 H6; [| split; [congruence | right; exists rq; congruence ] ].
  mstep as [] w7 H7.
  assert (requests w7 = requests w ++ [rq]) by congruence.
  assert (invoked w7 = invoked w) by congruence.
  destruct (cp_tool_calls responseMessage) as [[|]|]; simpl; eauto 10.
Qed.

Lemma run_loop_no_tools E fuel mt mo st w :
  let '(r, w') := run_loop E (S fuel) mt false mo st w in
  invoked w' = invoked w ∧
  match r with
  | Done st' =>
      st' = st ∧
      if below (turns st) mt then ∃ rq, requests w' = requests w ++ [rq]
      else requests w' = requests w
  | Raised _ => requests w' = requests w ∨ ∃ rq, requests w' = requests w ++ [rq]
  | OutOfFuel => False
  end.
Proof.
  simpl. destruct (below (turns st) mt); [|done].
  pose proof (run_iteration_no_tools E mo st w) as Hit.
  unfold mbind, M_bind, bind.
  destruct (run_iteration E false mo st w) as [[[n st']|e|] w1]; simpl in *; try done.
  destruct Hit as (? & -> & -> & ?). done.
Qed.


(** C5, as the code has it: with [execute_tools = false] a run invokes
    no action and sends at most one request to the backend; it sends
    exactly one when [max_turns] is above zero and the run returns. *)
Theorem executeTools_false_at_most_one_call E fuel agent messages context_variables
    max_turns model_override w :
  let '(r, w') := run E (S fuel) agent messages context_variables max_turns false
                      model_override w in
  invoked w' = invoked w
  ∧ r ≠ OutOfFuel
  ∧ (∃ sent, requests w' = requests w ++ sent ∧ (length sent ≤ 1)%nat)
  ∧ (below 0 max_turns = true → (∃ resp, r = Done resp) →
     ∃ rq, requests w' = requests w ++ [rq]).
Proof.
  unfold run.
  mstep as [] w1 H1.
  mstep as input w2 H2.
  mstep as cur w3 H3.
  mstep as context w4 H4.
  mstep as ctxc w5 H5.
  assert (Hi : invoked w5 = invoked w) by congruence.
  assert (Hr : requests w5 = requests w) by congruence.
  mstep as instr w6 H6.
  2:{ split; [congruence|]. split; [done|]. split.
      - exists nil. rewrite app_nil_r. split; [congruence | simpl; lia].
      - by intros _ [? ?]. }
  mstep as [] w7 H7.
  pose proof (run_loop_no_tools E fuel max_turns model_override
    {| currentAgent := agent; currentMessages := cur; currentContextVars := ctxc; turns := 0 |} w7) as HL.
  assert (Hi7 : invoked w7 = invoked w) by congruence.
  assert (Hr7 : requests w7 = requests w) by congruence.
  rewrite Hi7, Hr7 in HL.
  mstep as st w8 H8; destruct HL as [HL1 HL2].
  - destruct HL2 as [-> HL2]. simpl in HL2.
    mstep as [] w9 H9.
    mstep as wf w10 H10. simpl.
    assert (Hr10 : requests w10 = requests w8) by congruence.
    split; [congruence|]. split; [done|]. split.
    + destruct (below 0 max_turns).
      * destruct HL2 as [rq HL2]. exists [rq]. split; [congruence | simpl; lia].
      * exists nil. rewrite app_nil_r. split; [congruence | simpl; lia].
    + intros Hb _. rewrite Hb in HL2. destruct HL2 as [rq HL2]. exists rq. congruence.
  - split; [congruence|]. split; [done|]. split.
    + destruct HL2 as [HL2 | [rq HL2]].
      * exists nil. rewrite app_nil_r. split; [congruence | simpl; lia].
      * exists [rq]. split; [congruence | simpl; lia].
    + by intros _ [? ?].
  - done.
Qed.
(* ===================================================================== *)
(** * The loop works on copies *)
(* ===================================================================== *)

Section copies.
Context (E : Env) (messages context_variables : loc)
        (input : list Message) (context : Ctx).
#[local] Abbreviation kept_in := (arguments_kept messages context_variables input context).
#[local] Abbreviation copy_in := (works_on_copy messages context_variables input context).

Lemma emit_all_heap (l : list Message) (w : World) :
  let w' := fold_left (λ w m, emit (tool_response m) w) l w in
  arrays w' = arrays w ∧ objects w' = objects w.
Proof.
  revert w. induction l as [|m l IH]; intros w; simpl; [done|].
  by destruct (IH (emit (tool_response m) w)) as [-> ->].
Qed.

Lemma tool_round_copy s st tcs w :
  copy_in st w →
  let '(r, w') := tool_round E s st tcs w in
  kept_in w' ∧ ∀ n st', r = Done (n, st') → copy_in st' w'.
Proof.
  intros ((Ha & Ho) & Hne & app & Hcur). unfold tool_round.
  mstep as c1 w1 H1.
  mstep as tr w2 H2.
  2:{ split; [split; congruence | done]. }
  mstep as history w3 H3.
  apply read_array_inv in H3 as [-> ->].
  assert (Ha2 : arrays w2 = arrays w) by congruence.
  assert (Ho2 : objects w2 = objects w) by congruence.
  mstep as cur' w4 H4.
  apply alloc_array_inv in H4 as (Hfresh & Harr & _).
  assert (Hcur' : cur' ≠ messages).
  { intros ->. rewrite Ha2 in Hfresh. congruence. }
  assert (Ha4 : arrays w4 !! messages = Some input).
  { rewrite Harr, lookup_insert_ne by done. congruence. }
  assert (Hc4 : arrays w4 !! cur' = Some (input ++ app ++ tr_messages tr)).
  { rewrite Harr, lookup_insert_eq. rewrite Ha2, Hcur. simpl. by rewrite app_assoc. }
  assert (Ho4 : objects w4 !! context_variables = Some context) by congruence.
  clear Harr Hfresh.
  set (yield := match s with Some _ => _ | None => _ end).
  assert (∃ w5, yield w4 = (Done tt, w5) ∧ arrays w5 = arrays w4 ∧ objects w5 = objects w4)
    as (w5 & H5 & Ha5 & Ho5).
  { subst yield. destruct s; [|by eexists].
    eexists. split; [reflexivity|]. apply emit_all_heap. }
  rewrite (bind_Done _ _ _ _ _ H5). clearbody yield.
  mstep as c2 w6 H6.
  mstep as ctx' w7 H7.
  apply alloc_object_inv in H7 as (Hfresh & Hobj & Harr7).
  assert (Ho6 : objects w6 = objects w4) by congruence.
  assert (Ho7 : objects w7 !! context_variables = Some context).
  { rewrite Hobj, lookup_insert_ne; [congruence|]. intros ->. congruence. }
  assert (Ha7 : arrays w7 = arrays w4) by congruence.
  clear Hobj Hfresh.
  destruct (tr_agent tr) as [next|].
  - mstep as [] w8 H8.
    set (yield2 := match s with Some _ => _ | None => _ end).
    assert (∃ w9, yield2 w8 = (Done tt, w9) ∧ arrays w9 = arrays w8 ∧ objects w9 = objects w8)
      as (w9 & H9 & Ha9 & Ho9).
    { subst yield2. destruct s; eexists; (split; [reflexivity|done]). }
    rewrite (bind_Done _ _ _ _ _ H9). clearbody yield2.
    assert (Ha9' : arrays w9 = arrays w4) by congruence.
    simpl. split; [split; congruence|].
    intros n st' [= <- <-]. split; [split; congruence|]. simpl.
    split; [done|]. eexists. rewrite Ha9'. exact Hc4.
  - simpl. split; [split; congruence|].
    intros n st' [= <- <-]. split; [split; congruence|]. simpl.
    split; [done|]. eexists. rewrite Ha7. exact Hc4.
Qed.

Lemma push_copy st m w u w' :
  copy_in st w → push (currentMessages st) m w = (Done u, w') → copy_in st w'.
Proof.
  intros ((Ha & Ho) & Hne & app & Hcur) (Harr & Hobj)%push_inv.
  split; [split|split].
  - rewrite Harr, lookup_insert_ne by done. done.
  - congruence.
  - done.
  - exists (app ++ [m]). rewrite Harr, lookup_insert_eq, Hcur. simpl. by rewrite app_assoc.
Qed.

Lemma copy_in_heap st w w' :
  arrays w' = arrays w → objects w' = objects w → copy_in st w → copy_in st w'.
Proof. intros Ha Ho. unfold works_on_copy, arguments_kept. by rewrite Ha, Ho. Qed.

Lemma copy_in_turns st w :
  copy_in st w → copy_in (bump st) w.
Proof. done. Qed.

Lemma run_iteration_copy et mo st w :
  copy_in st w →
  let '(r, w') := run_iteration E et mo st w in
  kept_in w' ∧ ∀ n st', r = Done (n, st') → copy_in st' w'.
Proof.
  intros Hc. pose proof Hc as (Hk & _). unfold run_iteration.
  assert (Hkeep : ∀ w', arrays w' = arrays w → objects w' = objects w → kept_in w').
  { intros w' Ha' Ho'. unfold arguments_kept. by rewrite Ha', Ho'. }
  mstep as history w1 H1.
  mstep as [] w2 H2; [| split; [apply Hkeep; congruence | done] ].
  mstep as [] w3 H3.
  mstep as context' w4 H4.
  mstep as responseMessage w5 H5; [| split; [apply Hkeep; congruence | done] ].
  mstep as failures w6 H6; [| split; [apply Hkeep; congruence | done] ].
  assert (Hc6 : copy_in st w6) by (eapply copy_in_heap; [| |exact Hc]; congruence).
  mstep as [] w7 H7.
  apply (push_copy _ _ _ _ _ Hc6) in H7 as Hc7.
  destruct (cp_tool_calls responseMessage) as [[|tc tcs]|]; simpl.
  1,3: by (split; [apply Hc7 | intros n st' [= <- <-]]).
  destruct et; simpl.
  - apply (tool_round_copy None (bump st)). by apply copy_in_turns.
  - split; [apply Hc7 | by intros n st' [= <- <-]].
Qed.

Lemma run_loop_copy fuel mt et mo st w :
  copy_in st w →
  let '(r, w') := run_loop E fuel mt et mo st w in
  kept_in w' ∧ ∀ st', r = Done st' → copy_in st' w'.
Proof.
  revert st w. induction fuel as [|fuel IH]; intros st w Hc; simpl.
  - destruct (below _ _); simpl; (split; [apply Hc | by intros st' [= <-]]).
  - destruct (below _ _); simpl; [| split; [apply Hc | by intros st' [= <-]] ].
    pose proof (run_iteration_copy et mo st w Hc) as Hit.
    unfold mbind, M_bind, bind.
    destruct (run_iteration E et mo st w) as [[[n st1]|e|] w1]; simpl in *;
      try (split; [apply Hit | done]).
    destruct Hit as [_ Hit]. specialize (Hit _ _ eq_refl).
    destruct n; [by apply IH|].
    split; [apply Hit | by intros st' [= <-]].
Qed.
End copies.

(** C10: a run leaves the caller's message array and context object as
    they were; the array it returns is another one, and its contents start
    with the caller's messages. *)
Theorem run_works_on_copies E fuel agent messages context_variables max_turns execute_tools
    model_override w input context :
  arrays w !! messages = Some input →
  objects w !! context_variables = Some context →
  let '(r, w') := run E fuel agent messages context_variables max_turns execute_tools
                      model_override w in
  arrays w' !! messages = Some input
  ∧ objects w' !! context_variables = Some context
  ∧ ∀ resp, r = Done resp →
      rs_messages resp ≠ messages
      ∧ ∃ appended, arrays w' !! rs_messages resp = Some (input ++ appended).
Proof.
  intros Ha Ho. unfold run.
  mstep as [] w1 H1.
  mstep as input' w2 H2.
  apply read_array_inv in H2 as [-> ->].
  mstep as cur w3 H3.
  apply alloc_array_inv in H3 as (Hfresh & Harr & Hobj).
  mstep as context' w4 H4.
  apply read_object_inv in H4 as [-> ->].
  mstep as ctxc w5 H5.
  apply alloc_object_inv in H5 as (Hfresh' & Hobj' & Harr').
  assert (Ha1 : arrays w1 = arrays w) by congruence.
  assert (Ho3 : objects w3 = objects w) by congruence.
  rewrite Ha1 in Hfresh, Harr. rewrite Ha in Harr. rewrite Ho3 in Hfresh', Hobj'.
  rewrite Ho in Hobj'. simpl in *.
  assert (Hcur : cur ≠ messages) by (intros ->; congruence).
  assert (Hctx : ctxc ≠ context_variables) by (intros ->; congruence).
  assert (Hc : works_on_copy messages context_variables input context
            {| currentAgent := agent; currentMessages := cur;
               currentContextVars := ctxc; turns := 0 |} w5).
  { split; [split|split]; simpl.
    - rewrite Harr', Harr, lookup_insert_ne by done. done.
    - rewrite Hobj', lookup_insert_ne by done. congruence.
    - done.
    - exists []. rewrite Harr', Harr, lookup_insert_eq, app_nil_r. done. }
  assert (Hk5 : arguments_kept messages context_variables input context w5) by apply Hc.
  assert (Hkeep : ∀ w', arrays w' = arrays w5 → objects w' = objects w5 →
                        arrays w' !! messages = Some input
                        ∧ objects w' !! context_variables = Some context).
  { intros w' -> ->. apply Hk5. }
  mstep as instr w6 H6.
  2:{ destruct (Hkeep w6) as [? ?]; [congruence..|]. done. }
  mstep as [] w7 H7.
  assert (Hc7 : works_on_copy messages context_variables input context
            {| currentAgent := agent; currentMessages := cur;
               currentContextVars := ctxc; turns := 0 |} w7).
  { eapply copy_in_heap; [| |exact Hc]; congruence. }
  pose proof (run_loop_copy E messages context_variables input context fuel max_turns
                execute_tools model_override _ _ Hc7) as HL.
  mstep as st w8 H8; destruct HL as [[HLa HLo] HL]; [|done..].
  destruct (HL _ eq_refl) as (_ & Hne & app & Happ).
  mstep as [] w9 H9.
  mstep as wf w10 H10. simpl.
  assert (Ha10 : arrays w10 = arrays w8) by congruence.
  assert (Ho10 : objects w10 = objects w8) by congruence.
  rewrite Ha10, Ho10. split; [done|]. split; [done|].
  intros resp [= <-]. simpl. eauto.
Qed.
(* ===================================================================== *)
(** * Outcomes of one dispatched call *)
(* ===================================================================== *)

Lemma recover_reports E r tc e s w :
  error_text E e = inl s →
  ∃ w', recover E r tc e w = (Done (with_message r (failure_message tc s)), w').
Proof.
  intros He. unfold recover. rewrite He. msimpl.
  destruct (addEvent_Done E function_return
    (JObj [("name", JStr (tc_name tc)); ("error", JStr s)]) w) as [w1 H1].
  rewrite (bind_Done _ _ _ _ _ H1). by eexists.
Qed.

Lemma recover_escapes E r tc e e' w :
  error_text E e = inr e' → recover E r tc e w = (Raised e', w).
Proof. intros He. unfold recover. by rewrite He. Qed.

Lemma dispatch_function E fm c r tc w f :
  tc_type tc = "function" →
  fm !! tc_name tc = Some f →
  ∃ w1, invoked w1 = invoked w ∧
    dispatch E fm c r tc w
    = try_catch (attempt E (SlotFunction (fn_call f)) c r tc) (recover E r tc) w1.
Proof.
  intros Ht Hf. unfold dispatch, functionMap_get. rewrite Ht, Hf. simpl.
  destruct (addEvent_Done E function_call
    (JObj [("name", JStr (tc_name tc)); ("arguments", JStr (tc_arguments tc))]) w) as [w1 H1].
  exists w1. split.
  - pose proof (addEvent_kept invoked E function_call
      (JObj [("name", JStr (tc_name tc)); ("arguments", JStr (tc_arguments tc))])
      ltac:(done) w) as K.
    by rewrite H1 in K.
  - by rewrite (bind_Done _ _ _ _ _ H1).
Qed.

(** A value that cannot be converted to a string is reported, not thrown. *)
Lemma attempt_unconvertible E call c r tc w parsedArgs values v :
  JSON_parse E (tc_arguments tc) = inl parsedArgs →
  Object_values E parsedArgs = inl values →
  call c values = Returns (RetValue v) →
  js_String v = None →
  ∃ w', attempt E (SlotFunction call) c r tc w
        = (Raised (TypeError E CannotConvertToPrimitive), w').
Proof.
  intros Hp Hv Hc Hs. unfold attempt. rewrite Hp. msimpl. rewrite Hv. msimpl.
  unfold invoke. rewrite Hc.
  unfold mbind, M_bind, bind, update, mret, M_ret, ret. simpl.
  unfold String_. rewrite Hs. by eexists.
Qed.

Lemma attempt_throws E call c r tc w parsedArgs values e :
  JSON_parse E (tc_arguments tc) = inl parsedArgs →
  Object_values E parsedArgs = inl values →
  call c values = Throws e →
  ∃ w', attempt E (SlotFunction call) c r tc w = (Raised e, w')
        ∧ invoked w' = invoked w ++ [(tc_name tc, Throws e)].
Proof.
  intros Hp Hv Hc. unfold attempt. rewrite Hp. msimpl. rewrite Hv. msimpl.
  unfold invoke. rewrite Hc.
  unfold mbind, M_bind, bind, update, mret, M_ret, ret, throw. simpl. by eexists.
Qed.

(** C3, as the code has it: a plain value returned by an action that has
    no string form does not end the run; the failure of the conversion is
    caught where the action was dispatched, and becomes the tool message
    of that call. *)
Theorem unconvertible_result_reported E fm c r tc w f parsedArgs values v :
  tc_type tc = "function" →
  fm !! tc_name tc = Some f →
  JSON_parse E (tc_arguments tc) = inl parsedArgs →
  Object_values E parsedArgs = inl values →
  fn_call f c values = Returns (RetValue v) →
  js_String v = None →
  ∃ w', dispatch E fm c r tc w
        = (Done (with_message r
                   (failure_message tc (engine_message E CannotConvertToPrimitive))), w').
Proof.
  intros Ht Hf Hp Hv Hc Hs.
  destruct (dispatch_function E fm c r tc w f Ht Hf) as (w1 & _ & ->).
  destruct (attempt_unconvertible E (fn_call f) c r tc w1 _ _ _ Hp Hv Hc Hs) as [w2 H2].
  unfold try_catch. rewrite H2.
  by apply recover_reports.
Qed.

(** An action that throws: the error text goes into a tool message. *)
Lemma thrown_error_reported E fm c r tc w f parsedArgs values e s :
  tc_type tc = "function" →
  fm !! tc_name tc = Some f →
  JSON_parse E (tc_arguments tc) = inl parsedArgs →
  Object_values E parsedArgs = inl values →
  fn_call f c values = Throws e →
  error_text E e = inl s →
  ∃ w', dispatch E fm c r tc w = (Done (with_message r (failure_message tc s)), w').
Proof.
  intros Ht Hf Hp Hv Hc Hs.
  destruct (dispatch_function E fm c r tc w f Ht Hf) as (w1 & _ & ->).
  destruct (attempt_throws E (fn_call f) c r tc w1 _ _ _ Hp Hv Hc) as (w2 & H2 & _).
  unfold try_catch. rewrite H2.
  by apply recover_reports.
Qed.

(** ... unless the thrown value has no string form: then the [catch]
    block itself throws. *)
Lemma thrown_value_escapes E fm c r tc w f parsedArgs values e e' :
  tc_type tc = "function" →
  fm !! tc_name tc = Some f →
  JSON_parse E (tc_arguments tc) = inl parsedArgs →
  Object_values E parsedArgs = inl values →
  fn_call f c values = Throws e →
  error_text E e = inr e' →
  ∃ w', dispatch E fm c r tc w = (Raised e', w').
Proof.
  intros Ht Hf Hp Hv Hc Hs.
  destruct (dispatch_function E fm c r tc w f Ht Hf) as (w1 & _ & ->).
  destruct (attempt_throws E (fn_call f) c r tc w1 _ _ _ Hp Hv Hc) as (w2 & H2 & _).
  unfold try_catch. rewrite H2. rewrite (recover_escapes _ _ _ _ _ _ Hs). by eexists.
Qed.

(** A name that is neither registered nor inherited from [Object.prototype]. *)
Lemma unknown_name_not_found E fm c r tc w :
  tc_type tc = "function" →
  fm !! tc_name tc = None →
  Object_prototype_get E (tc_name tc) = SlotUndefined →
  ∃ w', dispatch E fm c r tc w = (Done (with_message r (not_found_message tc)), w')
        ∧ invoked w' = invoked w.
Proof.
  intros Ht Hf Hproto. unfold dispatch, functionMap_get. rewrite Ht, Hf, Hproto. simpl.
  mstep as [] w1 H1. unfold not_found.
  mstep as [] w2 H2. eexists. split; [done|]. congruence.
Qed.

(* ===================================================================== *)
(** * The turn counter *)
(* ===================================================================== *)

Lemma tool_round_turns E s st tcs w n st' w' :
  tool_round E s st tcs w = (Done (n, st'), w') → turns st' = turns st.
Proof.
  unfold tool_round. intros H. revert H.
  mstep as c1 w1 H1.
  mstep as tr w2 H2; [|done].
  mstep as history w3 H3.
  mstep as cur' w4 H4.
  mstep as [] w5 H5; [| by destruct s | by destruct s].
  mstep as c2 w6 H6.
  mstep as ctx' w7 H7.
  destruct (tr_agent tr).
  - mstep as [] w8 H8.
    mstep as [] w9 H9; [| by destruct s | by destruct s].
    by intros [= <- <- <-].
  - by intros [= <- <- <-].
Qed.

(** The batched loop counts a turn exactly when the reply leads to a
    tool-execution round. *)
Lemma run_iteration_turns E et mo st w n st' w' :
  run_iteration E et mo st w = (Done (n, st'), w') →
  ∃ rq reply,
    requests w' = requests w ++ [rq]
    ∧ createChatCompletion E (length (requests w)) rq = inl reply
    ∧ turns st' = if starts_tool_round et reply then S (turns st) else turns st.
Proof.
  unfold run_iteration. intros H. revert H.
  mstep as history w1 H1.
  mstep as [] w2 H2; [|done].
  mstep as [] w3 H3.
  mstep as context w4 H4.
  assert (Hr4 : requests w4 = requests w) by congruence.
  mstep as reply w5 H5; [|done].
  rewrite getChatCompletion_unfold in H5.
  destruct (getInstructions _ _) as [instr|]; [|done]. simpl in H5.
  destruct (createChatCompletion _ _ _) as [reply'|] eqn:Hreply; [|done].
  injection H5 as <- <-. rewrite Hr4 in Hreply.
  set (rq := createParams _ _ _ _ _) in *.
  mstep as failures w6 H6; [|done].
  mstep as [] w7 H7.
  assert (Hr7 : requests w7 = requests w4 ++ [rq]) by congruence.
  rewrite Hr4 in Hr7.
  unfold starts_tool_round.
  assert (Hstay : starts_tool_round et reply' = false →
    (Done (Break, st), w7) = (Done (n, st'), w') →
    ∃ rq reply, requests w' = requests w ++ [rq]
      ∧ createChatCompletion E (length (requests w)) rq = inl reply
      ∧ turns st' = if starts_tool_round et reply then S (turns st) else turns st).
  { intros Hno [= <- <- <-]. exists rq, reply'. by rewrite Hno. }
  unfold starts_tool_round in Hstay.
  destruct (cp_tool_calls reply') as [[|tc tcs]|] eqn:Htc; simpl;
    [by apply Hstay| |by apply Hstay].
  destruct et; [|by apply Hstay].
  intros H8.
  pose proof (tool_round_kept requests E None (bump st) (tc :: tcs)
                ltac:(done) ltac:(done) ltac:(done) ltac:(done) ltac:(done) w7) as Kreq.
  rewrite H8 in Kreq. unfold kept in Kreq. simpl in Kreq.
  apply tool_round_turns in H8. simpl in H8.
  exists rq, reply'. split; [congruence|]. split; [done|].
  unfold starts_tool_round. by rewrite Htc.
Qed.

(** The streaming loop counts a turn on every pass, tool round or not. *)
Lemma stream_iteration_turns E et mo initial st w n st' w' :
  stream_iteration E et mo initial st w = (Done (n, st'), w') →
  turns st' = S (turns st).
Proof.
  unfold stream_iteration. intros H. revert H.
  mstep as history w1 H1.
  mstep as [] w2 H2; [|done].
  mstep as [] w3 H3.
  unfold try_catch.
  match goal with |- context [ match ?body w3 with _ => _ end ] =>
    destruct (body w3) as [[[n1 st1]|e|] w4] eqn:Hbody end.
  - intros [= <- <- <-]. revert Hbody.
    mstep as [] w5 H5.
    mstep as context w6 H6.
    mstep as [chunks failure] w7 H7; [|done].
    mstep as [content tool_calls] w8 H8; [|done|done].
    mstep as [] w9 H9; [|done|done].
    mstep as [] w10 H10.
    mstep as [] w11 H11.
    mstep as failures w12 H12; [|done].
    mstep as [] w13 H13; [|done|done].
    destruct tool_calls as [|tc tcs]; [by intros [= <- <- <-]|].
    destruct et; [|by intros [= <- <- <-]].
    intros Ht. by apply tool_round_turns in Ht.
  - mstep as text w5 H5; [|done].
    mstep as [] w6 H6. by intros [= <- <- <-].
  - done.
Qed.
(* ===================================================================== *)
(** * The trace as JSON: export and re-parse *)
(* ===================================================================== *)

Lemma JsVal_nested_ind (P : JsVal → Prop) :
  P JUndefined → P JNull → (∀ b, P (JBool b)) → (∀ n, P (JNum n)) → (∀ s, P (JStr s)) →
  (∀ items, Forall P items → P (JArr items)) →
  (∀ props, Forall (λ p, P p.2) props → P (JObj props)) →
  ∀ v, P v.
Proof.
  intros Hu Hn Hb Hz Hs Ha Ho.
  fix IH 1. intros [| | b | n | s | items | props].
  - exact Hu.
  - exact Hn.
  - apply Hb.
  - apply Hz.
  - apply Hs.
  - apply Ha. induction items as [|x items IHl]; constructor; [apply IH | exact IHl].
  - apply Ho. induction props as [|[k x] props IHl]; constructor; [apply IH | exact IHl].
Qed.


Section json_round_trip.
Import JSON.

Lemma skip_ws_blank ws t : blank ws = true → skip_ws (ws ++ t) = skip_ws t.
Proof.
  unfold blank. induction ws as [|c ws IH]; simpl; [done|].
  intros [Hc Hws]%andb_prop. rewrite Hc. by apply IH.
Qed.

Lemma skip_ws_stop c t : is_ws c = false → skip_ws (c :: t) = c :: t.
Proof. simpl. by intros ->. Qed.

Lemma parse_value_skip ws fuel t :
  blank ws = true → parse_value fuel (ws ++ t) = parse_value fuel t.
Proof. intros Hws. destruct fuel; simpl; [done|]. by rewrite skip_ws_blank. Qed.

Lemma parse_members_skip ws fuel t :
  blank ws = true → parse_members fuel (ws ++ t) = parse_members fuel t.
Proof. intros Hws. destruct fuel; simpl; [done|]. by rewrite skip_ws_blank. Qed.

Lemma blank_app a b : blank a = true → blank b = true → blank (a ++ b) = true.
Proof. unfold blank. rewrite forallb_app. by intros -> ->. Qed.

Lemma blank_gap : blank gap = true.
Proof. reflexivity. Qed.

(** *** String literals *)

Lemma parse_chars_escape c t :
  parse_chars (escape c ++ t)
  = '(s, rest) ← parse_chars t; Some (String c s, rest).
Proof. destruct c as [[] [] [] [] [] [] [] []]; reflexivity. Qed.

Lemma parse_chars_quote s rest :
  parse_chars (quote_chars s ++ dquote :: rest) = Some (s, rest).
Proof.
  induction s as [|c s IH]; simpl; [done|].
  rewrite <- app_assoc, parse_chars_escape, IH. done.
Qed.

Lemma uint_chars d : forallb is_num_char (lit (NilEmpty.string_of_uint d)) = true.
Proof. induction d; simpl; try done; by rewrite IHd. Qed.

Lemma Z_to_string_chars n : forallb is_num_char (lit (Z_to_string n)) = true.
Proof.
  unfold Z_to_string. destruct (Z.to_int n) as [d|d]; simpl.
  - destruct d; try done; apply (uint_chars (_ d)).
  - destruct d; try done; apply (uint_chars (_ d)).
Qed.

Lemma Z_to_string_head n :
  ∃ c r, lit (Z_to_string n) = c :: r ∧ is_num_char c = true.
Proof.
  pose proof (Z_to_string_chars n) as H.
  destruct (lit (Z_to_string n)) as [|c r] eqn:Hl.
  - exfalso. unfold Z_to_string in Hl.
    destruct (Z.to_int n) as [d|d]; [destruct d|]; discriminate.
  - exists c, r. simpl in H. apply andb_prop in H as [-> _]. done.
Qed.

Lemma Z_to_string_not_minus_zero n : Z_to_string n ≠ "-0".
Proof.
  unfold Z_to_string. destruct n as [|p|p]; simpl; [done| |].
  - pose proof (Z_to_string_chars (Z.pos p)) as H. unfold Z_to_string in H. simpl in H.
    intros Heq. pose proof (DecimalPos.Unsigned.to_uint_nonnil p) as Hn.
    destruct (Pos.to_uint p); try done; simpl in Heq; discriminate.
  - intros [= Heq]. pose proof (DecimalPos.Unsigned.to_uint_nonzero p) as Hz.
    pose proof (DecimalPos.Unsigned.to_uint_nonnil p) as Hn.
    destruct (Pos.to_uint p) as [|d| | | | | | | | |]; try done; simpl in Heq; try discriminate.
    destruct d; try discriminate. by apply Hz.
Qed.

Lemma span_num_token tok rest :
  forallb is_num_char tok = true → number_ends rest = true →
  span_num (tok ++ rest) = (tok, rest).
Proof.
  intros Htok Hrest. induction tok as [|c tok IH]; simpl.
  - destruct rest as [|c r]; [done|]. simpl in *.
    destruct (is_num_char c); [done|]. done.
  - simpl in Htok. apply andb_prop in Htok as [-> Htok]. by rewrite IH.
Qed.

Lemma parse_number_Z n rest :
  number_ends rest = true →
  parse_number (lit (Z_to_string n) ++ rest) = Some (n, rest).
Proof.
  intros Hrest. unfold parse_number.
  rewrite (span_num_token _ _ (Z_to_string_chars n) Hrest).
  unfold lit. rewrite String.string_of_list_ascii_of_string.
  assert (Hgo : match rest with
                | [] => Some ()
                | c :: _ => if (Ascii.eqb c "." || Ascii.eqb c "e" || Ascii.eqb c "E")%char
                            then None else Some ()
                end = Some ()).
  { destruct rest as [|c r]; [done|]. simpl in Hrest.
    destruct (is_num_char c), (Ascii.eqb c "."), (Ascii.eqb c "e"), (Ascii.eqb c "E");
      done. }
  rewrite Hgo. simpl.
  destruct (String.eqb_spec (Z_to_string n) "-0") as [Heq|_];
    [by apply Z_to_string_not_minus_zero in Heq|].
  unfold Z_to_string at 1. rewrite NilZero.isi.
  - rewrite DecimalZ.of_to. by rewrite String.eqb_refl.
  - destruct n; simpl; [done| |done]. intros [= H].
    by apply DecimalPos.Unsigned.to_uint_nonnil in H.
  - destruct n; simpl; [done|done|]. intros [= H].
    by apply DecimalPos.Unsigned.to_uint_nonnil in H.
Qed.

(** A value that starts with a digit or a minus sign is a number. *)
Lemma parse_value_number fuel c r :
  is_num_char c = true →
  parse_value (S fuel) (c :: r) = '(n, rest) ← parse_number (c :: r); Some (JNum n, rest).
Proof.
  intros Hc.
  destruct c as [[] [] [] [] [] [] [] []]; try discriminate Hc; reflexivity.
Qed.

Lemma serialize_arr sb items :
  serialize sb (JArr items)
  = Some (wrap "[" "]" sb (map (λ x, default (lit "null") (serialize (sb ++ gap) x)) items)).
Proof.
  reflexivity.
Qed.

Lemma serialize_obj sb props :
  serialize sb (JObj props)
  = Some (wrap "{" "}" sb
            (omap (λ p, (λ strP, quote p.1 ++ lit ": " ++ strP) <$> serialize (sb ++ gap) p.2)
                  props)).
Proof.
  simpl. do 2 f_equal. induction props as [|[k x] props IH]; simpl; [done|].
  rewrite IH. by destruct (serialize (sb ++ gap) x).
Qed.

Lemma num_char_opens c :
  is_num_char c = true → is_ws c = false ∧ c ≠ "]"%char ∧ c ≠ "}"%char.
Proof. destruct c as [[] [] [] [] [] [] [] []]; try discriminate; done. Qed.

(** The text of a value starts with a character that is neither blank
    nor a closing bracket. *)
Lemma serialize_head sb v t :
  serialize sb v = Some t →
  ∃ c r, t = c :: r ∧ is_ws c = false ∧ c ≠ "]"%char ∧ c ≠ "}"%char.
Proof.
  destruct v as [| | [] | n | s | items | props].
  - done.
  - intros [= <-]. by eexists _, _.
  - intros [= <-]. by eexists _, _.
  - intros [= <-]. by eexists _, _.
  - intros [= <-]. destruct (Z_to_string_head n) as (c & r & -> & Hc).
    exists c, r. split; [done|]. by apply num_char_opens.
  - intros [= <-]. by eexists _, _.
  - rewrite serialize_arr. intros [= <-]. unfold wrap.
    destruct (map _ items); by eexists _, _.
  - rewrite serialize_obj. intros [= <-]. unfold wrap.
    destruct (omap _ props); by eexists _, _.
Qed.

(** A line break and its indentation before a value. *)
Lemma parse_value_line indent fuel t :
  blank indent = true → parse_value fuel (newline :: indent ++ t) = parse_value fuel t.
Proof. intros Hin. by apply (parse_value_skip (newline :: indent)). Qed.

Lemma parse_value_space fuel t : parse_value fuel (" "%char :: t) = parse_value fuel t.
Proof. by apply (parse_value_skip [" "%char]). Qed.

Lemma parse_elements_S fuel t :
  parse_elements (S fuel) t
  = '(v, rest) ← parse_value fuel t;
    match skip_ws rest with
    | c :: r =>
        if Ascii.eqb c "," then '(vs, rest') ← parse_elements fuel r; Some (v :: vs, rest')
        else if Ascii.eqb c "]" then Some ([v], r)
        else None
    | [] => None
    end.
Proof. reflexivity. Qed.

Lemma parse_elements_join indent stepback items rest fuel :
  blank indent = true → blank stepback = true → items ≠ [] →
  Forall parses_back items →
  (sum_list_with (λ x, S (weight x)) items ≤ fuel)%nat →
  parse_elements fuel
    (newline :: indent
     ++ join ("," :: newline :: indent)%char
             (map (λ x, default (lit "null") (serialize indent x)) items)
     ++ newline :: stepback ++ "]"%char :: rest)
  = Some (items, rest).
Proof.
  intros Hin Hsb Hne Hall. revert fuel.
  induction Hall as [|x items Hx Hall IH]; [done|]. clear Hne.
  intros fuel Hfuel. simpl in Hfuel.
  destruct fuel as [|fuel]; [lia|].
  rewrite parse_elements_S.
  rewrite parse_value_line; [|exact Hin].
  destruct items as [|y items].
  - destruct (Hx indent (newline :: stepback ++ "]"%char :: rest) fuel Hin eq_refl
                ltac:(lia)) as (t & Ht & Hp).
    simpl. rewrite Ht. simpl. rewrite Hp. simpl.
    rewrite (skip_ws_blank stepback _ Hsb). done.
  - set (more := join _ (map _ (y :: items))) in *.
    destruct (Hx indent (("," :: newline :: indent)%char ++ more
                         ++ newline :: stepback ++ "]"%char :: rest) fuel Hin eq_refl
                ltac:(lia)) as (t & Ht & Hp).
    change (join ("," :: newline :: indent)%char (map _ (x :: y :: items)))
      with (default (lit "null") (serialize indent x)
            ++ ("," :: newline :: indent)%char ++ more).
    rewrite Ht. simpl default. rewrite <- !app_assoc. rewrite Hp. simpl.
    rewrite IH; [done|done|]. simpl in *. lia.
Qed.


Lemma parse_members_S fuel t :
  parse_members (S fuel) t
  = match skip_ws t with
    | q :: r =>
        if Ascii.eqb q dquote then
          '(k, rest) ← parse_chars r;
          match skip_ws rest with
          | colon :: r' =>
              if Ascii.eqb colon ":" then
                '(v, rest') ← parse_value fuel r';
                match skip_ws rest' with
                | c :: r'' =>
                    if Ascii.eqb c ","
                    then '(ms, rest'') ← parse_members fuel r''; Some ((k, v) :: ms, rest'')
                    else if Ascii.eqb c "}" then Some ([(k, v)], r'')
                    else None
                | [] => None
                end
              else None
          | [] => None
          end
        else None
    | [] => None
    end.
Proof. reflexivity. Qed.

(** The text of one member, as [serialize] lays it out. *)
Lemma member_text k strP more :
  (quote k ++ lit ": " ++ strP) ++ more
  = dquote :: quote_chars k ++ dquote :: ":"%char :: " "%char :: strP ++ more.
Proof. unfold quote. simpl. rewrite <- !app_assoc. done. Qed.

Lemma parse_members_join indent stepback props rest fuel :
  blank indent = true → blank stepback = true → props ≠ [] →
  Forall (λ p, parses_back p.2) props →
  (sum_list_with (λ p, S (weight p.2)) props ≤ fuel)%nat →
  parse_members fuel
    (newline :: indent
     ++ join ("," :: newline :: indent)%char
             (omap (λ p, (λ strP, quote p.1 ++ lit ": " ++ strP) <$> serialize indent p.2)
                   props)
     ++ newline :: stepback ++ "}"%char :: rest)
  = Some (props, rest).
Proof.
  intros Hin Hsb Hne Hall. revert fuel.
  induction Hall as [|[k x] props Hx Hall IH]; [done|]. clear Hne.
  intros fuel Hfuel. simpl in Hfuel, Hx.
  destruct fuel as [|fuel]; [lia|].
  rewrite parse_members_S.
  change (newline :: indent ++ ?t) with ((newline :: indent) ++ t).
  rewrite skip_ws_blank; [|exact Hin].
  destruct props as [|q props].
  - destruct (Hx indent (newline :: stepback ++ "}"%char :: rest) fuel Hin eq_refl
                ltac:(lia)) as (t & Ht & Hp).
    assert (Hjoin : join ("," :: newline :: indent)%char
              (omap (λ p, (λ strP, quote p.1 ++ lit ": " ++ strP) <$> serialize indent p.2)
                    [(k, x)])
            = quote k ++ lit ": " ++ t).
    { simpl. rewrite Ht. done. }
    rewrite Hjoin, member_text.
    rewrite skip_ws_stop; [|done]. rewrite Ascii.eqb_refl.
    rewrite parse_chars_quote. simpl mbind. cbv iota beta.
    rewrite parse_value_space. rewrite Hp. simpl.
    rewrite (skip_ws_blank stepback _ Hsb). done.
  - assert (Hq : ∃ tq, serialize indent q.2 = Some tq).
    { inversion Hall as [|? ? Hq' _]; subst.
      destruct (Hq' indent [] (weight q.2) Hin eq_refl ltac:(lia)) as (tq & ? & _).
      by exists tq. }
    destruct Hq as [tq Hq].
    set (more := join _ (omap _ (q :: props))) in *.
    destruct (Hx indent ("," :: newline :: indent ++ more
                         ++ newline :: stepback ++ "}" :: rest)%char fuel Hin eq_refl
                ltac:(lia)) as (t & Ht & Hp).
    assert (Hjoin : join ("," :: newline :: indent)%char
              (omap (λ p, (λ strP, quote p.1 ++ lit ": " ++ strP) <$> serialize indent p.2)
                    ((k, x) :: q :: props))
            = (quote k ++ lit ": " ++ t) ++ ("," :: newline :: indent)%char ++ more).
    { subst more. simpl. rewrite Ht, Hq. simpl. done. }
    rewrite Hjoin. rewrite <- (app_assoc (quote k ++ lit ": " ++ t)).
    rewrite member_text.
    rewrite skip_ws_stop; [|done]. rewrite Ascii.eqb_refl.
    rewrite parse_chars_quote. simpl mbind. cbv iota beta.
    rewrite parse_value_space.
    rewrite <- ?app_assoc. rewrite Hp. simpl.
    rewrite IH; [done|done|]. simpl in *. lia.
Qed.

(** Setting distinct keys one after the other on the empty object gives
    the properties in that order. *)
Lemma obj_set_fresh k v props : k ∉ props.*1 → obj_set k v props = props ++ [(k, v)].
Proof.
  induction props as [|[k' v'] props IH]; simpl; [done|].
  intros Hk. apply not_elem_of_cons in Hk as [Hne Hk].
  destruct (String.eqb_spec k k') as [->|_]; [done|]. by rewrite IH.
Qed.

Lemma fold_obj_set members acc :
  NoDup (acc ++ members).*1 →
  fold_left (λ acc '(k, v), obj_set k v acc) members acc = acc ++ members.
Proof.
  revert acc. induction members as [|[k v] members IH]; intros acc Hnd; simpl.
  - by rewrite app_nil_r.
  - rewrite obj_set_fresh.
    + rewrite IH; rewrite <- app_assoc; [done|exact Hnd].
    + rewrite fmap_app in Hnd. apply NoDup_app in Hnd as (_ & Hdis & _).
      intros Hin. apply (Hdis k Hin). simpl. left.
Qed.

Lemma forallb_true {A} (f : A → bool) l :
  forallb f l = true → Forall (λ x, f x = true) l.
Proof.
  induction l as [|x l IH]; simpl; [constructor|].
  intros [Hx Hl]%andb_prop. constructor; [done | by apply IH].
Qed.

Lemma join_head sep c t l : ∃ r, join sep ((c :: t) :: l) = c :: r.
Proof. destruct l; simpl; eauto. Qed.

Lemma skip_ws_join indent sep c t l tail :
  blank indent = true → is_ws c = false →
  ∃ r, skip_ws (newline :: indent ++ join sep ((c :: t) :: l) ++ tail) = c :: r.
Proof.
  intros Hin Hc. destruct (join_head sep c t l) as [r ->]. exists (r ++ tail).
  change (newline :: ?a ++ ?b) with ((newline :: a) ++ b).
  rewrite skip_ws_blank by done. by rewrite <- app_comm_cons, skip_ws_stop.
Qed.

Lemma parse_value_array fuel r c' r' :
  skip_ws r = c' :: r' → c' ≠ "]"%char →
  parse_value (S fuel) ("["%char :: r)
  = '(items, rest) ← parse_elements fuel r; Some (JArr items, rest).
Proof. intros H Hc. simpl. rewrite H. by destruct (Ascii.eqb_spec c' "]"). Qed.

Lemma parse_value_object fuel r c' r' :
  skip_ws r = c' :: r' → c' ≠ "}"%char →
  parse_value (S fuel) ("{"%char :: r)
  = '(members, rest) ← parse_members fuel r;
    Some (JObj (fold_left (λ acc '(k, v), obj_set k v acc) members []), rest).
Proof. intros H Hc. simpl. rewrite H. by destruct (Ascii.eqb_spec c' "}"). Qed.

(** The text of a clean value, followed by anything that cannot continue
    a number, parses back to the value and leaves what followed. *)
Lemma json_value_parses_back v : json_value v = true → parses_back v.
Proof.
  induction v as [| | b | n | s | items IH | props IH] using JsVal_nested_ind;
    intros Hv sb rest fuel Hsb Hrest Hfuel; simpl in Hv, Hfuel.
  - done.
  - destruct fuel; [lia|]. by eexists.
  - destruct fuel; [lia|]. destruct b; by eexists.
  - destruct fuel; [lia|]. eexists. split; [reflexivity|].
    destruct (Z_to_string_head n) as (c & r & Hl & Hc).
    rewrite Hl. rewrite <- app_comm_cons. rewrite parse_value_number by done.
    rewrite app_comm_cons, <- Hl, parse_number_Z by done. done.
  - destruct fuel; [lia|]. eexists. split; [reflexivity|].
    unfold quote. simpl. rewrite <- app_assoc. simpl. by rewrite parse_chars_quote.
  - destruct fuel as [|fuel]; [lia|]. rewrite serialize_arr. eexists. split; [reflexivity|].
    destruct items as [|x items]; [done|].
    assert (Hall : Forall parses_back (x :: items)).
    { apply forallb_true in Hv. rewrite Forall_forall in IH, Hv |- *.
      intros y Hy. apply IH; [done|]. by apply Hv. }
    set (texts := map _ (x :: items)).
    assert (Hhead : ∃ c' r', skip_ws (newline :: (sb ++ gap)
                       ++ join ("," :: newline :: sb ++ gap)%char texts
                       ++ newline :: sb ++ "]"%char :: rest) = c' :: r' ∧ c' ≠ "]"%char).
    { inversion Hall as [|? ? Hx _]; subst.
      destruct (Hx (sb ++ gap) [] (weight x)) as (t & Ht & _);
        [by apply blank_app|done|done|].
      destruct (serialize_head _ _ _ Ht) as (c' & r' & -> & Hws & Hc & _).
      assert (texts = (c' :: r')
                      :: map (λ x, default (lit "null") (serialize (sb ++ gap) x)) items)
        as -> by (subst texts; simpl; by rewrite Ht).
      destruct (skip_ws_join (sb ++ gap) ("," :: newline :: sb ++ gap)%char c' r'
                  (map (λ x, default (lit "null") (serialize (sb ++ gap) x)) items)
                  (newline :: sb ++ "]"%char :: rest)) as [r'' ->];
        [by apply blank_app|done|].
      by eexists _, _. }
    destruct Hhead as (c' & r' & Hskip & Hc).
    assert (Htext : wrap "[" "]" sb texts ++ rest
                    = "["%char :: newline :: (sb ++ gap)
                       ++ join ("," :: newline :: sb ++ gap)%char texts
                       ++ newline :: sb ++ "]"%char :: rest).
    { subst texts. simpl. rewrite <- !app_assoc. simpl. by rewrite <- !app_assoc. }
    rewrite Htext, (parse_value_array _ _ _ _ Hskip Hc).
    subst texts. rewrite parse_elements_join; try done.
    + by apply blank_app.
    + lia.
  - destruct fuel as [|fuel]; [lia|]. rewrite serialize_obj. eexists. split; [reflexivity|].
    apply andb_prop in Hv as [Hnd Hv]. apply bool_decide_eq_true in Hnd.
    destruct props as [|[k x] props]; [done|].
    assert (Hall : Forall (λ p, parses_back p.2) ((k, x) :: props)).
    { apply forallb_true in Hv. rewrite Forall_forall in IH, Hv |- *.
      intros y Hy. apply IH; [done|]. by apply Hv. }
    set (texts := omap _ ((k, x) :: props)).
    assert (Hhead : ∃ c' r', skip_ws (newline :: (sb ++ gap)
                       ++ join ("," :: newline :: sb ++ gap)%char texts
                       ++ newline :: sb ++ "}"%char :: rest) = c' :: r' ∧ c' ≠ "}"%char).
    { inversion Hall as [|? ? Hx _]; subst. simpl in Hx.
      destruct (Hx (sb ++ gap) [] (weight x)) as (t & Ht & _);
        [by apply blank_app|done|done|].
      assert (texts = (dquote :: (quote_chars k ++ [dquote]) ++ lit ": " ++ t)
                      :: omap (λ p, (λ strP, quote p.1 ++ lit ": " ++ strP)
                                      <$> serialize (sb ++ gap) p.2) props)
        as -> by (subst texts; simpl; by rewrite Ht).
      destruct (skip_ws_join (sb ++ gap) ("," :: newline :: sb ++ gap)%char dquote
                  ((quote_chars k ++ [dquote]) ++ lit ": " ++ t)
                  (omap (λ p, (λ strP, quote p.1 ++ lit ": " ++ strP)
                                <$> serialize (sb ++ gap) p.2) props)
                  (newline :: sb ++ "}"%char :: rest)) as [r'' ->];
        [by apply blank_app|done|].
      by eexists _, _. }
    destruct Hhead as (c' & r' & Hskip & Hc).
    assert (Htext : wrap "{" "}" sb texts ++ rest
                    = "{"%char :: newline :: (sb ++ gap)
                       ++ join ("," :: newline :: sb ++ gap)%char texts
                       ++ newline :: sb ++ "}"%char :: rest).
    { assert (texts ≠ []) as Hne.
      { inversion Hall as [|? ? Hx _]; subst. simpl in Hx.
        destruct (Hx (sb ++ gap) [] (weight x)) as (t & Ht & _);
          [by apply blank_app|done|done|].
        subst texts. simpl. by rewrite Ht. }
      unfold wrap. destruct texts; [done|].
      simpl. rewrite <- !app_assoc. simpl. by rewrite <- !app_assoc. }
    rewrite Htext, (parse_value_object _ _ _ _ Hskip Hc).
    subst texts. rewrite parse_members_join; try done.
    + change (Some (JObj (fold_left (λ acc '(k, v), obj_set k v acc) ((k, x) :: props) []),
                    rest) = Some (JObj ((k, x) :: props), rest)).
      by rewrite (fold_obj_set _ []).
    + by apply blank_app.
    + simpl in *. lia.
Qed.

Lemma length_join c sep (texts : list text) :
  (sum_list_with (λ t, S (length t)) texts ≤ S (length (join (c :: sep) texts)))%nat.
Proof.
  induction texts as [|t texts IH]; simpl; [lia|].
  destruct texts as [|t' texts]; [simpl; lia|].
  rewrite !length_app. simpl in *. rewrite !length_app. lia.
Qed.

Lemma length_wrap opening closing sb c sep (texts : list text) :
  (sum_list_with (λ t, S (length t)) texts
   < length (match texts with
             | [] => [opening; closing]
             | _ => opening :: newline :: (sb ++ gap) ++ join (c :: sep) texts
                    ++ newline :: sb ++ [closing]
             end))%nat.
Proof.
  pose proof (length_join c sep texts) as H.
  destruct texts as [|t texts]; [simpl; lia|].
  simpl length. rewrite !length_app. simpl length. rewrite !length_app. simpl in *. lia.
Qed.

Lemma weight_elements indent items :
  Forall (λ x, ∃ t, serialize indent x = Some t ∧ (weight x ≤ length t)%nat) items →
  (sum_list_with (λ x, S (weight x)) items
   ≤ sum_list_with (λ t, S (length t))
       (map (λ x, default (lit "null") (serialize indent x)) items))%nat.
Proof.
  induction 1 as [|x items (t & Ht & Hw) _ IH]; simpl in *; [lia|]. rewrite Ht. simpl. lia.
Qed.

Lemma weight_members indent props :
  Forall (λ p, ∃ t, serialize indent p.2 = Some t ∧ (weight p.2 ≤ length t)%nat) props →
  (sum_list_with (λ p, S (weight p.2)) props
   ≤ sum_list_with (λ t, S (length t))
       (omap (λ p, (λ strP, quote p.1 ++ lit ": " ++ strP) <$> serialize indent p.2)
             props))%nat.
Proof.
  induction 1 as [|[k x] props (t & Ht & Hw) _ IH]; simpl in *; [lia|].
  rewrite Ht. simpl. rewrite !length_app. simpl length.
  change (list_omap _ _ ?f ?l) with (omap f l). lia.
Qed.

(** The text of a clean value is at least as long as the value is heavy. *)
Lemma weight_le_length v :
  json_value v = true →
  ∀ sb, ∃ t, serialize sb v = Some t ∧ (weight v ≤ length t)%nat.
Proof.
  induction v as [| | b | n | s | items IH | props IH] using JsVal_nested_ind;
    intros Hv sb; simpl in Hv.
  - done.
  - eexists. split; [reflexivity|]. simpl. lia.
  - destruct b; eexists; (split; [reflexivity|]); simpl; lia.
  - eexists. split; [reflexivity|].
    destruct (Z_to_string_head n) as (c & r & -> & _). simpl. lia.
  - eexists. split; [reflexivity|]. simpl. lia.
  - rewrite serialize_arr. eexists. split; [reflexivity|].
    unfold wrap.
    pose proof (length_wrap "[" "]" sb "," (newline :: sb ++ gap)
                  (map (λ x, default (lit "null") (serialize (sb ++ gap) x)) items)) as Hw.
    pose proof (weight_elements (sb ++ gap) items) as Hsum.
    simpl weight. apply forallb_true in Hv.
    enough (sum_list_with (λ x, S (weight x)) items
            ≤ sum_list_with (λ t, S (length t))
                (map (λ x, default (lit "null") (serialize (sb ++ gap) x)) items))%nat by lia.
    apply Hsum. rewrite Forall_forall in IH, Hv |- *. intros x Hx. by apply IH, Hv.
  - rewrite serialize_obj. eexists. split; [reflexivity|].
    apply andb_prop in Hv as [_ Hv]. unfold wrap.
    pose proof (length_wrap "{" "}" sb "," (newline :: sb ++ gap)
                  (omap (λ p, (λ strP, quote p.1 ++ lit ": " ++ strP)
                                <$> serialize (sb ++ gap) p.2) props)) as Hw.
    pose proof (weight_members (sb ++ gap) props) as Hsum.
    simpl weight. apply forallb_true in Hv.
    enough (sum_list_with (λ p, S (weight p.2)) props
            ≤ sum_list_with (λ t, S (length t))
                (omap (λ p, (λ strP, quote p.1 ++ lit ": " ++ strP)
                              <$> serialize (sb ++ gap) p.2) props))%nat by lia.
    apply Hsum. rewrite Forall_forall in IH, Hv |- *. intros x Hx. by apply IH, Hv.
Qed.

(** [JSON.parse(JSON.stringify(v, null, 2))] is [v], for a clean [v]. *)
Lemma parse_stringify v :
  json_value v = true → ∃ s, stringify v = Some s ∧ parse s = Some v.
Proof.
  intros Hv. destruct (weight_le_length v Hv []) as (t & Ht & Hw).
  exists (String.string_of_list_ascii t). unfold stringify. rewrite Ht. split; [done|].
  unfold parse, lit. rewrite String.list_ascii_of_string_of_list_ascii.
  destruct (json_value_parses_back v Hv [] [] (2 * length t + 2)%nat) as (t' & Ht' & Hp);
    [done|done|lia|].
  rewrite Ht in Ht'. injection Ht' as <-. rewrite app_nil_r in Hp. by rewrite Hp.
Qed.

End json_round_trip.

(** C9, as the code has it: when the data of every recorded event is a
    JSON value (nothing [undefined] in it), exporting the trace and
    re-parsing the exported string gives the array of the recorded events:
    as many, and each with its timestamp, kind and data. *)
Theorem export_parse_round_trip (t : Tracer) :
  Forall (λ ev, json_value (ev_data ev) = true) (events t) →
  JSON.parse (Tracer_.exportToJson t) = Some (JArr (map Tracer_.event_to_js (events t))).
Proof.
  intros Hdata.
  assert (Hv : json_value (JArr (map Tracer_.event_to_js (events t))) = true).
  { simpl. induction Hdata as [|ev evs Hev _ IH]; simpl; [done|].
    rewrite Hev, IH. done. }
  destruct (parse_stringify _ Hv) as (s & Hs & Hp).
  unfold Tracer_.exportToJson. rewrite Hs. exact Hp.
Qed.
(* ===================================================================== *)
(** * Action dispatch: the calls it serves and the hand-overs it makes *)
(* ===================================================================== *)

Lemma functionMap_fold functions (acc : gmap string Callable) name :
  fold_left (λ functionMap func,
               match func with
               | FnCallable f => <[fn_name f := f]> functionMap
               | FnSchema _ => functionMap
               end) functions acc !! name
  = match last (filter (λ f, fn_name f = name) (callables functions)) with
    | Some f => Some f
    | None => acc !! name
    end.
Proof.
  revert acc. induction functions as [|[f|s] functions IH]; intros acc; simpl.
  - done.
  - rewrite IH. unfold callables. simpl. rewrite filter_cons.
    destruct (decide (fn_name f = name)) as [Heq|Hne].
    + rewrite last_cons.
      destruct (last (filter _ _)); [done|]. by rewrite <- Heq, lookup_insert_eq.
    + destruct (last (filter _ _)); [done|]. by rewrite lookup_insert_ne.
  - by rewrite IH.
Qed.

(** X1: of several functions with one name, the action map keeps the last. *)
Theorem functionMap_last_wins functions name :
  functionMap_build functions !! name
  = last (filter (λ f, fn_name f = name) (callables functions)).
Proof.
  unfold functionMap_build. rewrite functionMap_fold.
  by destruct (last _).
Qed.

Lemma handleFunctionResult_agent E funcResult name id result :
  handleFunctionResult E funcResult name id = inl result →
  hr_agent result = handover_of (Returns funcResult).
Proof.
  destruct funcResult as [r|a|v]; simpl.
  - by intros [= <-].
  - by intros [= <-].
  - destruct v; simpl; try (by intros [= <-]);
      destruct (String_ _ _); simpl; by intros [= <-].
Qed.

Lemma handleFunctionResult_message E funcResult tc result :
  handleFunctionResult E funcResult (tc_name tc) (tc_id tc) = inl result →
  match hr_message result with
  | Some m => answers tc m
  | None => ∃ a, funcResult = RetAgent a
  end.
Proof.
  destruct funcResult as [r|a|v]; simpl.
  - by intros [= <-].
  - intros [= <-]. by exists a.
  - destruct v; simpl; try (by intros [= <-]);
      destruct (String_ _ _); simpl; by intros [= <-].
Qed.

Lemma attempt_inv E func c r tc w res w' :
  attempt E func c r tc w = (res, w') →
  ∃ log, invoked w' = invoked w ++ log
    ∧ match res with
      | Done r' =>
          ∃ funcResult result,
            log = [(tc_name tc, Returns funcResult)]
            ∧ handleFunctionResult E funcResult (tc_name tc) (tc_id tc) = inl result
            ∧ r' = absorb r result
      | Raised e =>
          log = [] ∨ ∃ o, log = [(tc_name tc, o)] ∧ handover_of o = None
      | OutOfFuel => False
      end.
Proof.
  unfold attempt. intros H. revert H.
  mstep as parsedArgs w2 H2.
  2:{ intros [= <- <-]. exists []. rewrite app_nil_r. split; [congruence|by left]. }
  mstep as values w3 H3.
  2:{ intros [= <- <-]. exists []. rewrite app_nil_r. split; [congruence|by left]. }
  assert (Hi3 : invoked w3 = invoked w) by congruence.
  destruct (invoke E func (tc_name tc) c values w3) as [res4 w4] eqn:H4.
  apply invoke_inv in H4 as H4'.
  destruct func as [call| |]; simpl in H4'; destruct H4' as [-> ->].
  2,3: by (rewrite (bind_Raised _ _ _ _ _ H4); intros [= <- <-]; exists [];
           rewrite app_nil_r; split; [congruence|by left]).
  destruct (call c values) as [funcResult|e] eqn:Hcall.
  2:{ rewrite (bind_Raised _ _ _ _ _ H4). intros [= <- <-].
      exists [(tc_name tc, Throws e)]. simpl. rewrite Hi3. split; [done|].
      right. by eexists. }
  rewrite (bind_Done _ _ _ _ _ H4).
  set (w4 := log_invocation _ _ w3).
  assert (Hi4 : invoked w4 = invoked w ++ [(tc_name tc, Returns funcResult)]).
  { subst w4. simpl. by rewrite Hi3. }
  clearbody w4.
  mstep as serialized w5 H5.
  2:{ intros [= <- <-]. exists [(tc_name tc, Returns funcResult)].
      split; [congruence|]. right. eexists. split; [done|].
      by destruct funcResult as [?|?|v]; simpl in H5. }
  mstep as [] w6 H6.
  mstep as result w7 H7.
  - intros [= <- <-]. exists [(tc_name tc, Returns funcResult)]. split; [congruence|].
    exists funcResult, result. split; [done|]. split; [|done].
    destruct (handleFunctionResult E funcResult (tc_name tc) (tc_id tc));
      simpl in H7; unfold mret, M_ret, ret, throw in H7; by simplify_eq.
  - intros [= <- <-]. exists [(tc_name tc, Returns funcResult)]. split; [congruence|].
    right. eexists. split; [done|].
    by destruct funcResult as [?|?|v]; simpl in H7.
Qed.

Lemma recover_Done E r tc e w r' w' :
  recover E r tc e w = (Done r', w') →
  invoked w' = invoked w
  ∧ ∃ s, error_text E e = inl s ∧ r' = with_message r (failure_message tc s).
Proof.
  unfold recover. intros H. revert H.
  mstep as errorMessage w1 H1; [|done].
  mstep as [] w2 H2. simpl. intros [= <- <-]. split; [congruence|].
  exists errorMessage. split; [|done].
  destruct (error_text E e); simpl in H1; unfold mret, M_ret, ret, throw in H1;
    by simplify_eq.
Qed.

Lemma recover_invoked E r tc e w : invoked (recover E r tc e w).2 = invoked w.
Proof.
  unfold recover.
  destruct (error_text E e) as [s|e']; simpl; [|done].
  unfold mbind, M_bind, bind, addEvent, update. simpl.
  by destruct (enabled (tracer w)).
Qed.

(** One dispatched call: what it appends to the log of invocations, and
    the response it gives back when it completes. *)
Lemma dispatch_inv E fm c r tc w res w' :
  dispatch E fm c r tc w = (res, w') →
  ∃ log, invoked w' = invoked w ++ log
    ∧ ∀ r', res = Done r' →
        tr_agent r' = match last_handover log with
                      | Some a => Some a
                      | None => tr_agent r
                      end
        ∧ ∃ out, tr_messages r' = tr_messages r ++ out
                 ∧ (out = [] ∨ is_function_call tc = true ∧ ∃ m, out = [m] ∧ answers tc m).
Proof.
  unfold dispatch, is_function_call. destruct (String.eqb _ _); simpl.
  2:{ intros [= <- <-]. exists []. rewrite app_nil_r. split; [done|].
      intros r' [= <-]. split; [done|]. exists []. rewrite app_nil_r. split; [done|by left]. }
  mstep as [] w1 H1.
  assert (Hi1 : invoked w1 = invoked w) by congruence.
  assert (Htry : ∀ func,
    try_catch (attempt E func c r tc) (recover E r tc) w1 = (res, w') →
    ∃ log, invoked w' = invoked w ++ log
      ∧ ∀ r', res = Done r' →
          tr_agent r' = match last_handover log with
                        | Some a => Some a
                        | None => tr_agent r
                        end
          ∧ ∃ out, tr_messages r' = tr_messages r ++ out
                   ∧ (out = [] ∨ true = true ∧ ∃ m, out = [m] ∧ answers tc m)).
  { intros func. unfold try_catch.
    destruct (attempt E func c r tc w1) as [[r1|e|] w2] eqn:Ha;
      apply attempt_inv in Ha as (log & Hlog & Hres).
    - intros [= <- <-]. exists log. split; [congruence|]. intros r' [= <-].
      destruct Hres as (funcResult & result & -> & Hh & ->).
      assert (Hlast : last_handover [(tc_name tc, Returns funcResult)] = hr_agent result).
      { rewrite (handleFunctionResult_agent _ _ _ _ _ Hh). unfold last_handover.
        cbn [omap list_omap snd]. by destruct (handover_of _). }
      rewrite Hlast. simpl.
      split; [by destruct (hr_agent result)|].
      pose proof (handleFunctionResult_message _ _ _ _ Hh) as Hm.
      exists (option_list (hr_message result)). split; [done|].
      destruct (hr_message result) as [m|]; simpl; [|by left].
      right. split; [done|]. by exists m.
    - intros Hrec. exists log.
      pose proof (recover_invoked E r tc e w2) as Hi. rewrite Hrec in Hi. simpl in Hi.
      split; [congruence|]. intros r' ->.
      apply recover_Done in Hrec as (_ & s & _ & ->). simpl.
      split.
      + destruct Hres as [->|(o & -> & Ho)]; [done|].
        unfold last_handover. simpl. by rewrite Ho.
      + eexists. split; [done|]. right. split; [done|]. by eexists.
    - done. }
  destruct (functionMap_get E fm (tc_name tc)) as [call| |] eqn:Hslot.
  - apply Htry.
  - apply Htry.
  - unfold not_found. mstep as [] w2 H2. simpl. intros [= <- <-].
    exists []. rewrite app_nil_r. split; [congruence|]. intros r' [= <-]. simpl.
    split; [done|]. eexists. split; [done|]. right. split; [done|]. by eexists.
Qed.

Lemma last_handover_app l1 l2 :
  last_handover (l1 ++ l2)
  = match last_handover l2 with Some a => Some a | None => last_handover l1 end.
Proof.
  unfold last_handover. rewrite omap_app, last_app. by destruct (last (omap _ l2)).
Qed.

Lemma dispatch_all_inv E fm c r tcs w res w' :
  dispatch_all E fm c r tcs w = (res, w') →
  ∃ log, invoked w' = invoked w ++ log
    ∧ ∀ r', res = Done r' →
        tr_agent r' = match last_handover log with
                      | Some a => Some a
                      | None => tr_agent r
                      end
        ∧ ∃ answered out,
            sublist answered tcs
            ∧ Forall (λ tc, tc_type tc = "function") answered
            ∧ Forall2 answers answered out
            ∧ tr_messages r' = tr_messages r ++ out.
Proof.
  revert r w. induction tcs as [|tc tcs IH]; intros r w; simpl.
  - intros [= <- <-]. exists []. rewrite app_nil_r. split; [done|].
    intros r' [= <-]. split; [done|]. exists [], []. rewrite app_nil_r.
    split_and!; done.
  - unfold mbind, M_bind, bind.
    destruct (dispatch E fm c r tc w) as [[r1|e|] w1] eqn:Hd;
      apply dispatch_inv in Hd as (log1 & Hlog1 & Hd).
    + intros Hrest. apply IH in Hrest as (log2 & Hlog2 & Hrest).
      exists (log1 ++ log2). split; [rewrite Hlog2, Hlog1; by rewrite app_assoc|].
      intros r' ->.
      destruct (Hd _ eq_refl) as (Hagent1 & out1 & Hout1 & Hcase).
      destruct (Hrest _ eq_refl) as (Hagent2 & answered & out2 & Hsub & Hfun & Hans & Hout2).
      split.
      { rewrite Hagent2, Hagent1, last_handover_app. by destruct (last_handover log2). }
      destruct Hcase as [->|(Hf & m & -> & Hm)].
      * exists answered, out2. rewrite Hout2, Hout1, app_nil_r.
        split_and!; try done. by apply sublist_cons.
      * exists (tc :: answered), (m :: out2). rewrite Hout2, Hout1, <- app_assoc.
        split_and!; try done.
        -- by apply sublist_skip.
        -- constructor; [|done]. unfold is_function_call in Hf.
           by apply String.eqb_eq in Hf.
        -- by constructor.
    + intros [= <- <-]. exists log1. done.
    + intros [= <- <-]. exists log1. done.
Qed.

(** X5: the tool messages that action dispatch gives back answer calls of
    the batch, in the order of the batch and at most one for each: their
    names and call ids are those of a sub-sequence of the function-typed
    calls. *)
Theorem tool_messages_answer_calls E tcs fns c w r w' :
  handleToolCalls E tcs fns c w = (Done r, w') →
  ∃ answered,
    sublist answered tcs
    ∧ Forall (λ tc, tc_type tc = "function") answered
    ∧ Forall2 answers answered (tr_messages r).
Proof.
  unfold handleToolCalls. intros H.
  apply dispatch_all_inv in H as (log & _ & H).
  destruct (H _ eq_refl) as (_ & answered & out & Hsub & Hfun & Hans & Hout).
  simpl in Hout. subst. by exists answered.
Qed.

(** The executor that action dispatch hands over to is the one of the last
    invoked action that named one. *)
Lemma handleToolCalls_handover E tcs fns c w res w' :
  handleToolCalls E tcs fns c w = (res, w') →
  ∃ log, invoked w' = invoked w ++ log
    ∧ ∀ r, res = Done r → tr_agent r = last_handover log.
Proof.
  unfold handleToolCalls. intros H.
  apply dispatch_all_inv in H as (log & Hlog & H). exists log. split; [done|].
  intros r ->. destruct (H _ eq_refl) as (-> & _). simpl.
  by destruct (last_handover log).
Qed.

Lemma default_last_handover a l1 l2 :
  default a (last_handover (l1 ++ l2))
  = default (default a (last_handover l1)) (last_handover l2).
Proof. rewrite last_handover_app. by destruct (last_handover l2). Qed.

Lemma tool_round_handover E s st tcs w res w' :
  tool_round E s st tcs w = (res, w') →
  ∃ log, invoked w' = invoked w ++ log
    ∧ ∀ n st', res = Done (n, st') →
        currentAgent st' = default (currentAgent st) (last_handover log)
        ∧ (n = Continue → is_Some (last_handover log)).
Proof.
  unfold tool_round. intros H. revert H.
  mstep as c1 w1 H1.
  destruct (handleToolCalls E tcs (ag_functions (agents E (currentAgent st))) c1 w1)
    as [res2 w2] eqn:H2.
  apply handleToolCalls_handover in H2 as H2'. destruct H2' as (log & Hlog & Hagent).
  assert (Hi2 : invoked w2 = invoked w ++ log) by congruence.
  destruct res2 as [tr|e|].
  2:{ rewrite (bind_Raised _ _ _ _ _ H2). intros [= <- <-]. by exists log. }
  2:{ rewrite (bind_OutOfFuel _ _ _ _ H2). intros [= <- <-]. by exists log. }
  rewrite (bind_Done _ _ _ _ _ H2). specialize (Hagent _ eq_refl).
  mstep as history w3 H3.
  mstep as cur' w4 H4.
  set (yield := match s with Some _ => _ | None => _ end).
  assert (∃ w5, yield w4 = (Done tt, w5) ∧ invoked w5 = invoked w4) as (w5 & H5 & Hi5).
  { subst yield. destruct s; [|by eexists].
    eexists. split; [reflexivity|]. by apply emit_all_kept. }
  rewrite (bind_Done _ _ _ _ _ H5). clearbody yield.
  mstep as c2 w6 H6.
  mstep as ctx' w7 H7.
  assert (Hi7 : invoked w7 = invoked w ++ log) by congruence.
  destruct (tr_agent tr) as [next|].
  - mstep as [] w8 H8.
    set (yield2 := match s with Some _ => _ | None => _ end).
    assert (∃ w9, yield2 w8 = (Done tt, w9) ∧ invoked w9 = invoked w8) as (w9 & H9 & Hi9).
    { subst yield2. destruct s; eexists; (split; [reflexivity|done]). }
    rewrite (bind_Done _ _ _ _ _ H9). clearbody yield2.
    simpl. intros [= <- <-]. exists log. split; [congruence|].
    intros n st' [= <- <-]. rewrite <- Hagent. by split.
  - simpl. intros [= <- <-]. exists log. split; [congruence|].
    intros n st' [= <- <-]. rewrite <- Hagent. by split.
Qed.

Lemma run_iteration_handover E et mo st w res w' :
  run_iteration E et mo st w = (res, w') →
  ∃ log, invoked w' = invoked w ++ log
    ∧ ∀ n st', res = Done (n, st') →
        currentAgent st' = default (currentAgent st) (last_handover log)
        ∧ (n = Continue → is_Some (last_handover log)).
Proof.
  unfold run_iteration. intros H. revert H.
  assert (Hnil : ∀ w', invoked w' = invoked w → invoked w' = invoked w ++ []).
  { intros w'' ->. by rewrite app_nil_r. }
  mstep as history w1 H1.
  mstep as [] w2 H2; [| intros [= <- <-]; exists []; split; [apply Hnil; congruence | done] ].
  mstep as [] w3 H3.
  mstep as context' w4 H4.
  mstep as responseMessage w5 H5;
    [| intros [= <- <-]; exists []; split; [apply Hnil; congruence | done] ].
  mstep as failures w6 H6;
    [| intros [= <- <-]; exists []; split; [apply Hnil; congruence | done] ].
  mstep as [] w7 H7.
  assert (Hi7 : invoked w7 = invoked w) by congruence.
  assert (Hstay : (Done (Break, st), w7) = (res, w') →
    ∃ log, invoked w' = invoked w ++ log
      ∧ ∀ n st', res = Done (n, st') →
          currentAgent st' = default (currentAgent st) (last_handover log)
          ∧ (n = Continue → is_Some (last_handover log))).
  { intros [= <- <-]. exists []. split; [by apply Hnil|]. by intros n st' [= <- <-]. }
  destruct (cp_tool_calls responseMessage) as [[|tc tcs]|]; simpl; try done.
  destruct et; simpl; [|done].
  intros Ht. apply tool_round_handover in Ht as (log & Hlog & Ht).
  exists log. split; [congruence|]. exact Ht.
Qed.

Lemma run_loop_handover E fuel mt et mo st w res w' :
  run_loop E fuel mt et mo st w = (res, w') →
  ∃ log, invoked w' = invoked w ++ log
    ∧ ∀ st', res = Done st' →
        currentAgent st' = default (currentAgent st) (last_handover log).
Proof.
  revert st w. induction fuel as [|fuel IH]; intros st w; simpl.
  - destruct (below _ _); simpl; intros [= <- <-]; exists []; rewrite app_nil_r;
      (split; [done | by intros st' [= <-]]).
  - destruct (below _ _); simpl.
    2:{ intros [= <- <-]. exists []. rewrite app_nil_r. split; [done | by intros st' [= <-]]. }
    unfold mbind, M_bind, bind.
    destruct (run_iteration E et mo st w) as [[[n st1]|e|] w1] eqn:Hit;
      apply run_iteration_handover in Hit as (log1 & Hlog1 & Hit);
      try (intros [= <- <-]; by exists log1).
    destruct (Hit _ _ eq_refl) as [Hagent1 _].
    destruct n.
    + intros Hrest. apply IH in Hrest as (log2 & Hlog2 & Hrest).
      exists (log1 ++ log2). split; [rewrite Hlog2, Hlog1; by rewrite app_assoc|].
      intros st' ->. by rewrite (Hrest _ eq_refl), Hagent1, default_last_handover.
    + simpl. intros [= <- <-]. exists log1. split; [done|]. by intros st' [= <-].
Qed.

(** X6: the executor a run returns is the one named by the last invoked
    action that handed over, and the starting executor when none did. *)
Theorem returned_executor_is_last_handover E fuel agent messages context_variables
    max_turns execute_tools model_override w resp w' :
  run E fuel agent messages context_variables max_turns execute_tools model_override w
    = (Done resp, w') →
  ∃ log, invoked w' = invoked w ++ log
    ∧ rs_agent resp = default agent (last_handover log).
Proof.
  unfold run. intros Hrun. revert Hrun.
  mstep as [] w1 H1.
  mstep as input w2 H2.
  mstep as cur w3 H3.
  mstep as context w4 H4.
  mstep as ctxc w5 H5.
  mstep as instr w6 H6; [|done].
  mstep as [] w7 H7.
  assert (Hi7 : invoked w7 = invoked w) by congruence.
  mstep as st w8 H8; [|done..].
  apply run_loop_handover in H8 as (log & Hlog & Hagent).
  specialize (Hagent _ eq_refl). simpl in Hagent.
  mstep as [] w9 H9.
  mstep as wf w10 H10.
  intros [= <- <-]. simpl. exists log. split; [congruence|done].
Qed.

(** X2: when the arguments of a call do not parse, or parse to [null],
    the action is not invoked and the call is answered by a failure
    message. *)
Theorem bad_arguments_reported E fm c r tc w f e s :
  tc_type tc = "function" →
  fm !! tc_name tc = Some f →
  argument_values E (tc_arguments tc) = inr e →
  error_text E e = inl s →
  ∃ w', dispatch E fm c r tc w = (Done (with_message r (failure_message tc s)), w')
        ∧ invoked w' = invoked w.
Proof.
  intros Ht Hf Hargs Hs.
  destruct (dispatch_function E fm c r tc w f Ht Hf) as (w1 & Hi1 & ->).
  unfold try_catch.
  assert (Ha : attempt E (SlotFunction (fn_call f)) c r tc w1 = (Raised e, w1)).
  { unfold attempt, argument_values in *.
    destruct (JSON_parse E (tc_arguments tc)) as [parsedArgs|e']; simpl.
    - msimpl. rewrite Hargs. by msimpl.
    - by injection Hargs as ->. }
  rewrite Ha.
  destruct (recover_reports E r tc e s w1 Hs) as [w2 H2].
  exists w2. split; [done|].
  pose proof (recover_invoked E r tc e w1) as Hi. rewrite H2 in Hi. simpl in Hi. congruence.
Qed.

Lemma dispatch_all_function_calls E fm c r tcs w :
  dispatch_all E fm c r tcs w
  = dispatch_all E fm c r (filter (λ tc, tc_type tc = "function") tcs) w.
Proof.
  revert r w. induction tcs as [|tc tcs IH]; intros r w; simpl; [done|].
  rewrite filter_cons. destruct (decide (tc_type tc = "function")) as [Ht|Ht].
  - simpl. unfold mbind, M_bind, bind.
    destruct (dispatch E fm c r tc w) as [[r1|e|] w1]; [apply IH|done|done].
  - unfold mbind, M_bind, bind, dispatch.
    destruct (String.eqb_spec (tc_type tc) "function") as [Heq|_]; [done|]. apply IH.
Qed.

(** X3: calls whose type is not [function] are passed over: no event, no
    invocation, no tool message; dispatch does what it does for the
    function-typed calls alone. *)
Theorem other_call_types_ignored E tcs fns c w :
  handleToolCalls E tcs fns c w
  = handleToolCalls E (filter (λ tc, tc_type tc = "function") tcs) fns c w.
Proof.
  unfold handleToolCalls. by rewrite <- dispatch_all_function_calls.
Qed.

(** X4: an action that returns an [Agent] object itself hands over to it,
    and its call gets no tool message at all. *)
Theorem bare_executor_unanswered E fm c r tc w f parsedArgs values a :
  tc_type tc = "function" →
  fm !! tc_name tc = Some f →
  JSON_parse E (tc_arguments tc) = inl parsedArgs →
  Object_values E parsedArgs = inl values →
  fn_call f c values = Returns (RetAgent a) →
  ∃ w', dispatch E fm c r tc w
        = (Done {| tr_messages := tr_messages r; tr_agent := Some a;
                   tr_context_variables := tr_context_variables r |}, w').
Proof.
  intros Ht Hf Hp Hv Hc.
  destruct (dispatch_function E fm c r tc w f Ht Hf) as (w1 & _ & ->).
  unfold try_catch, attempt. rewrite Hp. msimpl. rewrite Hv. msimpl.
  unfold invoke. rewrite Hc.
  unfold mbind, M_bind, bind, update, mret, M_ret, ret, addEvent. simpl.
  rewrite app_nil_r, spread_empty_r. by eexists.
Qed.

(* ===================================================================== *)
(** * Relations that every step of a run respects *)
(* ===================================================================== *)

(** A pre-order on worlds that the writes to the heap, to the steps and to
    the ghost logs respect, and that recording an event of a [quiet] type
    respects, is respected by every computation that records only such
    events. *)
Ltac respect_step :=
  first
    [ match goal with |- PreOrder _ => apply _ end
    | solve [eauto with frame]
    | apply preserves_ret | apply preserves_throw | apply preserves_lift
    | apply preserves_get_world | apply preserves_out_of_fuel
    | apply preserves_bind | apply preserves_try_catch
    | match goal with
      | |- preserves _ (match ?x with _ => _ end) => destruct x
      | |- preserves _ (if ?x then _ else _) => destruct x
      | |- ∀ _, _ => intros ?
      end ].

Ltac respect := repeat respect_step.

Section respected.
Context (R : relation World) `{!PreOrder R} (quiet : EventType → bool).
Context (R_addEvent : ∀ E t d, quiet t = true → preserves R (addEvent E t d)).
Context (R_arrays : ∀ f w, R w (set_arrays f w)).
Context (R_objects : ∀ f w, R w (set_objects f w)).
Context (R_emit : ∀ s w, R w (emit s w)).
Context (R_request : ∀ r w, R w (log_request r w)).
Context (R_invocation : ∀ n o w, R w (log_invocation n o w)).
Context (quiet_guardrail : quiet guardrail_check = true).
Context (quiet_function_call : quiet function_call = true).
Context (quiet_function_return : quiet function_return = true).
Context (quiet_handoff : quiet handoff = true).

Lemma alloc_array_respects l : preserves R (alloc_array l).
Proof. intros w. apply R_arrays. Qed.

Lemma push_respects r m : preserves R (push r m).
Proof. intros w. apply R_arrays. Qed.

Lemma alloc_object_respects c : preserves R (alloc_object c).
Proof. intros w. apply R_objects. Qed.

Lemma emit_respects s : preserves R (update (emit s)).
Proof. intros w. apply R_emit. Qed.

Lemma log_request_respects r : preserves R (update (log_request r)).
Proof. intros w. apply R_request. Qed.

Lemma log_invocation_respects n o : preserves R (update (log_invocation n o)).
Proof. intros w. apply R_invocation. Qed.

Lemma read_array_respects r : preserves R (read_array r).
Proof. intros w. reflexivity. Qed.

Lemma read_object_respects r : preserves R (read_object r).
Proof. intros w. reflexivity. Qed.

#[local] Hint Resolve alloc_array_respects push_respects alloc_object_respects
  emit_respects log_request_respects log_invocation_respects read_array_respects
  read_object_respects R_addEvent : frame.

Lemma validate_message_respects E a m : preserves R (validate_message E a m).
Proof. unfold validate_message. frame. Qed.

Lemma validate_messages_respects E a msgs : preserves R (validate_messages E a msgs).
Proof.
  induction msgs as [|m msgs IH]; simpl; [frame|].
  apply preserves_bind; [apply _ | apply validate_message_respects | done].
Qed.

Lemma validate_output_respects E a c : preserves R (validate_output E a c).
Proof. unfold validate_output. frame. Qed.

Lemma getChatCompletion_respects E a h c mo : preserves R (getChatCompletion E a h c mo).
Proof. unfold getChatCompletion. frame. Qed.

Lemma getChatCompletionStream_respects E a h c mo :
  preserves R (getChatCompletionStream E a h c mo).
Proof. unfold getChatCompletionStream. frame. Qed.

Lemma dispatch_respects E fm c r tc : preserves R (dispatch E fm c r tc).
Proof.
  unfold dispatch, attempt, recover, not_found, invoke.
  destruct (String.eqb _ _); frame.
Qed.

Lemma dispatch_all_respects E fm c r tcs : preserves R (dispatch_all E fm c r tcs).
Proof.
  revert r. induction tcs as [|tc tcs IH]; intros r; simpl; [frame|].
  apply preserves_bind; [apply _ | apply dispatch_respects | done].
Qed.

Lemma handleToolCalls_respects E tcs fns c : preserves R (handleToolCalls E tcs fns c).
Proof. apply dispatch_all_respects. Qed.

Lemma emit_all_respects (l : list Message) :
  preserves R (update (λ w, fold_left (λ w m, emit (tool_response m) w) l w)).
Proof.
  intros w. unfold update. simpl. revert w.
  induction l as [|m l IH]; intros w; simpl; [reflexivity|].
  etrans; [apply R_emit | apply IH].
Qed.

#[local] Hint Resolve validate_messages_respects validate_output_respects
  getChatCompletion_respects getChatCompletionStream_respects handleToolCalls_respects
  emit_all_respects : frame.

Lemma tool_round_respects E s st tcs : preserves R (tool_round E s st tcs).
Proof. unfold tool_round. frame. Qed.

Lemma collect_delta_respects slots d : preserves R (collect_delta slots d).
Proof. unfold collect_delta. frame. Qed.

Lemma collect_deltas_respects slots ds : preserves R (collect_deltas slots ds).
Proof.
  revert slots. induction ds as [|d ds IH]; intros slots; simpl; [frame|].
  apply preserves_bind; [apply _ | apply collect_delta_respects | done].
Qed.

#[local] Hint Resolve tool_round_respects collect_deltas_respects : frame.

Lemma collect_chunks_respects content slots chunks :
  preserves R (collect_chunks content slots chunks).
Proof.
  revert content slots. induction chunks as [|chunk chunks IH]; intros content slots;
    simpl; [frame|].
  apply preserves_bind; [apply _ | frame |].
  intros content'. apply preserves_bind; [apply _ | frame | done].
Qed.

#[local] Hint Resolve collect_chunks_respects : frame.

(** The passes of the two loops, when [model_call] is quiet as well. *)
Context (quiet_model_call : quiet model_call = true).

Lemma run_iteration_respects E et mo st : preserves R (run_iteration E et mo st).
Proof. unfold run_iteration. respect. Qed.

Lemma run_loop_respects E fuel mt et mo st : preserves R (run_loop E fuel mt et mo st).
Proof.
  revert st. induction fuel as [|fuel IH]; intros st; simpl.
  - destruct (below _ _); frame.
  - destruct (below _ _); [|frame].
    apply preserves_bind; [apply _ | apply run_iteration_respects |].
    intros [[] st']; [apply IH | frame].
Qed.

Lemma stream_iteration_respects E et mo i st : preserves R (stream_iteration E et mo i st).
Proof. unfold stream_iteration. respect. Qed.

Lemma stream_loop_respects E fuel mt et mo i st :
  preserves R (stream_loop E fuel mt et mo i st).
Proof.
  revert st. induction fuel as [|fuel IH]; intros st; simpl.
  - destruct (below _ _); frame.
  - destruct (below _ _); [|frame].
    apply preserves_bind; [apply _ | apply stream_iteration_respects |].
    intros [[] st']; [apply IH | frame].
Qed.
End respected.

(* ===================================================================== *)
(** * The tracer switched off *)
(* ===================================================================== *)

(** The trace a run returns is the one its tracer holds at the end. *)
Lemma run_trace E fuel agent messages context_variables max_turns execute_tools
    model_override w resp w' :
  run E fuel agent messages context_variables max_turns execute_tools model_override w
    = (Done resp, w') →
  rs_trace resp = events (tracer w').
Proof.
  unfold run. intros Hrun. revert Hrun.
  mstep as [] w1 H1.
  mstep as input w2 H2.
  mstep as cur w3 H3.
  mstep as context w4 H4.
  mstep as ctxc w5 H5.
  mstep as instr w6 H6; [|done].
  mstep as [] w7 H7.
  mstep as st w8 H8; [|done..].
  mstep as [] w9 H9.
  mstep as wf w10 H10. unfold get_world in H10. injection H10 as <- <-.
  by intros [= <- <-].
Qed.

#[global] Instance stays_off_preorder : PreOrder stays_off.
Proof.
  split; [by intros w | intros w1 w2 w3 H1 H2 Hoff].
  rewrite (H2 ltac:(by rewrite (H1 Hoff))). by apply H1.
Qed.

Lemma addEvent_stays_off E t d : preserves stays_off (addEvent E t d).
Proof. intros w Hoff. unfold addEvent, update. simpl. by rewrite Hoff. Qed.

(** X11: with tracing switched off a run records nothing: its tracer ends
    empty, and the trace it returns is empty. *)
Theorem disabled_tracer_records_nothing E fuel agent messages context_variables
    max_turns execute_tools model_override w :
  enabled (tracer w) = false →
  let '(r, w') := run E fuel agent messages context_variables max_turns execute_tools
                      model_override w in
  tracer w' = Tracer_.new false ∧ ∀ resp, r = Done resp → rs_trace resp = [].
Proof.
  intros Hoff.
  destruct (run E fuel agent messages context_variables max_turns execute_tools
              model_override w) as [r w'] eqn:Hrun.
  assert (Htr : tracer w' = Tracer_.new false).
  { revert Hrun. unfold run.
    mstep as [] w1 H1. unfold tracer_clear, update in H1. injection H1 as <-.
    match goal with |- ?body _ = _ → _ => assert (Hbody : preserves stays_off body) end.
    { pose proof (λ E t d (_ : (λ _ : EventType, true) t = true), addEvent_stays_off E t d)
        as Hadd.
      pose proof (run_loop_respects stays_off (λ _, true) Hadd
                    ltac:(done) ltac:(done) ltac:(done) ltac:(done) ltac:(done)
                    eq_refl eq_refl eq_refl eq_refl eq_refl E) as Hloop.
      pose proof (alloc_array_respects stays_off ltac:(done)) as Harr.
      pose proof (alloc_object_respects stays_off ltac:(done)) as Hobj.
      pose proof addEvent_stays_off as Hev.
      respect. }
    intros Hrest. specialize (Hbody (set_tracer (Tracer_.clear (tracer w)) (clock w) w)).
    rewrite Hrest in Hbody. simpl in Hbody. rewrite Hbody; [|by simpl].
    unfold Tracer_.clear, Tracer_.new. by rewrite Hoff. }
  split; [done|]. intros resp ->.
  apply run_trace in Hrun. by rewrite Hrun, Htr.
Qed.

(* ===================================================================== *)
(** * Model calls in the trace *)
(* ===================================================================== *)

Lemma addEvent_model_call_count E t d :
  not_model_call t = true → preserves (kept model_call_count) (addEvent E t d).
Proof.
  intros Ht w. unfold kept, model_call_count, addEvent, update. simpl.
  destruct (enabled (tracer w)) eqn:Hon; [|by rewrite Hon]. simpl.
  unfold Tracer_.addEvent. rewrite Hon. simpl. f_equal.
  unfold model_calls. rewrite filter_app, length_app.
  rewrite filter_cons_False, filter_nil; [simpl; lia|].
  simpl. by apply bool_decide_eq_true in Ht.
Qed.

Lemma addEvent_model_call E d w u w' :
  enabled (tracer w) = true →
  addEvent E model_call d w = (Done u, w') →
  model_call_count w' = (true, S (model_calls (events (tracer w)))).
Proof.
  intros Hon. unfold addEvent, update. intros [= <- <-].
  unfold model_call_count. rewrite Hon. simpl. unfold Tracer_.addEvent. rewrite Hon. simpl.
  f_equal. unfold model_calls. rewrite filter_app, length_app.
  rewrite filter_cons_True by done. simpl. lia.
Qed.

Section counting.
Context (E : Env).

#[local] Abbreviation counted := (preserves (kept model_call_count)).

Lemma quiet_steps :
  (∀ a msgs, counted (validate_messages E a msgs))
  ∧ (∀ a c, counted (validate_output E a c))
  ∧ (∀ a h c mo, counted (getChatCompletion E a h c mo))
  ∧ (∀ s st tcs, counted (tool_round E s st tcs))
  ∧ (∀ r m, counted (push r m))
  ∧ (∀ l, counted (alloc_array l))
  ∧ (∀ c, counted (alloc_object c)).
Proof.
  pose proof (λ E t d, addEvent_model_call_count E t d) as Hadd.
  assert (Hfree : ∀ f : World → World,
            (∀ w, tracer (f w) = tracer w) → ∀ w, kept model_call_count w (f w)).
  { intros f Hf w. unfold kept, model_call_count. by rewrite Hf. }
  split_and!; intros.
  - apply (validate_messages_respects _ not_model_call Hadd). reflexivity.
  - apply (validate_output_respects _ not_model_call Hadd). reflexivity.
  - apply getChatCompletion_respects; intros; first [by apply Hfree | apply _].
  - apply (tool_round_respects _ not_model_call Hadd); try reflexivity;
      intros; by apply Hfree.
  - apply push_respects; intros; first [by apply Hfree | apply _].
  - apply alloc_array_respects; intros; first [by apply Hfree | apply _].
  - apply alloc_object_respects; intros; first [by apply Hfree | apply _].
Qed.

(** A pass of the batched loop that completes has recorded one model call. *)
Lemma run_iteration_model_call et mo st w n st' w' :
  enabled (tracer w) = true →
  run_iteration E et mo st w = (Done (n, st'), w') →
  model_call_count w' = (true, S (model_calls (events (tracer w)))).
Proof.
  intros Hon. destruct quiet_steps as (Hvm & Hvo & Hgc & Htr & Hpush & _ & _).
  unfold run_iteration.
  mstep as history w1 H1. apply read_array_inv in H1 as [-> ->].
  pose proof (Hvm (agents E (currentAgent st)) (default [] (arrays w !! currentMessages st)) w)
    as Kcount.
  mstep as [] w2 H2; [|done]. unfold kept, model_call_count in Kcount.
  simpl in Kcount. injection Kcount as Hon2 Hcount2. rewrite Hon in Hon2.
  mstep as [] w3 H3. apply (addEvent_model_call _ _ _ _ _ Hon2) in H3. rewrite Hcount2 in H3.
  match goal with |- ?rest w3 = _ → _ => assert (Hrest : counted rest) end.
  { respect. }
  intros Hdone. specialize (Hrest w3). rewrite Hdone in Hrest.
  unfold kept in Hrest. simpl in Hrest. congruence.
Qed.

Lemma run_loop_model_calls fuel mt et mo st w st' w' :
  enabled (tracer w) = true →
  run_loop E fuel mt et mo st w = (Done st', w') →
  ∃ sent, requests w' = requests w ++ sent
    ∧ model_call_count w' = (true, (model_calls (events (tracer w)) + length sent)%nat).
Proof.
  revert st w. induction fuel as [|fuel IH]; intros st w Hon; simpl.
  - destruct (below _ _); [done|]. intros [= <- <-]. exists [].
    rewrite app_nil_r, Nat.add_0_r. unfold model_call_count. by rewrite Hon.
  - destruct (below _ _).
    2:{ intros [= <- <-]. exists [].
        rewrite app_nil_r, Nat.add_0_r. unfold model_call_count. by rewrite Hon. }
    unfold mbind, M_bind, bind.
    destruct (run_iteration E et mo st w) as [[[n st1]|e|] w1] eqn:Hit; [|done|done].
    pose proof (run_iteration_model_call _ _ _ _ _ _ _ Hon Hit) as Hcount.
    apply run_iteration_turns in Hit as (rq & _ & Hreq & _).
    unfold model_call_count in Hcount. injection Hcount as Hon1 Hcount.
    destruct n.
    + intros Hrest. apply (IH _ _ Hon1) in Hrest as (sent & Hsent & Hrest).
      exists (rq :: sent). split; [rewrite Hsent, Hreq; by rewrite <- app_assoc|].
      rewrite Hrest, Hcount. simpl. f_equal. lia.
    + intros [= <- <-]. exists [rq]. split; [done|].
      unfold model_call_count. rewrite Hon1, Hcount. simpl. f_equal. lia.
Qed.
End counting.

(** X12: with tracing switched on, the trace of a run that returns holds
    one [model_call] event for each request the run sent to the backend. *)
Theorem one_model_call_event_per_request E fuel agent messages context_variables
    max_turns execute_tools model_override w resp w' :
  enabled (tracer w) = true →
  run E fuel agent messages context_variables max_turns execute_tools model_override w
    = (Done resp, w') →
  ∃ sent, requests w' = requests w ++ sent
    ∧ model_calls (rs_trace resp) = length sent.
Proof.
  intros Hon Hrun. rewrite (run_trace _ _ _ _ _ _ _ _ _ _ _ Hrun).
  revert Hrun. unfold run.
  mstep as [] w1 H1. unfold tracer_clear, update in H1. injection H1 as <-.
  mstep as input w2 H2. apply read_array_inv in H2 as [-> ->].
  mstep as cur w3 H3.
  mstep as context w4 H4. apply read_object_inv in H4 as [-> ->].
  mstep as ctxc w5 H5.
  mstep as instr w6 H6; [|done].
  assert (Hc6 : model_call_count w6 = (true, 0%nat)).
  { unfold model_call_count.
    assert (tracer w6 = Tracer_.clear (tracer w)) as -> by congruence.
    simpl. by rewrite Hon. }
  pose proof (addEvent_model_call_count E agent_start
                (agent_start_data (agents E agent) instr) eq_refl w6) as K7'.
  mstep as [] w7 H7. unfold kept in K7'. simpl in K7'. rewrite Hc6 in K7'.
  assert (Hon7 : enabled (tracer w7) = true).
  { unfold model_call_count in K7'. congruence. }
  mstep as st w8 H8; [|done..].
  apply (run_loop_model_calls E _ _ _ _ _ _ _ _ Hon7) in H8 as (sent & Hsent & Hc8).
  match goal with |- context [ addEvent E agent_end ?d ] =>
    pose proof (addEvent_model_call_count E agent_end d eq_refl w8) as K9' end.
  mstep as [] w9 H9. unfold kept in K9'. simpl in K9'.
  mstep as wf w10 H10. unfold get_world in H10. injection H10 as <- <-.
  intros [= <- <-]. exists sent.
  split; [congruence|].
  unfold model_call_count in K7', Hc8, K9'.
  injection K7' as _ E7. injection Hc8 as _ E8. injection K9' as _ E9. lia.
Qed.

(* ===================================================================== *)
(** * The turn limit bounds the requests *)
(* ===================================================================== *)

Lemma sent_at_most_refl n w : sent_at_most n w w.
Proof. exists []. rewrite app_nil_r. split; [done | simpl; lia]. Qed.

Lemma sent_at_most_kept n w w' : requests w' = requests w → sent_at_most n w w'.
Proof. intros H. exists []. rewrite app_nil_r. split; [done | simpl; lia]. Qed.

Lemma sent_at_most_trans n m w1 w2 w3 :
  sent_at_most n w1 w2 → sent_at_most m w2 w3 → sent_at_most (n + m) w1 w3.
Proof.
  intros (s1 & H1 & L1) (s2 & H2 & L2). exists (s1 ++ s2).
  rewrite H2, H1, <- app_assoc, length_app. split; [done | lia].
Qed.

Lemma sent_at_most_mono n m w w' : (n ≤ m)%nat → sent_at_most n w w' → sent_at_most m w w'.
Proof. intros Hnm (s & H & L). exists s. split; [done | lia]. Qed.

Lemma getChatCompletion_sent E a h c mo w :
  sent_at_most 1 w (getChatCompletion E a h c mo w).2.
Proof.
  destruct (getChatCompletion E a h c mo w) as [r w'] eqn:H.
  apply getChatCompletion_requests in H. simpl.
  destruct r as [x|e|]; [| |done].
  - destruct H as [rq H]. exists [rq]. split; [done | simpl; lia].
  - destruct H as [H|[rq H]]; [by apply sent_at_most_kept |].
    exists [rq]. split; [done | simpl; lia].
Qed.

(** One pass of the batched loop sends at most one request, and the loop
    goes on only with the counter advanced. *)
Lemma run_iteration_sent E et mo st w :
  let '(res, w') := run_iteration E et mo st w in
  sent_at_most 1 w w'
  ∧ ∀ st', res = Done (Continue, st') → turns st' = S (turns st).
Proof.
  unfold run_iteration.
  mstep as history w1 H1.
  mstep as [] w2 H2; [| split; [apply sent_at_most_kept; congruence | done] ].
  mstep as [] w3 H3.
  mstep as context w4 H4.
  assert (Hr4 : requests w4 = requests w) by congruence.
  pose proof (getChatCompletion_sent E (agents E (currentAgent st)) (currentMessages st)
                context mo w4) as Hsent.
  mstep as reply w5 H5; simpl in Hsent;
    [| split; [destruct Hsent as (s & Hs & L); exists s; split; [congruence|done] | done] ].
  assert (Hsent' : sent_at_most 1 w w5).
  { destruct Hsent as (s & Hs & L). exists s. split; [congruence|done]. }
  mstep as failures w6 H6;
    [| split; [destruct Hsent' as (s & Hs & L); exists s; split; [congruence|done] | done] ].
  mstep as [] w7 H7.
  assert (Hsent7 : sent_at_most 1 w w7).
  { destruct Hsent' as (s & Hs & L). exists s. split; [congruence|done]. }
  assert (Hstay : sent_at_most 1 w w7
                  ∧ ∀ st', Done (Break, st) = Done (Continue, st') → turns st' = S (turns st)).
  { split; [done|]. by intros st' [=]. }
  destruct (cp_tool_calls reply) as [[|tc tcs]|]; simpl; try done.
  destruct et; simpl; [|done].
  pose proof (tool_round_kept requests E None (bump st) (tc :: tcs)
                ltac:(done) ltac:(done) ltac:(done) ltac:(done) ltac:(done) w7) as Kreq.
  destruct (tool_round E None (bump st) (tc :: tcs) w7) as [res w8] eqn:H8.
  unfold kept in Kreq. simpl in Kreq. split.
  - destruct Hsent7 as (s & Hs & L). exists s. split; [congruence|done].
  - intros st' ->. apply tool_round_turns in H8. by rewrite H8.
Qed.

Lemma run_loop_sent E fuel n et mo st w :
  sent_at_most (Z.to_nat (n - Z.of_nat (turns st))) w
    (run_loop E fuel (Finite n) et mo st w).2.
Proof.
  revert st w. induction fuel as [|fuel IH]; intros st w; simpl.
  - destruct (_ <? _); simpl; apply sent_at_most_refl.
  - destruct (Z.ltb_spec (Z.of_nat (turns st)) n) as [Hlt|Hge]; simpl;
      [|apply sent_at_most_refl].
    pose proof (run_iteration_sent E et mo st w) as Hit.
    unfold mbind, M_bind, bind.
    destruct (run_iteration E et mo st w) as [[[next st1]|e|] w1];
      destruct Hit as [Hsent Hturns]; simpl.
    + destruct next.
      * specialize (Hturns _ eq_refl). specialize (IH st1 w1).
        eapply sent_at_most_mono; [|eapply sent_at_most_trans; [exact Hsent | exact IH]].
        rewrite Hturns. lia.
      * simpl. eapply sent_at_most_mono; [|exact Hsent]. lia.
    + eapply sent_at_most_mono; [|exact Hsent]. lia.
    + eapply sent_at_most_mono; [|exact Hsent]. lia.
Qed.

(** X7: a run with [max_turns = n] sends at most [n] requests to the
    backend, whatever its outcome. *)
Theorem max_turns_bounds_requests E fuel agent messages context_variables n
    execute_tools model_override w :
  sent_at_most (Z.to_nat n) w
    (run E fuel agent messages context_variables (Finite n) execute_tools
         model_override w).2.
Proof.
  unfold run.
  mstep as [] w1 H1.
  mstep as input w2 H2.
  mstep as cur w3 H3.
  mstep as context w4 H4.
  mstep as ctxc w5 H5.
  mstep as instr w6 H6; [|apply sent_at_most_kept; simpl; congruence].
  mstep as [] w7 H7.
  assert (Hr7 : requests w7 = requests w) by congruence.
  match goal with |- context [ (run_loop E fuel (Finite n) execute_tools model_override ?st0 ≫= _) w7 ] =>
    pose proof (run_loop_sent E fuel n execute_tools model_override st0 w7) as Hloop end.
  simpl in Hloop. rewrite Z.sub_0_r in Hloop.
  assert (Hfrom : ∀ w', requests w' = requests (run_loop E fuel (Finite n) execute_tools
                     model_override
                     {| currentAgent := agent; currentMessages := cur;
                        currentContextVars := ctxc; turns := 0 |} w7).2 →
                   sent_at_most (Z.to_nat n) w w').
  { intros w' Hw'. destruct Hloop as (s & Hs & L). exists s. split; [congruence|done]. }
  mstep as st w8 H8; simpl in Hfrom; [|by apply Hfrom..].
  mstep as [] w9 H9.
  mstep as wf w10 H10. simpl. apply Hfrom. congruence.
Qed.

Lemma getChatCompletionStream_sent E a h c mo w :
  sent_at_most 1 w (getChatCompletionStream E a h c mo w).2.
Proof.
  unfold getChatCompletionStream, mbind, M_bind, bind, lift.
  destruct (getInstructions a c) as [instr|e]; simpl; [|apply sent_at_most_refl].
  eexists [_]. split; [done | simpl; lia].
Qed.

Lemma collect_chunks_kept {X} (f : World → X) content slots chunks :
  emit_free f → preserves (kept f) (collect_chunks content slots chunks).
Proof. intros Hf. apply collect_chunks_respects; [apply _|]. intros s w. apply Hf. Qed.

#[global] Hint Resolve collect_chunks_kept : frame.

Lemma succeeds_bind {A B} (m : M A) (k : A → M B) :
  succeeds m → (∀ a, succeeds (k a)) → succeeds (m ≫= k).
Proof.
  intros Hm Hk w. unfold mbind, M_bind, bind.
  destruct (Hm w) as [a Ha]. destruct (m w) as [[a'|e|] w']; simpl in Ha; try done.
  apply Hk.
Qed.

Lemma succeeds_collect_delta slots d : succeeds (collect_delta slots d).
Proof.
  unfold collect_delta. apply succeeds_bind; [|intros; apply succeeds_ret].
  destruct (negb _); [apply succeeds_update | apply succeeds_ret].
Qed.

Lemma succeeds_collect_deltas slots ds : succeeds (collect_deltas slots ds).
Proof.
  revert slots. induction ds as [|d ds IH]; intros slots; simpl; [apply succeeds_ret|].
  apply succeeds_bind; [apply succeeds_collect_delta | done].
Qed.

(** Gathering the delivered chunks never fails. *)
Lemma succeeds_collect_chunks content slots chunks :
  succeeds (collect_chunks content slots chunks).
Proof.
  revert content slots. induction chunks as [|chunk chunks IH]; intros content slots;
    simpl; [apply succeeds_ret|].
  apply succeeds_bind.
  { destruct (truthy_str _); [|apply succeeds_ret].
    apply succeeds_bind; [apply succeeds_update | intros; apply succeeds_ret]. }
  intros content'. apply succeeds_bind; [|done].
  destruct (ch_tool_calls chunk) as [[|d ds]|];
    [apply succeeds_ret | apply (succeeds_collect_deltas slots (d :: ds))
    | apply succeeds_ret].
Qed.

#[global] Hint Resolve succeeds_collect_chunks : succeed.

Lemma terminates_collect_chunks content slots chunks :
  terminates (collect_chunks content slots chunks).
Proof.
  intros w. destruct (succeeds_collect_chunks content slots chunks w) as [a Ha].
  by destruct (collect_chunks content slots chunks w) as [[?|?|] ?].
Qed.

#[global] Hint Resolve terminates_collect_chunks : term.

(** One pass of the streaming loop sends at most one request. *)
Lemma stream_iteration_sent E et mo initial st w :
  sent_at_most 1 w (stream_iteration E et mo initial st w).2.
Proof.
  unfold stream_iteration.
  mstep as history w1 H1.
  mstep as [] w2 H2; [| apply sent_at_most_kept; simpl; congruence ].
  mstep as [] w3 H3.
  assert (Hr3 : requests w3 = requests w) by congruence.
  unfold try_catch.
  match goal with |- context [ match ?body w3 with _ => _ end ] =>
    assert (Hbody : sent_at_most 1 w3 (body w3).2); [|destruct (body w3) as [[r|e|] w4]] end.
  - mstep as [] w5 H5.
    mstep as context w6 H6.
    pose proof (getChatCompletionStream_sent E (agents E (currentAgent st))
                  (currentMessages (bump st)) context mo w6) as Hsent.
    assert (Hr6 : requests w6 = requests w3) by congruence.
    assert (Hfrom : ∀ w', requests w' = requests (getChatCompletionStream E
                       (agents E (currentAgent st)) (currentMessages (bump st))
                       context mo w6).2 → sent_at_most 1 w3 w').
    { intros w' Hw'. destruct Hsent as (s & Hs & L). exists s. split; [congruence|done]. }
    clear Hsent.
    mstep as [chunks failure] w7 H7; simpl in Hfrom; [|by apply Hfrom].
    mstep as [content tool_calls] w8 H8.
    assert (Hr8 : requests w8 = requests w7) by congruence.
    mstep as [] w9 H9; [| destruct failure; simpl in H9; [|done];
                          injection H9 as <- <-; apply Hfrom; simpl; congruence
                        | by destruct failure ].
    assert (Hr9 : requests w9 = requests w8).
    { destruct failure; simpl in H9; [done|]. by injection H9 as <-. }
    mstep as [] w10 H10.
    mstep as [] w11 H11.
    mstep as failures w12 H12; [|apply Hfrom; simpl; congruence].
    assert (Hr12 : requests w12 = requests w7) by congruence.
    mstep as [] w13 H13; [| by destruct failures | by destruct failures ].
    assert (Hr13 : requests w13 = requests w7).
    { destruct failures; simpl in H13; injection H13 as <-; simpl; congruence. }
    destruct tool_calls as [|tc tcs]; [apply Hfrom; simpl; congruence|].
    destruct et; [|apply Hfrom; simpl; congruence].
    pose proof (tool_round_kept requests E (Some initial) (bump st) (tc :: tcs)
                  ltac:(done) ltac:(done) ltac:(done) ltac:(done) ltac:(done) w13) as Kreq.
    apply Hfrom. unfold kept in Kreq. congruence.
  - simpl in *. destruct Hbody as (s & Hs & L). exists s. split; [congruence|done].
  - simpl in Hbody.
    mstep as text w5 H5; [| destruct Hbody as (s & Hs & L); exists s; simpl;
                            split; [congruence|done] ].
    mstep as [] w6 H6. simpl.
    destruct Hbody as (s & Hs & L). exists s. split; [congruence|done].
  - simpl in *. destruct Hbody as (s & Hs & L). exists s. split; [congruence|done].
Qed.

Lemma stream_loop_sent E fuel n et mo initial st w :
  sent_at_most (Z.to_nat (n - Z.of_nat (turns st))) w
    (stream_loop E fuel (Finite n) et mo initial st w).2.
Proof.
  revert st w. induction fuel as [|fuel IH]; intros st w; simpl.
  - destruct (_ <? _); simpl; apply sent_at_most_refl.
  - destruct (Z.ltb_spec (Z.of_nat (turns st)) n) as [Hlt|Hge]; simpl;
      [|apply sent_at_most_refl].
    pose proof (stream_iteration_sent E et mo initial st w) as Hsent.
    unfold mbind, M_bind, bind.
    destruct (stream_iteration E et mo initial st w) as [[[next st1]|e|] w1] eqn:Hit; simpl.
    + destruct next.
      * apply stream_iteration_turns in Hit. specialize (IH st1 w1).
        eapply sent_at_most_mono; [|eapply sent_at_most_trans; [exact Hsent | exact IH]].
        rewrite Hit. lia.
      * simpl. eapply sent_at_most_mono; [|exact Hsent]. lia.
    + eapply sent_at_most_mono; [|exact Hsent]. lia.
    + eapply sent_at_most_mono; [|exact Hsent]. lia.
Qed.

(** X8: the streaming variant keeps the same bound: with [max_turns = n]
    it sends at most [n] requests. *)
Theorem max_turns_bounds_stream_requests E fuel agent messages context_variables n
    execute_tools model_override w :
  sent_at_most (Z.to_nat n) w
    (runWithStream E fuel agent messages context_variables (Finite n) execute_tools
                   model_override w).2.
Proof.
  unfold runWithStream.
  mstep as [] w1 H1.
  mstep as input w2 H2.
  mstep as cur w3 H3.
  mstep as context w4 H4.
  mstep as ctxc w5 H5.
  mstep as instr w6 H6; [|apply sent_at_most_kept; simpl; congruence].
  mstep as [] w7 H7.
  assert (Hr7 : requests w7 = requests w) by congruence.
  match goal with |- context [ (stream_loop E fuel (Finite n) execute_tools model_override ?i ?st0 ≫= _) w7 ] =>
    pose proof (stream_loop_sent E fuel n execute_tools model_override i st0 w7) as Hloop end.
  simpl in Hloop. rewrite Z.sub_0_r in Hloop.
  assert (Hfrom : ∀ w', requests w' = requests (stream_loop E fuel (Finite n) execute_tools
                     model_override (ag_name (agents E agent))
                     {| currentAgent := agent; currentMessages := cur;
                        currentContextVars := ctxc; turns := 0 |} w7).2 →
                   sent_at_most (Z.to_nat n) w w').
  { intros w' Hw'. destruct Hloop as (s & Hs & L). exists s. split; [congruence|done]. }
  mstep as st w8 H8; simpl in Hfrom; [|by apply Hfrom..].
  mstep as [] w9 H9.
  mstep as wf w10 H10.
  unfold update. simpl. apply Hfrom. simpl. congruence.
Qed.

(* ===================================================================== *)
(** * A failing backend *)
(* ===================================================================== *)

(** X9: when the backend fails on the first request, the batched run
    fails with the backend's error: nothing is caught on that path. *)
Theorem provider_failure_is_rethrown E fuel agent messages context_variables max_turns
    execute_tools model_override w instructions e :
  let a := agents E agent in
  let input := default [] (arrays w !! messages) in
  let context := default ∅ (objects w !! context_variables) in
  let request := createParams a instructions input model_override false in
  below 0 max_turns = true →
  getInstructions a context = inl instructions →
  inputs_pass E a input →
  createChatCompletion E (length (requests w)) request = inr e →
  ∃ w',
    run E (S fuel) agent messages context_variables max_turns execute_tools model_override w
      = (Raised e, w')
    ∧ requests w' = requests w ++ [request].
Proof.
  intros a input context request Hbelow Hinstr Hpass Hreply.
  subst a input context request. unfold run.
  mstep as [] w1 H1.
  mstep as input' w2 H2. apply read_array_inv in H2 as [-> ->].
  mstep as cur w3 H3. apply alloc_array_inv in H3 as (_ & Harr & _).
  mstep as context' w4 H4. apply read_object_inv in H4 as [-> ->].
  mstep as ctxc w5 H5. apply alloc_object_inv in H5 as (_ & Hobj & _).
  assert (Ha1 : arrays w1 = arrays w) by congruence.
  assert (Ho3 : objects w3 = objects w) by congruence.
  rewrite Ha1 in Harr. rewrite Ho3 in *.
  rewrite Hinstr. simpl. unfold mbind at 1, M_bind at 1, bind at 1. simpl.
  mstep as [] w7 H7.
  assert (Ha7 : arrays w7 !! cur = Some (default [] (arrays w !! messages))).
  { assert (arrays w7 = arrays w3) as -> by congruence. by rewrite Harr, lookup_insert_eq. }
  assert (Ho7 : objects w7 !! ctxc = Some (default ∅ (objects w !! context_variables))).
  { assert (objects w7 = objects w5) as -> by congruence. by rewrite Hobj, lookup_insert_eq. }
  assert (Hr7 : requests w7 = requests w) by congruence.
  clear Harr Hobj.
  set (st := {| currentAgent := agent; currentMessages := cur;
                currentContextVars := ctxc; turns := 0 |}).
  assert (Hit : ∃ w8, run_iteration E execute_tools model_override st w7 = (Raised e, w8)
     ∧ requests w8 = requests w ++ [createParams (agents E agent) instructions
                       (default [] (arrays w !! messages)) model_override false]).
  { unfold run_iteration.
    mstep as history wa Ha. apply read_array_inv in Ha as [-> ->]. simpl. rewrite Ha7. simpl.
    destruct (validate_messages_pass E _ _ w7 Hpass) as [w8 H8].
    rewrite (bind_Done _ _ _ _ _ H8).
    pose proof (validate_messages_kept arrays E (agents E agent)
                  (default [] (arrays w !! messages)) ltac:(done) w7) as Ka.
    pose proof (validate_messages_kept objects E (agents E agent)
                  (default [] (arrays w !! messages)) ltac:(done) w7) as Ko.
    pose proof (validate_messages_kept requests E (agents E agent)
                  (default [] (arrays w !! messages)) ltac:(done) w7) as Kr.
    rewrite H8 in Ka, Ko, Kr. unfold kept in Ka, Ko, Kr. simpl in Ka, Ko, Kr.
    mstep as [] w9 H9.
    mstep as context' w10 H10. apply read_object_inv in H10 as [-> ->].
    assert (objects w9 = objects w7) as -> by congruence. rewrite Ho7.
    cbn [default from_option id].
    assert (arrays w9 !! cur = Some (default [] (arrays w !! messages))) as Ha9 by congruence.
    assert (requests w9 = requests w) as Hr9 by congruence.
    assert (Hget : getChatCompletion E (agents E agent) cur
                     (default ∅ (objects w !! context_variables)) model_override w9
                   = (Raised e,
                      log_request (createParams (agents E agent) instructions
                        (default [] (arrays w !! messages)) model_override false) w9)).
    { rewrite getChatCompletion_unfold, Hinstr, Ha9, Hr9. simpl. by rewrite Hreply. }
    rewrite (bind_Raised _ _ _ _ _ Hget). eexists. split; [done|]. simpl. by rewrite Hr9. }
  destruct Hit as (w8 & Hit & Hr8).
  assert (Hloop : run_loop E (S fuel) max_turns execute_tools model_override st w7
                  = (Raised e, w8)).
  { simpl. rewrite Hbelow. by rewrite (bind_Raised _ _ _ _ _ Hit). }
  rewrite (bind_Raised _ _ _ _ _ Hloop). by exists w8.
Qed.

#[global] Instance yields_more_preorder : PreOrder yields_more.
Proof.
  split.
  - intros w. exists []. by rewrite app_nil_r.
  - intros w1 w2 w3 [s1 H1] [s2 H2]. exists (s1 ++ s2). by rewrite H2, H1, app_assoc.
Qed.

Lemma collect_chunks_yields content slots chunks :
  preserves yields_more (collect_chunks content slots chunks).
Proof. apply collect_chunks_respects; [apply _|]. intros s w. by exists [s]. Qed.

(** X10: when the backend's stream fails on the first request, the
    streaming run does not fail: it yields an [error] step with the text of
    the error and then its [complete] step, with the caller's messages and
    nothing added to them. *)
Theorem stream_failure_is_reported E fuel agent messages context_variables max_turns
    execute_tools model_override w instructions chunks e text :
  let a := agents E agent in
  let input := default [] (arrays w !! messages) in
  let context := default ∅ (objects w !! context_variables) in
  let request := createParams a instructions input model_override true in
  below 0 max_turns = true →
  getInstructions a context = inl instructions →
  inputs_pass E a input →
  createChatCompletionStream E (length (requests w)) request = (chunks, Some e) →
  String_thrown E e = inl text →
  ∃ w' before result context' trace,
    runWithStream E (S fuel) agent messages context_variables max_turns execute_tools
                  model_override w = (Done tt, w')
    ∧ emitted w' = emitted w ++ before
                   ++ [error_step text; complete result agent context' trace]
    ∧ arrays w' !! result = Some input
    ∧ requests w' = requests w ++ [request].
Proof.
  intros a input context request Hbelow Hinstr Hpass Hreply Htext.
  subst a input context request. unfold runWithStream.
  mstep as [] w1 H1.
  mstep as input' w2 H2. apply read_array_inv in H2 as [-> ->].
  mstep as cur w3 H3. apply alloc_array_inv in H3 as (_ & Harr & _).
  mstep as context' w4 H4. apply read_object_inv in H4 as [-> ->].
  mstep as ctxc w5 H5. apply alloc_object_inv in H5 as (_ & Hobj & _).
  assert (Ha1 : arrays w1 = arrays w) by congruence.
  assert (Ho3 : objects w3 = objects w) by congruence.
  rewrite Ha1 in Harr. rewrite Ho3 in *.
  rewrite Hinstr. simpl. unfold mbind at 1, M_bind at 1, bind at 1. simpl.
  mstep as [] w7 H7.
  assert (Ha7 : arrays w7 !! cur = Some (default [] (arrays w !! messages))).
  { assert (arrays w7 = arrays w3) as -> by congruence. by rewrite Harr, lookup_insert_eq. }
  assert (Ho7 : objects w7 !! ctxc = Some (default ∅ (objects w !! context_variables))).
  { assert (objects w7 = objects w5) as -> by congruence. by rewrite Hobj, lookup_insert_eq. }
  assert (Hr7 : requests w7 = requests w) by congruence.
  assert (He7 : emitted w7 = emitted w) by congruence.
  clear Harr Hobj.
  set (st := {| currentAgent := agent; currentMessages := cur;
                currentContextVars := ctxc; turns := 0 |}).
  assert (Hit : ∃ w8 before,
     stream_iteration E execute_tools model_override (ag_name (agents E agent)) st w7
       = (Done (Break, bump st), w8)
     ∧ emitted w8 = emitted w ++ before ++ [error_step text]
     ∧ arrays w8 !! cur = Some (default [] (arrays w !! messages))
     ∧ requests w8 = requests w ++ [createParams (agents E agent) instructions
                       (default [] (arrays w !! messages)) model_override true]).
  { unfold stream_iteration.
    mstep as history wa Ha. apply read_array_inv in Ha as [-> ->]. simpl. rewrite Ha7. simpl.
    destruct (validate_messages_pass E _ _ w7 Hpass) as [w8 H8].
    rewrite (bind_Done _ _ _ _ _ H8).
    pose proof (validate_messages_kept arrays E (agents E agent)
                  (default [] (arrays w !! messages)) ltac:(done) w7) as Ka.
    pose proof (validate_messages_kept objects E (agents E agent)
                  (default [] (arrays w !! messages)) ltac:(done) w7) as Ko.
    pose proof (validate_messages_kept requests E (agents E agent)
                  (default [] (arrays w !! messages)) ltac:(done) w7) as Kr.
    pose proof (validate_messages_kept emitted E (agents E agent)
                  (default [] (arrays w !! messages)) ltac:(done) w7) as Ke.
    rewrite H8 in Ka, Ko, Kr, Ke. unfold kept in Ka, Ko, Kr, Ke. simpl in Ka, Ko, Kr, Ke.
    mstep as [] w9 H9. unfold update in H9. injection H9 as <-.
    set (w9 := emit (stream_start (ag_name (agents E agent))) w8).
    assert (He9 : emitted w9 = emitted w ++ [stream_start (ag_name (agents E agent))]).
    { subst w9. simpl. congruence. }
    assert (Ha9 : arrays w9 !! cur = Some (default [] (arrays w !! messages))).
    { subst w9. simpl. congruence. }
    assert (Ho9 : objects w9 !! ctxc = Some (default ∅ (objects w !! context_variables))).
    { subst w9. simpl. congruence. }
    assert (Hr9 : requests w9 = requests w) by (subst w9; simpl; congruence).
    clearbody w9. unfold try_catch.
    match goal with |- context [ match ?body w9 with _ => _ end ] =>
      assert (Hbody : ∃ w10 steps, body w9 = (Raised e, w10)
                ∧ emitted w10 = emitted w9 ++ steps
                ∧ arrays w10 = arrays w9
                ∧ requests w10 = requests w9 ++ [createParams (agents E agent) instructions
                       (default [] (arrays w !! messages)) model_override true]) end.
    { mstep as [] w10 H10.
      mstep as context' w11 H11. apply read_object_inv in H11 as [-> ->].
      assert (objects w10 = objects w9) as -> by congruence. rewrite Ho9.
      cbn [default from_option id bump currentMessages].
      assert (Hget : getChatCompletionStream E (agents E agent) cur
                       (default ∅ (objects w !! context_variables)) model_override w10
                     = (Done (chunks, Some e),
                        log_request (createParams (agents E agent) instructions
                          (default [] (arrays w !! messages)) model_override true) w10)).
      { unfold getChatCompletionStream. rewrite Hinstr. msimpl.
        unfold mbind, M_bind, bind, read_array, get_world, update, mret, M_ret, ret. simpl.
        assert (arrays w10 !! cur = Some (default [] (arrays w !! messages))) as ->
          by congruence.
        assert (requests w10 = requests w) as -> by congruence.
        simpl. by rewrite Hreply. }
      rewrite (bind_Done _ _ _ _ _ Hget).
      set (w12 := log_request _ w10).
      pose proof (collect_chunks_yields "" [] chunks w12) as [steps Hsteps].
      mstep as [content tool_calls] w13 H13. simpl in Hsteps.
      simpl. unfold mbind, M_bind, bind, throw. simpl.
      exists w13, steps. split; [done|]. subst w12. simpl in *.
      split; [congruence|]. split; [congruence|]. congruence. }
    destruct Hbody as (w10 & steps & -> & He10 & Ha10 & Hr10).
    rewrite Htext. msimpl.
    unfold mbind, M_bind, bind, update, mret, M_ret, ret. simpl.
    eexists _, (stream_start (ag_name (agents E agent)) :: steps).
    split; [done|]. simpl. rewrite He10, He9, Ha10, Hr10, Hr9.
    split; [by rewrite <- !app_assoc|]. done. }
  destruct Hit as (w8 & before & Hit & He8 & Ha8 & Hr8).
  assert (Hloop : stream_loop E (S fuel) max_turns execute_tools model_override
                    (ag_name (agents E agent)) st w7 = (Done (bump st), w8)).
  { simpl. rewrite Hbelow. by rewrite (bind_Done _ _ _ _ _ Hit). }
  rewrite (bind_Done _ _ _ _ _ Hloop).
  mstep as [] w9 H9.
  mstep as wf w10 H10. unfold get_world in H10. injection H10 as <- <-.
  unfold update. simpl.
  eexists _, before, cur, ctxc, _. split; [done|]. simpl.
  assert (emitted w9 = emitted w8) as -> by congruence.
  assert (arrays w9 = arrays w8) as -> by congruence.
  assert (requests w9 = requests w8) as -> by congruence.
  rewrite He8, <- !app_assoc. done.
Qed.

(* ===================================================================== *)
(** * The streaming variant works on copies *)
(* ===================================================================== *)

Lemma tool_round_Raised_heap E s st tcs w e w' :
  tool_round E s st tcs w = (Raised e, w') →
  arrays w' = arrays w ∧ objects w' = objects w.
Proof.
  unfold tool_round. intros H. revert H.
  mstep as c1 w1 H1.
  mstep as tr w2 H2; [|intros [= <- <-]; split; congruence].
  mstep as history w3 H3.
  mstep as cur' w4 H4.
  mstep as [] w5 H5; [| by destruct s | by destruct s].
  mstep as c2 w6 H6.
  mstep as ctx' w7 H7.
  destruct (tr_agent tr).
  - mstep as [] w8 H8.
    mstep as [] w9 H9; [| by destruct s | by destruct s]. done.
  - done.
Qed.

Section stream_copies.
Context (E : Env) (messages context_variables : loc)
        (input : list Message) (context : Ctx).
#[local] Abbreviation kept_in' := (arguments_kept messages context_variables input context).
#[local] Abbreviation copy_in' := (works_on_copy messages context_variables input context).

Lemma stream_iteration_copy et mo initial st w :
  copy_in' st w →
  let '(r, w') := stream_iteration E et mo initial st w in
  kept_in' w' ∧ ∀ n st', r = Done (n, st') → copy_in' st' w'.
Proof.
  intros Hc. pose proof Hc as (Hk & _). unfold stream_iteration.
  assert (Hkeep : ∀ w', arrays w' = arrays w → objects w' = objects w → kept_in' w').
  { intros w' Ha' Ho'. unfold arguments_kept. by rewrite Ha', Ho'. }
  mstep as history w1 H1.
  mstep as [] w2 H2; [| split; [apply Hkeep; congruence | done] ].
  mstep as [] w3 H3.
  assert (Hc3 : copy_in' (bump st) w3).
  { apply (copy_in_heap _ _ _ _ st w); [congruence..|done]. }
  unfold try_catch.
  match goal with |- context [ match ?body w3 with _ => _ end ] =>
    assert (Hbody : let '(r, w') := body w3 in
                    match r with
                    | Done (n, st') => copy_in' st' w'
                    | Raised _ => copy_in' (bump st) w'
                    | OutOfFuel => False
                    end) end.
  { mstep as [] w5 H5.
    mstep as context' w6 H6.
    assert (Hc6 : copy_in' (bump st) w6).
    { apply (copy_in_heap _ _ _ _ (bump st) w3); [congruence..|done]. }
    mstep as [chunks failure] w7 H7;
      [| apply (copy_in_heap _ _ _ _ (bump st) w6); [congruence..|done] ].
    mstep as [content tool_calls] w8 H8.
    assert (Hc8 : copy_in' (bump st) w8).
    { apply (copy_in_heap _ _ _ _ (bump st) w6); [congruence..|done]. }
    mstep as [] w9 H9; [| destruct failure; simpl in H9; [|done]; by injection H9 as <- <-
                        | by destruct failure ].
    assert (w9 = w8) as -> by (destruct failure; simpl in H9; [done | by injection H9]).
    mstep as [] w10 H10.
    apply (push_copy _ _ _ _ _ _ _ _ _ Hc8) in H10 as Hc10.
    mstep as [] w11 H11.
    assert (Hc11 : copy_in' (bump st) w11).
    { apply (copy_in_heap _ _ _ _ (bump st) w10); [congruence..|done]. }
    mstep as failures w12 H12;
      [| apply (copy_in_heap _ _ _ _ (bump st) w11); [congruence..|done] ].
    mstep as [] w13 H13; [| by destruct failures | by destruct failures ].
    assert (Hc13 : copy_in' (bump st) w13).
    { apply (copy_in_heap _ _ _ _ (bump st) w11); [| |done].
      - destruct failures; simpl in H13; injection H13 as <-; simpl; congruence.
      - destruct failures; simpl in H13; injection H13 as <-; simpl; congruence. }
    destruct tool_calls as [|tc tcs]; [done|].
    destruct et; [|done].
    pose proof (tool_round_copy E messages context_variables input context
                  (Some initial) (bump st) (tc :: tcs) w13 Hc13) as Ht.
    destruct (tool_round E (Some initial) (bump st) (tc :: tcs) w13) as [[[n st1]|e|] w14]
      eqn:Hround;
      [| | by pose proof (terminates_tool_round E (Some initial) (bump st) (tc :: tcs) w13) as T;
           rewrite Hround in T ].
    - destruct Ht as [_ Ht]. by apply (Ht n st1).
    - apply tool_round_Raised_heap in Hround as [Ha Ho].
      by apply (copy_in_heap _ _ _ _ (bump st) w13). }
  match goal with |- context [ match ?body w3 with _ => _ end ] =>
    destruct (body w3) as [[[n st1]|e|] w4] end.
  - split; [apply Hbody | intros ? ? [= <- <-]; apply Hbody].
  - assert (Hk4 : ∀ w', arrays w' = arrays w4 → objects w' = objects w4 → kept_in' w').
    { intros w' Ha' Ho'. destruct Hbody as (Hk4 & _). unfold arguments_kept.
      by rewrite Ha', Ho'. }
    mstep as text w5 H5; [| split; [apply Hk4; congruence | done] ].
    mstep as [] w6 H6. simpl.
    assert (Hc6 : copy_in' (bump st) w6).
    { apply (copy_in_heap _ _ _ _ (bump st) w4); [congruence..|done]. }
    split; [apply Hc6 | by intros ? ? [= <- <-]].
  - done.
Qed.

Lemma stream_loop_copy fuel mt et mo initial st w :
  copy_in' st w →
  let '(r, w') := stream_loop E fuel mt et mo initial st w in
  kept_in' w' ∧ ∀ st', r = Done st' → copy_in' st' w'.
Proof.
  revert st w. induction fuel as [|fuel IH]; intros st w Hc; simpl.
  - destruct (below _ _); simpl; (split; [apply Hc | by intros st' [= <-]]).
  - destruct (below _ _); simpl; [| split; [apply Hc | by intros st' [= <-]] ].
    pose proof (stream_iteration_copy et mo initial st w Hc) as Hit.
    unfold mbind, M_bind, bind.
    destruct (stream_iteration E et mo initial st w) as [[[n st1]|e|] w1]; simpl in *;
      try (split; [apply Hit | done]).
    destruct Hit as [_ Hit]. specialize (Hit _ _ eq_refl).
    destruct n; [by apply IH|].
    split; [apply Hit | by intros st' [= <-]].
Qed.
End stream_copies.

(** X13: the streaming variant leaves the caller's message array and
    context object as they were, too; the array of its [complete] step is
    another one, and starts with the caller's messages. *)
Theorem stream_works_on_copies E fuel agent messages context_variables max_turns
    execute_tools model_override w input context :
  arrays w !! messages = Some input →
  objects w !! context_variables = Some context →
  let '(r, w') := runWithStream E fuel agent messages context_variables max_turns
                                execute_tools model_override w in
  arrays w' !! messages = Some input
  ∧ objects w' !! context_variables = Some context
  ∧ (r = Done tt →
     ∃ result agent' context' trace appended,
       last (emitted w') = Some (complete result agent' context' trace)
       ∧ result ≠ messages
       ∧ arrays w' !! result = Some (input ++ appended)).
Proof.
  intros Ha Ho. unfold runWithStream.
  mstep as [] w1 H1.
  mstep as input' w2 H2.
  apply read_array_inv in H2 as [-> ->].
  mstep as cur w3 H3.
  apply alloc_array_inv in H3 as (Hfresh & Harr & Hobj).
  mstep as context' w4 H4.
  apply read_object_inv in H4 as [-> ->].
  mstep as ctxc w5 H5.
  apply alloc_object_inv in H5 as (Hfresh' & Hobj' & Harr').
  assert (Ha1 : arrays w1 = arrays w) by congruence.
  assert (Ho3 : objects w3 = objects w) by congruence.
  rewrite Ha1 in Hfresh, Harr. rewrite Ha in Harr. rewrite Ho3 in Hfresh', Hobj'.
  rewrite Ho in Hobj'. simpl in *.
  assert (Hcur : cur ≠ messages) by (intros ->; congruence).
  assert (Hctx : ctxc ≠ context_variables) by (intros ->; congruence).
  assert (Hc : works_on_copy messages context_variables input context
            {| currentAgent := agent; currentMessages := cur;
               currentContextVars := ctxc; turns := 0 |} w5).
  { split; [split|split]; simpl.
    - rewrite Harr', Harr, lookup_insert_ne by done. done.
    - rewrite Hobj', lookup_insert_ne by done. congruence.
    - done.
    - exists []. rewrite Harr', Harr, lookup_insert_eq, app_nil_r. done. }
  assert (Hk5 : arguments_kept messages context_variables input context w5) by apply Hc.
  assert (Hkeep : ∀ w', arrays w' = arrays w5 → objects w' = objects w5 →
                        arrays w' !! messages = Some input
                        ∧ objects w' !! context_variables = Some context).
  { intros w' -> ->. apply Hk5. }
  mstep as instr w6 H6.
  2:{ destruct (Hkeep w6) as [? ?]; [congruence..|]. done. }
  mstep as [] w7 H7.
  assert (Hc7 : works_on_copy messages context_variables input context
            {| currentAgent := agent; currentMessages := cur;
               currentContextVars := ctxc; turns := 0 |} w7).
  { eapply copy_in_heap; [| |exact Hc]; congruence. }
  pose proof (stream_loop_copy E messages context_variables input context fuel max_turns
                execute_tools model_override (ag_name (agents E agent)) _ _ Hc7) as HL.
  mstep as st w8 H8; destruct HL as [[HLa HLo] HL]; [|done..].
  destruct (HL _ eq_refl) as (_ & Hne & app & Happ).
  mstep as [] w9 H9.
  mstep as wf w10 H10. unfold update. simpl.
  assert (Ha10 : arrays w10 = arrays w8) by congruence.
  assert (Ho10 : objects w10 = objects w8) by congruence.
  rewrite Ha10, Ho10. split; [done|]. split; [done|].
  intros _. eexists _, _, _, _, app. rewrite last_snoc. split; [done|]. by split.
Qed.

(* ===================================================================== *)
(** * Streaming without tool execution *)
(* ===================================================================== *)

Lemma stream_iteration_no_tools E mo initial st :
  preserves (kept invoked) (stream_iteration E false mo initial st).
Proof.
  unfold stream_iteration.
  apply preserves_bind; [apply _ | eauto with frame | intros history].
  apply preserves_bind; [apply _ | eauto with frame | intros []].
  apply preserves_bind; [apply _ | eauto with frame | intros []].
  apply preserves_try_catch; [apply _ | | respect; by apply preserves_update].
  apply preserves_bind; [apply _ | eauto with frame | intros []].
  apply preserves_bind; [apply _ | eauto with frame | intros context].
  apply preserves_bind; [apply _ | eauto with frame | intros [chunks failure]].
  apply preserves_bind; [apply _ | eauto with frame | intros [content tool_calls]].
  apply preserves_bind; [apply _ | respect | intros []].
  apply preserves_bind; [apply _ | eauto with frame | intros []].
  apply preserves_bind; [apply _ | by apply preserves_update | intros []].
  apply preserves_bind; [apply _ | eauto with frame | intros failures].
  apply preserves_bind; [apply _ | | intros []].
  { destruct failures; [respect | by apply preserves_update]. }
  destruct tool_calls; respect.
Qed.

Lemma stream_iteration_breaks E mo initial st w n st' w' :
  stream_iteration E false mo initial st w = (Done (n, st'), w') → n = Break.
Proof.
  unfold stream_iteration. intros H. revert H.
  mstep as history w1 H1.
  mstep as [] w2 H2; [|done].
  mstep as [] w3 H3.
  unfold try_catch.
  match goal with |- context [ match ?body w3 with _ => _ end ] =>
    destruct (body w3) as [[[n1 st1]|e|] w4] eqn:Hbody end.
  - intros [= <- <- <-]. revert Hbody.
    mstep as [] w5 H5.
    mstep as context w6 H6.
    mstep as [chunks failure] w7 H7; [|done].
    mstep as [content tool_calls] w8 H8.
    mstep as [] w9 H9; [|done|done].
    mstep as [] w10 H10.
    mstep as [] w11 H11.
    mstep as failures w12 H12; [|done].
    mstep as [] w13 H13; [|done|done].
    destruct tool_calls as [|tc tcs]; by intros [= <- <- <-].
  - mstep as text w5 H5; [|done].
    mstep as [] w6 H6. by intros [= <- <- <-].
  - done.
Qed.

(** X14: with [execute_tools = false] the streaming variant invokes no
    action either, and sends at most one request. *)
Theorem stream_executeTools_false E fuel agent messages context_variables max_turns
    model_override w :
  let w' := (runWithStream E fuel agent messages context_variables max_turns false
                           model_override w).2 in
  invoked w' = invoked w ∧ sent_at_most 1 w w'.
Proof.
  assert (Hloop : ∀ fuel st w0,
    let w1 := (stream_loop E fuel max_turns false model_override
                           (ag_name (agents E agent)) st w0).2 in
    invoked w1 = invoked w0 ∧ sent_at_most 1 w0 w1).
  { intros [|fuel'] st w0; simpl.
    - destruct (below _ _); simpl; (split; [done | apply sent_at_most_refl]).
    - destruct (below _ _); simpl; [|split; [done | apply sent_at_most_refl]].
      pose proof (stream_iteration_no_tools E model_override (ag_name (agents E agent)) st w0)
        as Hinv.
      pose proof (stream_iteration_sent E false model_override (ag_name (agents E agent))
                    st w0) as Hsent.
      unfold mbind, M_bind, bind.
      destruct (stream_iteration E false model_override (ag_name (agents E agent)) st w0)
        as [[[next st1]|e|] w1] eqn:Hit; simpl in *; try done.
      apply stream_iteration_breaks in Hit as ->. done. }
  unfold runWithStream.
  mstep as [] w1 H1.
  mstep as input w2 H2.
  mstep as cur w3 H3.
  mstep as context w4 H4.
  mstep as ctxc w5 H5.
  mstep as instr w6 H6;
    [| simpl; split; [congruence | apply sent_at_most_kept; congruence] ].
  mstep as [] w7 H7.
  assert (Hi7 : invoked w7 = invoked w) by congruence.
  assert (Hr7 : requests w7 = requests w) by congruence.
  match goal with |- context [ (stream_loop E fuel max_turns false model_override ?i ?st0 ≫= _) w7 ] =>
    pose proof (Hloop fuel st0 w7) as [Hinv Hsent] end.
  assert (Hfrom : ∀ w', requests w' = requests (stream_loop E fuel max_turns false
                     model_override (ag_name (agents E agent))
                     {| currentAgent := agent; currentMessages := cur;
                        currentContextVars := ctxc; turns := 0 |} w7).2 →
                   sent_at_most 1 w w').
  { intros w' Hw'. destruct Hsent as (s & Hs & L). exists s. split; [congruence|done]. }
  clear Hsent.
  mstep as st w8 H8; simpl in Hfrom, Hinv;
    [| simpl; split; [congruence | by apply Hfrom] ..].
  mstep as [] w9 H9.
  mstep as wf w10 H10. unfold update. simpl.
  split; [congruence|]. apply Hfrom. simpl. congruence.
Qed.

(* ===================================================================== *)
(** * What a stream gathers: content *)
(* ===================================================================== *)

Lemma append_assoc (a b c : string) : (a +:+ b) +:+ c = a +:+ (b +:+ c).
Proof.
  induction a as [|x a IH]; [done|].
  change (String x ((a +:+ b) +:+ c) = String x (a +:+ (b +:+ c))). by rewrite IH.
Qed.

Lemma append_nil_r (a : string) : a +:+ "" = a.
Proof.
  induction a as [|x a IH]; [done|].
  change (String x (a +:+ "") = String x a). by rewrite IH.
Qed.

Lemma content_steps_app s1 s2 : content_steps (s1 ++ s2) = content_steps s1 ++ content_steps s2.
Proof. apply omap_app. Qed.

#[global] Instance yields_no_content_preorder : PreOrder yields_no_content.
Proof.
  split.
  - intros w. exists []. by rewrite app_nil_r.
  - intros w1 w2 w3 (s1 & H1 & C1) (s2 & H2 & C2). exists (s1 ++ s2).
    rewrite H2, H1, app_assoc, content_steps_app, C1, C2. done.
Qed.

Lemma collect_deltas_no_content slots ds : preserves yields_no_content (collect_deltas slots ds).
Proof.
  revert slots. induction ds as [|d ds IH]; intros slots; simpl; [frame|].
  apply preserves_bind; [apply _ | | done].
  unfold collect_delta. apply preserves_bind; [apply _ | | frame].
  destruct (negb _); [|frame].
  intros w. unfold update. simpl. by exists [tool_call_step (merge_delta
    (default empty_slot (pad_slots slots (td_index d) !! td_index d)) d)].
Qed.

Lemma collect_chunk_deltas slots (tool_calls : option (list ToolCallDelta)) w :
  ∃ s1 w2 steps,
    match tool_calls with
    | Some (d :: ds) => collect_deltas slots (d :: ds)
    | _ => mret slots
    end w = (Done s1, w2)
    ∧ emitted w2 = emitted w ++ steps ∧ content_steps steps = [].
Proof.
  assert (Hstay : ∃ s1 w2 steps, (Done slots, w) = (Done s1, w2)
            ∧ emitted w2 = emitted w ++ steps ∧ content_steps steps = []).
  { exists slots, w, []. by rewrite app_nil_r. }
  destruct tool_calls as [[|d ds]|]; [done| |done].
  pose proof (collect_deltas_no_content slots (d :: ds) w) as (steps & Hsteps & Hnone).
  destruct (succeeds_collect_deltas slots (d :: ds) w) as [s1 Hs1].
  destruct (collect_deltas slots (d :: ds) w) as [[s1'|?|] w2]; simpl in Hs1; try done.
  by exists s1', w2, steps.
Qed.

(** X15: the text gathered from a stream is its content fragments put one
    after the other, and these are the [content] steps that were yielded,
    in the same order. *)
Theorem content_is_the_yielded_fragments content slots chunks w content' slots' w' :
  collect_chunks content slots chunks w = (Done (content', slots'), w') →
  content' = content +:+ glue (fragments chunks)
  ∧ ∃ steps, emitted w' = emitted w ++ steps
             ∧ content_steps steps = fragments chunks.
Proof.
  revert content slots w. induction chunks as [|chunk chunks IH]; intros content slots w.
  - intros [= <- <- <-]. simpl. rewrite append_nil_r. split; [done|].
    exists []. by rewrite app_nil_r.
  - cbn [collect_chunks]. unfold mbind, M_bind, bind.
    destruct (truthy_str (ch_content chunk)) eqn:Htruthy;
      cbn -[collect_deltas collect_chunks String.append fragments].
    + destruct (ch_content chunk) as [c|] eqn:Hc; [|done].
      assert (Hfrag : fragments (chunk :: chunks) = c :: fragments chunks).
      { unfold fragments. cbn [omap list_omap]. unfold truthy_part at 1.
        by rewrite Hc, Htruthy. }
      rewrite Hfrag. cbn -[collect_deltas collect_chunks String.append fragments].
      destruct (collect_chunk_deltas slots (ch_tool_calls chunk) (emit (content_step c) w))
        as (s1 & w2 & steps1 & -> & He2 & Hnone).
      intros Hrest. apply IH in Hrest as (-> & steps2 & He & Hc2).
      split; [by rewrite append_assoc|].
      exists (content_step c :: steps1 ++ steps2).
      rewrite He, He2. simpl. rewrite <- !app_assoc. split; [done|].
      rewrite content_steps_app, Hnone. simpl. by rewrite Hc2.
    + assert (Hfrag : fragments (chunk :: chunks) = fragments chunks).
      { unfold fragments. cbn [omap list_omap]. unfold truthy_part at 1.
        by rewrite Htruthy. }
      rewrite Hfrag.
      destruct (collect_chunk_deltas slots (ch_tool_calls chunk) w)
        as (s1 & w2 & steps1 & -> & He2 & Hnone).
      intros Hrest. apply IH in Hrest as (-> & steps2 & He & Hc2).
      split; [done|].
      exists (steps1 ++ steps2).
      rewrite He, He2. rewrite <- !app_assoc. split; [done|].
      by rewrite content_steps_app, Hnone.
Qed.

(* ===================================================================== *)
(** * What a stream gathers: tool calls *)
(* ===================================================================== *)

Lemma slot_at_pad slots j i : slot_at (pad_slots slots j) i = slot_at slots i.
Proof.
  unfold slot_at, pad_slots.
  destruct (decide (i < length slots)%nat) as [Hlt|Hge].
  - by rewrite lookup_app_l.
  - rewrite lookup_app_r by lia.
    rewrite (lookup_ge_None_2 slots i) by lia. simpl.
    destruct (replicate _ _ !! _) as [x|] eqn:Hx; [|done].
    by apply lookup_replicate in Hx as [-> _].
Qed.

Lemma pad_slots_length slots j : (j < length (pad_slots slots j))%nat.
Proof. unfold pad_slots. rewrite length_app, length_replicate. lia. Qed.

Lemma slot_at_absorb slots d i :
  slot_at (absorb_delta slots d) i
  = if decide (td_index d = i) then merge_delta (slot_at slots i) d else slot_at slots i.
Proof.
  unfold absorb_delta. destruct (decide (td_index d = i)) as [<-|Hne].
  - unfold slot_at at 1. rewrite list_lookup_insert_eq by apply pad_slots_length.
    simpl. by rewrite slot_at_pad.
  - unfold slot_at at 1. rewrite list_lookup_insert_ne by done.
    apply slot_at_pad.
Qed.

Lemma collect_deltas_absorb slots ds w slots' w' :
  collect_deltas slots ds w = (Done slots', w') → slots' = foldl absorb_delta slots ds.
Proof.
  revert slots w. induction ds as [|d ds IH]; intros slots w; simpl.
  - by intros [= <- <-].
  - unfold mbind, M_bind, bind, collect_delta.
    destruct (negb _); simpl; intros Hrest; apply IH in Hrest; exact Hrest.
Qed.

Lemma collect_chunks_absorb content slots chunks w content' slots' w' :
  collect_chunks content slots chunks w = (Done (content', slots'), w') →
  slots' = foldl absorb_delta slots (deltas chunks).
Proof.
  revert content slots w. induction chunks as [|chunk chunks IH]; intros content slots w.
  - by intros [= <- <- <-].
  - cbn [collect_chunks]. unfold mbind, M_bind, bind, deltas. cbn [map concat].
    rewrite foldl_app. fold (deltas chunks).
    destruct (if truthy_str (ch_content chunk) then _ else _) as [[c1| |] w1] eqn:H1;
      [|done..].
    cbn -[collect_deltas collect_chunks String.append].
    destruct (ch_tool_calls chunk) as [[|d ds]|]; cbn -[collect_deltas collect_chunks].
    1,3: by intros Hrest; apply IH in Hrest.
    destruct (collect_deltas slots (d :: ds) w1) as [[s1| |] w2] eqn:H2; [|done..].
    apply collect_deltas_absorb in H2 as ->.
    cbn -[collect_deltas collect_chunks].
    intros Hrest. by apply IH in Hrest.
Qed.

Lemma arguments_absorbed i ds slots :
  tc_arguments (slot_at (foldl absorb_delta slots ds) i)
  = tc_arguments (slot_at slots i) +:+ glue (parts_at td_arguments i ds).
Proof.
  revert slots. induction ds as [|d ds IH]; intros slots; simpl.
  - by rewrite append_nil_r.
  - rewrite IH, slot_at_absorb. unfold parts_at. cbn [omap list_omap].
    destruct (decide (td_index d = i)) as [Hi|Hi]; [|done].
    unfold truthy_part, td_arguments, merge_delta. simpl.
    destruct (td_function d) as [[name arguments]|]; [|done].
    destruct (truthy_str arguments) eqn:Ht; [|done].
    destruct arguments as [a|]; [|done]. simpl.
    by rewrite append_assoc.
Qed.

Lemma default_last_cons {A} (a x : A) l : default a (last (x :: l)) = default x (last l).
Proof.
  destruct l as [|y l]; [done|]. simpl.
  by destruct (last (y :: l)) eqn:H; [|by apply last_None in H].
Qed.

Lemma field_absorbed (field : ToolCallDelta → option string) (get : ToolCall → string) i ds :
  (∀ slot d, get (merge_delta slot d) = default (get slot) (truthy_part (field d))) →
  ∀ slots, get (slot_at (foldl absorb_delta slots ds) i)
           = default (get (slot_at slots i)) (last (parts_at field i ds)).
Proof.
  intros Hget. induction ds as [|d ds IH]; intros slots; simpl; [done|].
  rewrite IH, slot_at_absorb. unfold parts_at. cbn [omap list_omap].
  destruct (decide (td_index d = i)) as [Hi|Hi]; [|done].
  rewrite Hget. destruct (truthy_part (field d)) as [x|]; [|done].
  simpl. fold (parts_at field i ds). by rewrite default_last_cons.
Qed.

Lemma id_merged slot d :
  tc_id (merge_delta slot d) = default (tc_id slot) (truthy_part (td_id d)).
Proof.
  unfold truthy_part. simpl. destruct (truthy_str (td_id d)) eqn:H; [|done].
  by destruct (td_id d).
Qed.

Lemma type_merged slot d :
  tc_type (merge_delta slot d) = default (tc_type slot) (truthy_part (td_type d)).
Proof.
  unfold truthy_part. simpl. destruct (truthy_str (td_type d)) eqn:H; [|done].
  by destruct (td_type d).
Qed.

Lemma name_merged slot d :
  tc_name (merge_delta slot d) = default (tc_name slot) (truthy_part (td_name d)).
Proof.
  unfold truthy_part, td_name. simpl. destruct (td_function d) as [[name arguments]|]; [|done].
  destruct (truthy_str name) eqn:H; [|done]. by destruct name.
Qed.

Lemma absorb_delta_length slots d :
  length (absorb_delta slots d) = (length slots `max` S (td_index d))%nat.
Proof.
  unfold absorb_delta, pad_slots. rewrite length_insert, length_app, length_replicate. lia.
Qed.

Lemma absorbed_length ds slots :
  length (foldl absorb_delta slots ds)
  = (length slots `max` max_list (map (λ d, S (td_index d)) ds))%nat.
Proof.
  revert slots. induction ds as [|d ds IH]; intros slots; simpl; [lia|].
  rewrite IH, absorb_delta_length. lia.
Qed.

(** X16: a stream builds one tool call per index up to the highest index
    its fragments address.  The call at an index has the last id, type and
    name addressed to that index, and as arguments the argument fragments
    addressed to it, put one after the other in order of arrival, whatever
    fragments for other indexes come between. *)
Theorem tool_calls_gathered_by_index content chunks w content' slots' w' :
  collect_chunks content [] chunks w = (Done (content', slots'), w') →
  length slots' = max_list (map (λ d, S (td_index d)) (deltas chunks))
  ∧ ∀ i, tc_id (slot_at slots' i) = default "" (last (parts_at td_id i (deltas chunks)))
       ∧ tc_type (slot_at slots' i) = default "" (last (parts_at td_type i (deltas chunks)))
       ∧ tc_name (slot_at slots' i) = default "" (last (parts_at td_name i (deltas chunks)))
       ∧ tc_arguments (slot_at slots' i) = glue (parts_at td_arguments i (deltas chunks)).
Proof.
  intros ->%collect_chunks_absorb. split; [by rewrite absorbed_length|].
  intros i.
  rewrite (field_absorbed td_id tc_id i _ id_merged).
  rewrite (field_absorbed td_type tc_type i _ type_merged).
  rewrite (field_absorbed td_name tc_name i _ name_merged).
  rewrite arguments_absorbed.
  unfold slot_at. by rewrite lookup_nil.
Qed.

(* ===================================================================== *)
(** * Validation rules and function schemas *)
(* ===================================================================== *)

Lemma run_rules_decided E rules text errs :
  Forall (decides text) rules →
  run_rules E rules text errs = inl (errs ++ complaints rules text).
Proof.
  revert errs. induction rules as [|rule rules IH]; intros errs Hd; simpl.
  - by rewrite app_nil_r.
  - apply Forall_cons in Hd as [[isValid Hv] Hd].
    assert (Hp : passes text rule = isValid) by (unfold passes; by rewrite Hv).
    rewrite Hv, IH by done. clear Hv. unfold complaints. rewrite filter_cons.
    destruct (decide (passes text rule = false)) as [Hf|Hf]; rewrite Hp in Hf;
      destruct isValid; try done.
    rewrite fmap_cons. by rewrite <- app_assoc.
Qed.

Lemma complaints_none rules text :
  complaints rules text = [] ↔ Forall (λ rule, passes text rule = true) rules.
Proof.
  unfold complaints. induction rules as [|rule rules IH]; simpl; [done|].
  rewrite filter_cons, Forall_cons.
  destruct (decide (passes text rule = false)) as [Hf|Hp]; simpl.
  - split; [done|]. intros [Hp _]. congruence.
  - rewrite IH. destruct (passes text rule); [|done]. split; [done|by intros [_ ?]].
Qed.

Lemma validate_decided E rules text :
  Forall (decides text) rules →
  ∃ result, validate E (Some rules) text = inl result
            ∧ errors result = complaints rules text
            ∧ (valid result = true ↔ Forall (λ rule, passes text rule = true) rules).
Proof.
  intros Hd. destruct rules as [|rule rules].
  - eexists. split; [done|]. simpl. split; [done|]. done.
  - unfold validate. rewrite run_rules_decided by done. simpl.
    eexists. split; [done|]. simpl. split; [done|].
    rewrite <- complaints_none, bool_decide_eq_true.
    by rewrite length_zero_iff_nil.
Qed.

(** X17: input validation runs every rule, not only up to the first
    failure: when no validator throws, the errors are the messages of all
    the rules the input does not pass, in rule order, and the input is
    valid exactly when it passes every rule. *)
Theorem every_rule_is_run E a text rules :
  inputValidation (ag_guardrails a) = Some rules →
  Forall (decides text) rules →
  ∃ result, validateInput E a text = inl result
            ∧ errors result = complaints rules text
            ∧ (valid result = true ↔ Forall (λ rule, passes text rule = true) rules).
Proof.
  intros Hrules Hd. unfold validateInput. rewrite Hrules. by apply validate_decided.
Qed.

Lemma run_rules_grows E rules text errs errs' :
  run_rules E rules text errs = inl errs' → ∃ more, errs' = errs ++ more.
Proof.
  revert errs. induction rules as [|rule rules IH]; intros errs; simpl.
  - intros [= <-]. exists []. by rewrite app_nil_r.
  - destruct (rule_validator rule text) as [[|]|e].
    + apply IH.
    + intros (more & ->)%IH. eexists. by rewrite <- app_assoc.
    + destruct (String_thrown E e) as [s|]; [|done].
      intros (more & ->)%IH. eexists. by rewrite <- app_assoc.
Qed.

Lemma run_rules_thrown E rules text errs errs' rule e s :
  run_rules E rules text errs = inl errs' →
  rule ∈ rules → rule_validator rule text = inr e → String_thrown E e = inl s →
  "Validation error in rule " +:+ rule_name rule +:+ ": " +:+ s ∈ errs'.
Proof.
  revert errs. induction rules as [|rule' rules IH]; intros errs Hrun Hin Hv Hs.
  - by apply elem_of_nil in Hin.
  - apply elem_of_cons in Hin as [<-|Hin].
    + simpl in Hrun. rewrite Hv, Hs in Hrun.
      apply run_rules_grows in Hrun as (more & ->).
      rewrite <- app_assoc. apply elem_of_app. right. apply elem_of_cons. by left.
    + simpl in Hrun. destruct (rule_validator rule' text) as [isValid|e'].
      * by eapply IH.
      * destruct (String_thrown E e') as [s'|]; [|done]. by eapply IH.
Qed.

(** X18: a validator that throws does not stop output validation; the
    output is then invalid, and the errors name the rule and the thrown
    value. *)
Theorem throwing_rule_fails_validation E a text rules rule e s result :
  outputValidation (ag_guardrails a) = Some rules →
  rule ∈ rules →
  rule_validator rule text = inr e →
  String_thrown E e = inl s →
  validateOutput E a text = inl result →
  valid result = false
  ∧ "Validation error in rule " +:+ rule_name rule +:+ ": " +:+ s ∈ errors result.
Proof.
  intros Hrules Hin Hv Hs. unfold validateOutput, validate. rewrite Hrules.
  destruct rules as [|rule' rules]; [by apply elem_of_nil in Hin|].
  destruct (run_rules E (rule' :: rules) text []) as [errs|] eqn:Hrun; [|done].
  intros [= <-]. simpl.
  pose proof (run_rules_thrown _ _ _ _ _ _ _ _ Hrun Hin Hv Hs) as Hmem.
  split; [|done]. apply bool_decide_eq_false. intros Hlen.
  apply length_zero_iff_nil in Hlen. rewrite Hlen in Hmem. by apply elem_of_nil in Hmem.
Qed.

Lemma obj_get_set_eq k v props : obj_get k (obj_set k v props) = Some v.
Proof.
  induction props as [|[k' v'] props IH]; simpl.
  - by rewrite String.eqb_refl.
  - destruct (String.eqb_spec k k') as [->|Hne]; simpl.
    + by rewrite String.eqb_refl.
    + by destruct (String.eqb_spec k k').
Qed.

Lemma obj_get_set_ne k k' v props : k' ≠ k → obj_get k' (obj_set k v props) = obj_get k' props.
Proof.
  intros Hne. induction props as [|[k0 v0] props IH]; simpl.
  - by destruct (String.eqb_spec k' k).
  - destruct (String.eqb_spec k k0) as [->|Hne0]; simpl.
    + by destruct (String.eqb_spec k' k0).
    + by rewrite IH.
Qed.

Lemma properties_fold (params : list string) acc p :
  obj_get p
    (fold_left (λ acc param,
                  if String.eqb param "context_variables" then acc
                  else obj_set param (JObj [("type", JStr "string")]) acc) params acc)
  = if decide (p ∈ params ∧ p ≠ "context_variables")
    then Some (JObj [("type", JStr "string")])
    else obj_get p acc.
Proof.
  revert acc. induction params as [|param params IH]; intros acc; cbn [fold_left].
  - rewrite decide_False; [done|]. intros [Hin _]. by apply elem_of_nil in Hin.
  - rewrite IH. destruct (decide (p ∈ params ∧ p ≠ "context_variables")) as [[Hin Hne]|Hno].
    + rewrite decide_True; [done|]. split; [by apply elem_of_cons; right|done].
    + destruct (String.eqb_spec param "context_variables") as [->|Hparam].
      * rewrite decide_False; [done|]. intros [[->|Hin]%elem_of_cons Hne]; [done|].
        apply Hno. by split.
      * destruct (decide (p = param)) as [->|Hp].
        -- rewrite obj_get_set_eq, decide_True; [done|]. split; [by apply elem_of_cons; left|done].
        -- rewrite obj_get_set_ne by done. rewrite decide_False; [done|].
           intros [[->|Hin]%elem_of_cons Hne]; [done|]. apply Hno. by split.
Qed.

(** X19: the schema built for a JavaScript function declares each of its
    parameters as a string, except [context_variables], which the schema
    never shows; it declares nothing else. *)
Theorem context_parameter_is_hidden a f :
  FnCallable f ∈ ag_functions a →
  ∃ schema properties,
    schema ∈ getFunctionSchemas a
    ∧ js_path ["function"; "name"] schema = Some (JStr (fn_name f))
    ∧ js_path ["function"; "parameters"; "properties"] schema = Some (JObj properties)
    ∧ obj_get "context_variables" properties = None
    ∧ ∀ p, p ≠ "context_variables" →
           obj_get p properties
           = if decide (p ∈ fn_params f) then Some (JObj [("type", JStr "string")]) else None.
Proof.
  intros Hin. eexists (schema_of f), _. split.
  { unfold getFunctionSchemas. apply list_elem_of_fmap. by exists (FnCallable f). }
  split; [done|]. split; [reflexivity|]. split.
  - rewrite properties_fold. rewrite decide_False; [done|]. by intros [_ ?].
  - intros p Hp. rewrite properties_fold.
    destruct (decide (p ∈ fn_params f)) as [Hin'|Hout].
    + by rewrite decide_True.
    + rewrite decide_False; [done|]. by intros [? _].
Qed.

(* ===================================================================== *)
(** * The hand-over helpers in action dispatch *)
(* ===================================================================== *)

Lemma functionMap_build_last others f :
  functionMap_build (others ++ [FnCallable f]) !! fn_name f = Some f.
Proof.
  unfold functionMap_build. rewrite fold_left_app. simpl. apply lookup_insert_eq.
Qed.

Lemma single_call_returns E fns c tc w f values returned serialized result :
  tc_type tc = "function" →
  functionMap_build fns !! tc_name tc = Some f →
  argument_values E (tc_arguments tc) = inl values →
  fn_call f c values = Returns returned →
  serializeResult E returned = inl serialized →
  handleFunctionResult E returned (tc_name tc) (tc_id tc) = inl result →
  ∃ w', handleToolCalls E [tc] fns c w = (Done (absorb no_response result), w')
        ∧ invoked w' = invoked w ++ [(tc_name tc, Returns returned)].
Proof.
  intros Ht Hf Hargs Hcall Hser Hres. unfold handleToolCalls. simpl.
  destruct (dispatch_function E (functionMap_build fns) c no_response tc w f Ht Hf)
    as (w1 & Hi1 & Hd).
  unfold mbind, M_bind, bind. fold no_response. rewrite Hd.
  unfold try_catch, attempt. unfold argument_values in Hargs.
  destruct (JSON_parse E (tc_arguments tc)) as [parsedArgs|]; [|done].
  msimpl. rewrite Hargs. msimpl. unfold invoke. rewrite Hcall.
  unfold mbind, M_bind, bind, update, mret, M_ret, ret, addEvent. simpl.
  rewrite Hser. simpl. rewrite Hres. simpl.
  eexists. split; [done|].
  destruct (enabled (tracer w1)); simpl; by rewrite Hi1.
Qed.

(** X20: a call of [handoff] is served by the last function made by
    [createHandoffFunction] in the executor's list (all of them are declared
    under that one name): the run is handed to its target, the context
    update is laid over the current context, and the call is answered by
    an empty tool message. *)
Theorem handoff_function_hands_over E others target update c tc w values :
  tc_type tc = "function" →
  tc_name tc = "handoff" →
  argument_values E (tc_arguments tc) = inl values →
  ∃ w', handleToolCalls E [tc] (others ++ [FnCallable (createHandoffFunction target update)]) c w
        = (Done {| tr_messages := [tool_message "" "handoff" (tc_id tc)];
                   tr_agent := Some target;
                   tr_context_variables := handoff_context update c |}, w').
Proof.
  intros Ht Hname Hargs.
  destruct (single_call_returns E
    (others ++ [FnCallable (createHandoffFunction target update)]) c tc w
    (createHandoffFunction target update) values
    (RetResult (handoff_result target update c))
    (JObj [("value", JUndefined); ("agent", JStr (ag_name (agents E target)));
           ("context_variables", ctx_to_js (handoff_context update c))])
    {| hr_message := Some (tool_message "" "handoff" (tc_id tc));
       hr_agent := Some target; hr_context_variables := handoff_context update c |})
    as (w' & Hrun & _); try done.
  - rewrite Hname. apply (functionMap_build_last others (createHandoffFunction target update)).
  - by rewrite Hname.
  - exists w'. rewrite Hrun. unfold absorb. simpl. by rewrite spread_empty_l.
Qed.

Lemma conditionalHandoff_first before chosen after c :
  Forall (λ x, condition x c = inl false) before →
  condition chosen c = inl true →
  conditionalHandoff (before ++ chosen :: after) c
  = Returns (RetResult (handoff_result (targetAgent chosen) (updateContextVariables chosen) c)).
Proof.
  intros Hb Hc. induction Hb as [|x before Hx _ IH]; simpl.
  - by rewrite Hc.
  - by rewrite Hx.
Qed.

Lemma conditionalHandoff_none conditions c :
  Forall (λ x, condition x c = inl false) conditions →
  conditionalHandoff conditions c = Returns (RetValue JNull).
Proof. intros Hb. induction Hb as [|x before Hx _ IH]; simpl; [done|]. by rewrite Hx. Qed.

(** X21: a conditional hand-over goes to the target of the first condition
    that holds of the current context, later conditions that hold as well
    notwithstanding. *)
Theorem conditional_handoff_first_match E others before chosen after c tc w values :
  tc_type tc = "function" →
  tc_name tc = "conditionalHandoff" →
  argument_values E (tc_arguments tc) = inl values →
  Forall (λ x, condition x c = inl false) before →
  condition chosen c = inl true →
  ∃ w', handleToolCalls E [tc]
          (others ++ [FnCallable (createConditionalHandoff (before ++ chosen :: after))]) c w
        = (Done {| tr_messages := [tool_message "" "conditionalHandoff" (tc_id tc)];
                   tr_agent := Some (targetAgent chosen);
                   tr_context_variables := handoff_context (updateContextVariables chosen) c |},
           w').
Proof.
  intros Ht Hname Hargs Hb Hc.
  set (f := createConditionalHandoff (before ++ chosen :: after)).
  destruct (single_call_returns E (others ++ [FnCallable f]) c tc w f values
    (RetResult (handoff_result (targetAgent chosen) (updateContextVariables chosen) c))
    (JObj [("value", JUndefined); ("agent", JStr (ag_name (agents E (targetAgent chosen))));
           ("context_variables", ctx_to_js (handoff_context (updateContextVariables chosen) c))])
    {| hr_message := Some (tool_message "" "conditionalHandoff" (tc_id tc));
       hr_agent := Some (targetAgent chosen);
       hr_context_variables := handoff_context (updateContextVariables chosen) c |})
    as (w' & Hrun & _); try done.
  - rewrite Hname. apply (functionMap_build_last others f).
  - by apply conditionalHandoff_first.
  - by rewrite Hname.
  - exists w'. rewrite Hrun. unfold absorb. simpl. by rewrite spread_empty_l.
Qed.

(** X22: when no condition holds, a conditional hand-over hands the run to
    nobody and changes no context variable; its call is answered by the
    tool message [null]. *)
Theorem conditional_handoff_no_match E others conditions c tc w values :
  tc_type tc = "function" →
  tc_name tc = "conditionalHandoff" →
  argument_values E (tc_arguments tc) = inl values →
  Forall (λ x, condition x c = inl false) conditions →
  ∃ w', handleToolCalls E [tc] (others ++ [FnCallable (createConditionalHandoff conditions)]) c w
        = (Done {| tr_messages := [tool_message "null" "conditionalHandoff" (tc_id tc)];
                   tr_agent := None; tr_context_variables := ∅ |}, w').
Proof.
  intros Ht Hname Hargs Hb.
  set (f := createConditionalHandoff conditions).
  destruct (single_call_returns E (others ++ [FnCallable f]) c tc w f values
    (RetValue JNull) (JStr "null")
    {| hr_message := Some (tool_message "null" "conditionalHandoff" (tc_id tc));
       hr_agent := None; hr_context_variables := ∅ |})
    as (w' & Hrun & _); try done.
  - rewrite Hname. apply (functionMap_build_last others f).
  - by apply conditionalHandoff_none.
  - by rewrite Hname.
  - exists w'. rewrite Hrun. unfold absorb. simpl. by rewrite spread_empty_l.
Qed.

(* ===================================================================== *)
(** * Guardrails *)
(* ===================================================================== *)

Lemma check_rules_agree E rules text errs1 errs2 :
  length errs1 = length errs2 →
  match run_rules E rules text errs1, Guardrails.check_rules E rules text errs2 with
  | inl r1, inl r2 => length r1 = length r2
  | inr e1, inr e2 => e1 = e2
  | _, _ => False
  end.
Proof.
  revert errs1 errs2. induction rules as [|rule rules IH]; intros errs1 errs2 Hlen; simpl.
  - done.
  - destruct (rule_validator rule text) as [[|]|e].
    + by apply IH.
    + apply IH. rewrite !length_app. simpl. lia.
    + destruct (String_thrown E e) as [s|e']; [|done].
      apply IH. rewrite !length_app. simpl. lia.
Qed.

Lemma check_rules_decided E rules text errs :
  Forall (decides text) rules →
  Guardrails.check_rules E rules text errs = inl (errs ++ complaints rules text).
Proof.
  revert errs. induction rules as [|rule rules IH]; intros errs Hd; simpl.
  - by rewrite app_nil_r.
  - apply Forall_cons in Hd as [[isValid Hv] Hd].
    assert (Hp : passes text rule = isValid) by (unfold passes; by rewrite Hv).
    rewrite Hv, IH by done. clear Hv. unfold complaints. rewrite filter_cons.
    destruct (decide (passes text rule = false)) as [Hf|Hf]; rewrite Hp in Hf;
      destruct isValid; try done.
    rewrite fmap_cons. by rewrite <- app_assoc.
Qed.

(** X23: the guardrail class [InputValidator] and an executor's own input
    validation judge alike: over the same non-empty rules both return or
    both throw the same value, they agree on [valid] and on the number of
    errors, and on the errors themselves when no validator throws (the two
    word a thrown value differently). *)
Theorem validators_agree E a rules text :
  inputValidation (ag_guardrails a) = Some rules →
  match validateInput E a text, Guardrails.InputValidator_validate E rules text with
  | inl r1, inl r2 =>
      valid r1 = valid r2 ∧ length (errors r1) = length (errors r2)
      ∧ (Forall (decides text) rules → errors r1 = errors r2)
  | inr e1, inr e2 => e1 = e2
  | _, _ => False
  end.
Proof.
  intros Hrules. unfold validateInput, validate, Guardrails.InputValidator_validate.
  rewrite Hrules. destruct rules as [|rule rules]; [done|].
  pose proof (check_rules_agree E (rule :: rules) text [] [] eq_refl) as Hagree.
  pose proof (run_rules_decided E (rule :: rules) text []) as H1.
  pose proof (check_rules_decided E (rule :: rules) text []) as H2.
  destruct (run_rules E (rule :: rules) text []) as [r1|e1],
    (Guardrails.check_rules E (rule :: rules) text []) as [r2|e2]; try done.
  simpl. split; [by rewrite Hagree|]. split; [done|].
  intros Hd. specialize (H1 Hd). specialize (H2 Hd). congruence.
Qed.




Lemma check_safety_spec rules content issues :
  Guardrails.check_safety rules content issues
  = issues ++ map (λ rule, (rule, false)) (filter (λ rule, cleared content rule = false) rules).
Proof.
  revert issues. induction rules as [|rule rules IH]; intros issues; simpl.
  - by rewrite app_nil_r.
  - rewrite filter_cons.
    destruct (decide (cleared content rule = false)) as [Hc|Hc]; unfold cleared in Hc;
      destruct (Guardrails.sc_checker rule content) as [[|]|e]; try done; rewrite IH;
      try done; rewrite fmap_cons; by rewrite <- app_assoc.
Qed.

(** X25: a safety check reports exactly the rules whose checker returns
    false or throws, in rule order and each with the result [false]; the
    content is safe exactly when every checker returns true.  A checker
    that throws is an issue like any other. *)
Theorem safety_issues_are_failed_rules rules content :
  Guardrails.issues (Guardrails.SafetyChecker_check rules content)
  = map (λ rule, (rule, false)) (filter (λ rule, cleared content rule = false) rules)
  ∧ (Guardrails.safe (Guardrails.SafetyChecker_check rules content) = true
     ↔ Forall (λ rule, Guardrails.sc_checker rule content = inl true) rules).
Proof.
  unfold Guardrails.SafetyChecker_check. simpl. rewrite check_safety_spec. simpl.
  split; [done|]. rewrite bool_decide_eq_true, length_map, length_zero_iff_nil.
  induction rules as [|rule rules IH]; [done|].
  rewrite filter_cons, Forall_cons.
  destruct (decide (cleared content rule = false)) as [Hc|Hc]; unfold cleared in Hc;
    destruct (Guardrails.sc_checker rule content) as [[|]|e]; try done.
  - split; [done|]. by intros [? _].
  - split; [done|]. by intros [? _].
  - rewrite IH. by split; [|intros [_ ?]].
Qed.

(* ===================================================================== *)
(** * The frame of a trace *)
(* ===================================================================== *)

#[global] Instance trace_grows_preorder : PreOrder trace_grows.
Proof.
  split.
  - intros w. split; [done|]. exists []. by rewrite app_nil_r.
  - intros w1 w2 w3 [E1 [m1 H1]] [E2 [m2 H2]]. split; [congruence|].
    exists (m1 ++ m2). by rewrite H2, H1, app_assoc.
Qed.




(* ===================================================================== *)
(** * The origin named by hand-over steps *)
(* ===================================================================== *)

#[global] Instance yields_from_preorder name : PreOrder (yields_from name).
Proof.
  split.
  - intros w. exists []. by rewrite app_nil_r.
  - intros w1 w2 w3 (s1 & H1 & F1) (s2 & H2 & F2). exists (s1 ++ s2).
    rewrite H2, H1, app_assoc. split; [done|]. by apply Forall_app.
Qed.

Lemma silent_yields_from {A} name (m : M A) :
  preserves (kept emitted) m → preserves (yields_from name) m.
Proof. intros H w. exists []. rewrite app_nil_r. split; [apply H|done]. Qed.

Lemma emit_yields_from name s :
  hands_from name s → preserves (yields_from name) (update (emit s)).
Proof. intros H w. exists [s]. split; [done|]. by constructor. Qed.

Lemma emit_all_yields_from name (l : list Message) :
  preserves (yields_from name)
    (update (λ w, fold_left (λ w m, emit (tool_response m) w) l w)).
Proof.
  intros w. unfold update. simpl. revert w.
  induction l as [|m l IH]; intros w; simpl; [reflexivity|].
  etrans; [|apply IH]. exists [tool_response m]. split; [done|]. by constructor.
Qed.

Ltac no_step := apply silent_yields_from; solve [eauto with frame].

Lemma tool_round_yields_from E initial st tcs :
  preserves (yields_from initial) (tool_round E (Some initial) st tcs).
Proof.
  unfold tool_round.
  apply preserves_bind; [apply _ | no_step | intros context].
  apply preserves_bind; [apply _ | no_step | intros toolCallResult].
  apply preserves_bind; [apply _ | no_step | intros history].
  apply preserves_bind; [apply _ | no_step | intros messages'].
  apply preserves_bind; [apply _ | apply emit_all_yields_from | intros _].
  apply preserves_bind; [apply _ | no_step | intros context0].
  apply preserves_bind; [apply _ | no_step | intros context'].
  destruct (tr_agent toolCallResult) as [next|]; [|apply preserves_ret, _].
  apply preserves_bind; [apply _ | no_step | intros _].
  apply preserves_bind; [apply _ | by apply emit_yields_from | intros _].
  apply preserves_ret, _.
Qed.

Lemma collect_deltas_yields_from name slots ds :
  preserves (yields_from name) (collect_deltas slots ds).
Proof.
  revert slots. induction ds as [|d ds IH]; intros slots; simpl; [apply preserves_ret, _|].
  apply preserves_bind; [apply _ | | done].
  unfold collect_delta. apply preserves_bind; [apply _ | | intros _; apply preserves_ret, _].
  destruct (negb _); [by apply emit_yields_from | apply preserves_ret, _].
Qed.

Lemma collect_chunks_yields_from name content slots chunks :
  preserves (yields_from name) (collect_chunks content slots chunks).
Proof.
  revert content slots. induction chunks as [|chunk chunks IH]; intros content slots;
    cbn [collect_chunks]; [apply preserves_ret, _|].
  apply preserves_bind; [apply _ | | intros content'].
  { destruct (truthy_str _); [|apply preserves_ret, _].
    apply preserves_bind; [apply _ | by apply emit_yields_from | intros _].
    apply preserves_ret, _. }
  apply preserves_bind; [apply _ | | done].
  destruct (ch_tool_calls chunk) as [[|d ds]|]; try apply preserves_ret, _.
  apply collect_deltas_yields_from.
Qed.

Lemma stream_iteration_yields_from E et mo initial st :
  preserves (yields_from initial) (stream_iteration E et mo initial st).
Proof.
  unfold stream_iteration.
  apply preserves_bind; [apply _ | no_step | intros history].
  apply preserves_bind; [apply _ | no_step | intros _].
  apply preserves_bind; [apply _ | by apply emit_yields_from | intros _].
  apply preserves_try_catch; [apply _ | |].
  - apply preserves_bind; [apply _ | no_step | intros _].
    apply preserves_bind; [apply _ | no_step | intros context].
    apply preserves_bind; [apply _ | no_step | intros [chunks failure]].
    apply preserves_bind; [apply _ | apply collect_chunks_yields_from | intros [content tcs]].
    apply preserves_bind; [apply _ | | intros _].
    { destruct failure; [apply preserves_throw, _ | apply preserves_ret, _]. }
    apply preserves_bind; [apply _ | no_step | intros _].
    apply preserves_bind; [apply _ | by apply emit_yields_from | intros _].
    apply preserves_bind; [apply _ | no_step | intros failures].
    apply preserves_bind; [apply _ | | intros _].
    { destruct failures; [apply preserves_ret, _ | by apply emit_yields_from]. }
    destruct tcs as [|tc tcs]; [apply preserves_ret, _|].
    destruct et; [apply tool_round_yields_from | apply preserves_ret, _].
  - intros e.
    apply preserves_bind; [apply _ | apply preserves_lift, _ | intros text].
    apply preserves_bind; [apply _ | by apply emit_yields_from | intros _].
    apply preserves_ret, _.
Qed.

Lemma stream_loop_yields_from E fuel mt et mo initial st :
  preserves (yields_from initial) (stream_loop E fuel mt et mo initial st).
Proof.
  revert st. induction fuel as [|fuel IH]; intros st; simpl.
  - destruct (below _ _); [apply preserves_out_of_fuel, _ | apply preserves_ret, _].
  - destruct (below _ _); [|apply preserves_ret, _].
    apply preserves_bind; [apply _ | apply stream_iteration_yields_from | intros [next st']].
    destruct next; [apply IH | apply preserves_ret, _].
Qed.

(** X27: every [handoff] step a streaming run yields names the executor the
    run was started with as its origin, whichever executor handed over. *)
Theorem stream_handoff_steps_name_the_start E fuel agent messages context_variables
    max_turns execute_tools model_override w :
  ∃ steps,
    emitted (runWithStream E fuel agent messages context_variables max_turns execute_tools
                           model_override w).2 = emitted w ++ steps
    ∧ ∀ from to, handoff_step from to ∈ steps → from = ag_name (agents E agent).
Proof.
  assert (H : preserves (yields_from (ag_name (agents E agent)))
                (runWithStream E fuel agent messages context_variables max_turns
                               execute_tools model_override)).
  { unfold runWithStream.
    apply preserves_bind; [apply _ | no_step | intros _].
    apply preserves_bind; [apply _ | no_step | intros input].
    apply preserves_bind; [apply _ | no_step | intros messagesCopy].
    apply preserves_bind; [apply _ | no_step | intros context].
    apply preserves_bind; [apply _ | no_step | intros contextCopy].
    apply preserves_bind; [apply _ | apply preserves_lift, _ | intros systemInstructions].
    apply preserves_bind; [apply _ | no_step | intros _].
    apply preserves_bind; [apply _ | apply stream_loop_yields_from | intros st].
    apply preserves_bind; [apply _ | no_step | intros _].
    apply preserves_bind; [apply _ | apply preserves_get_world, _ | intros w0].
    by apply emit_yields_from. }
  destruct (H w) as (steps & Hsteps & Hall). exists steps. split; [done|].
  intros from to Hin. rewrite Forall_forall in Hall. exact (Hall _ Hin).
Qed.

(* ===================================================================== *)
(** * What the provider is sent *)
(* ===================================================================== *)

Lemma sends_over_kept E input mo w w' : requests w' = requests w → sends_over E input mo w w'.
Proof. intros H. exists []. by rewrite app_nil_r. Qed.

Lemma sends_over_trans E input mo w1 w2 w3 :
  sends_over E input mo w1 w2 → sends_over E input mo w2 w3 → sends_over E input mo w1 w3.
Proof.
  intros (s1 & H1 & F1) (s2 & H2 & F2). exists (s1 ++ s2).
  rewrite H2, H1, app_assoc. split; [done|]. by apply Forall_app.
Qed.

Section requests.
Context (E : Env) (messages context_variables : loc)
        (input : list Message) (context : Ctx) (mo : option string).

Lemma run_iteration_requests et st w :
  works_on_copy messages context_variables input context st w →
  sends_over E input mo w (run_iteration E et mo st w).2.
Proof.
  intros (_ & _ & app & Hcur). unfold run_iteration.
  mstep as history w1 H1.
  mstep as [] w2 H2; [|apply sends_over_kept; simpl; congruence].
  mstep as [] w3 H3.
  mstep as context' w4 H4.
  assert (Hr4 : requests w4 = requests w) by congruence.
  assert (Ha4 : arrays w4 !! currentMessages st = Some (input ++ app)).
  { assert (arrays w4 = arrays w) as -> by congruence. exact Hcur. }
  assert (Hsent : sends_over E input mo w
    (getChatCompletion E (agents E (currentAgent st)) (currentMessages st) context' mo w4).2).
  { rewrite getChatCompletion_unfold.
    destruct (getInstructions _ _) as [instr|e]; simpl.
    - rewrite Ha4. simpl.
      exists [createParams (agents E (currentAgent st)) instr (input ++ app) mo false].
      simpl. rewrite Hr4. split; [done|].
      constructor; [|done]. by exists (currentAgent st), instr, app.
    - by apply sends_over_kept. }
  assert (Hfrom : ∀ w5 w', sends_over E input mo w w5 → requests w' = requests w5 →
                           sends_over E input mo w w').
  { intros w5 w' (s & Hs & F) Hw'. exists s. split; [congruence|done]. }
  mstep as reply w5 H5; simpl in Hsent; [|done].
  rename Hsent into H5'.
  mstep as failures w6 H6; [|simpl; eapply Hfrom; [exact H5'|congruence]].
  mstep as [] w7 H7.
  assert (H7' : sends_over E input mo w w7) by (eapply Hfrom; [exact H5'|congruence]).
  destruct (cp_tool_calls reply) as [[|tc tcs]|]; simpl; try done.
  destruct et; simpl; [|done].
  pose proof (tool_round_kept requests E None (bump st) (tc :: tcs)
                ltac:(done) ltac:(done) ltac:(done) ltac:(done) ltac:(done) w7) as Kreq.
  eapply Hfrom; [exact H7'|exact Kreq].
Qed.

Lemma run_loop_requests fuel mt et st w :
  works_on_copy messages context_variables input context st w →
  sends_over E input mo w (run_loop E fuel mt et mo st w).2.
Proof.
  revert st w. induction fuel as [|fuel IH]; intros st w Hc; simpl.
  - destruct (below _ _); simpl; by apply sends_over_kept.
  - destruct (below _ _); simpl; [|by apply sends_over_kept].
    pose proof (run_iteration_requests et st w Hc) as Hit.
    pose proof (run_iteration_copy E messages context_variables input context et mo st w Hc)
      as Hcopy.
    unfold mbind, M_bind, bind.
    destruct (run_iteration E et mo st w) as [[[next st1]|e|] w1]; simpl in *; try done.
    destruct Hcopy as [_ Hcopy]. specialize (Hcopy _ _ eq_refl).
    destruct next; [|done].
    eapply sends_over_trans; [exact Hit|]. by apply IH.
Qed.
End requests.

(** X28: every request a batched run sends is built for one of the
    executors from its rendered instructions and a history that begins with
    the caller's messages: the provider always sees a system message, then
    the caller's messages unchanged, then what the run appended; the model
    is the override when one is given; no request asks for a stream. *)
Theorem requests_extend_the_input E fuel agent messages context_variables max_turns
    execute_tools model_override w input context :
  arrays w !! messages = Some input →
  objects w !! context_variables = Some context →
  ∃ sent,
    requests (run E fuel agent messages context_variables max_turns execute_tools
                  model_override w).2 = requests w ++ sent
    ∧ ∀ rq, rq ∈ sent →
        ∃ ref instructions appended,
          rq = createParams (agents E ref) instructions (input ++ appended)
                            model_override false.
Proof.
  intros Ha Ho.
  assert (H : sends_over E input model_override w
                (run E fuel agent messages context_variables max_turns execute_tools
                     model_override w).2).
  { unfold run.
    mstep as [] w1 H1.
    mstep as input' w2 H2. apply read_array_inv in H2 as [-> ->].
    mstep as cur w3 H3. apply alloc_array_inv in H3 as (Hfresh & Harr & Hobj).
    mstep as context' w4 H4. apply read_object_inv in H4 as [-> ->].
    mstep as ctxc w5 H5. apply alloc_object_inv in H5 as (Hfresh' & Hobj' & Harr').
    assert (Ha1 : arrays w1 = arrays w) by congruence.
    assert (Ho3 : objects w3 = objects w) by congruence.
    rewrite Ha1 in Hfresh, Harr. rewrite Ha in Harr. rewrite Ho3 in Hfresh', Hobj'.
    rewrite Ho in Hobj'. simpl in *.
    assert (Hcur : cur ≠ messages) by (intros ->; congruence).
    assert (Hctx : ctxc ≠ context_variables) by (intros ->; congruence).
    mstep as instr w6 H6; [|apply sends_over_kept; simpl; congruence].
    mstep as [] w7 H7.
    assert (Hc7 : works_on_copy messages context_variables input context
              {| currentAgent := agent; currentMessages := cur;
                 currentContextVars := ctxc; turns := 0 |} w7).
    { assert (arrays w7 = <[cur:=input]> (arrays w)) as Ha7 by congruence.
      assert (objects w7 = <[ctxc:=context]> (objects w)) as Ho7 by congruence.
      split; [split|split]; simpl.
      - rewrite Ha7, lookup_insert_ne by done. done.
      - rewrite Ho7, lookup_insert_ne by done. done.
      - done.
      - exists []. by rewrite Ha7, lookup_insert_eq, app_nil_r. }
    pose proof (run_loop_requests E messages context_variables input context model_override
                  fuel max_turns execute_tools _ _ Hc7) as HL.
    assert (Hr7 : requests w7 = requests w) by congruence.
    assert (Hfrom : ∀ w8 w', sends_over E input model_override w7 w8 →
                             requests w' = requests w8 →
                             sends_over E input model_override w w').
    { intros w8 w' (s & Hs & F) Hw'. exists s. split; [congruence|done]. }
    mstep as st w8 H8; simpl in HL; [|by eapply Hfrom..].
    mstep as [] w9 H9.
    mstep as wf w10 H10. simpl. eapply Hfrom; [exact HL|congruence]. }
  destruct H as (sent & Hsent & Hall). exists sent. split; [done|].
  intros rq Hin. rewrite Forall_forall in Hall. exact (Hall _ Hin).
Qed.

(* ===================================================================== *)
(** * The scenarios, evaluated *)
(* ===================================================================== *)

Section evaluated.
Import Scenario.


(** Scenario A, run to its end: the returned list starts with the user
    message, and no system message is in it. *)
Lemma scenario_A_returns_no_system_message :
  ∃ resp w',
    run echo 1 0%nat 0%nat 0%nat Infinity true None world = (Done resp, w')
    ∧ arrays w' !! rs_messages resp
      = Some [user_message "Hi"; assistant_message (Some "Hello") None]
    ∧ ∀ instructions,
        arrays w' !! rs_messages resp
        ≠ Some [system_message instructions; user_message "Hi";
                assistant_message (Some "Hello") None].
Proof.
  eexists _, _. split; [vm_compute; reflexivity|].
  split; [vm_compute; reflexivity|].
  intros instructions. vm_compute. discriminate.
Qed.

Lemma scenario_A_plain_reply :
  ∃ resp w',
    run echo 1 0%nat 0%nat 0%nat Infinity true None world = (Done resp, w')
    ∧ arrays w' !! rs_messages resp
      = Some ([user_message "Hi"] ++ [assistant_message (Some "Hello") None])
    ∧ length (requests w') = 1%nat.
Proof.
  destruct (plain_reply_run echo 0 0%nat 0%nat 0%nat Infinity true None world
              "You are a helpful agent." {| valid := true; errors := [] |})
    as (resp & w' & Hrun & Hmsgs & _ & Hreq & _).
  - reflexivity.
  - reflexivity.
  - repeat constructor. intros _ _. by eexists.
  - reflexivity.
  - reflexivity.
  - exists resp, w'. split; [done|]. split; [exact Hmsgs|]. by rewrite Hreq.
Defined.

(** An action returns [{ toString: 1 }]: the run completes, with the
    failure reported in a tool message. *)
Lemma unconvertible_result_does_not_abort :
  ∃ resp w',
    run describes 2 0%nat 0%nat 0%nat Infinity true None world = (Done resp, w')
    ∧ tool_messages (default [] (arrays w' !! rs_messages resp))
      = [failure_message (call "c1" "describe")
           "Cannot convert object to primitive value"].
Proof. eexists _, _. split; vm_compute; reflexivity. Qed.

Lemma unconvertible_result_reported_witness :
  ∃ w', dispatch describes
          (functionMap_build (ag_functions (agents describes 0%nat))) ∅
          {| tr_messages := []; tr_agent := None; tr_context_variables := ∅ |}
          (call "c1" "describe") world
        = (Done (with_message
                   {| tr_messages := []; tr_agent := None; tr_context_variables := ∅ |}
                   (failure_message (call "c1" "describe")
                      "Cannot convert object to primitive value")), w').
Proof.
  by eapply (unconvertible_result_reported describes _ ∅ _ (call "c1" "describe") world
               _ (JObj []) [] unconvertible).
Defined.

(** The front desk hands over to the strict executor: the run aborts on
    input validation in its second pass, after one backend call, with one
    [model_call] event in the trace. *)
Lemma rejection_after_handoff :
  ∃ e w',
    run front_desk 3 0%nat 0%nat 0%nat Infinity true None world = (Raised e, w')
    ∧ e = ThrowError "Error" "输入验证失败: not accepted"
    ∧ length (requests w') = 1%nat
    ∧ length (filter (λ ev, ev_type ev = model_call) (events (tracer w'))) = 1%nat.
Proof. eexists _, _. split; [vm_compute; reflexivity|]. by vm_compute. Qed.

Lemma input_rejected_witness :
  ∃ e w',
    run strict_only 1 0%nat 0%nat 0%nat Infinity true None world = (Raised e, w')
    ∧ requests w' = []
    ∧ Forall (λ ev, ev_type ev ≠ model_call) (events (tracer w')).
Proof.
  pose proof (input_rejected_before_first_call strict_only 0 0%nat 0%nat 0%nat
                Infinity true None world eq_refl) as H.
  destruct (run strict_only 1 0%nat 0%nat 0%nat Infinity true None world) as [r w'].
  destruct H as ([e ->] & Hreq & Hev).
  - constructor. split; [done|]. split; [done|].
    exists {| valid := false; errors := ["not accepted"] |}. by split.
  - by exists e, w'.
Defined.

(** With [max_turns = 0] the loop is not entered: no backend call. *)
Lemma no_call_without_turns :
  ∃ resp w',
    run setters 1 0%nat 0%nat 0%nat (Finite 0) false None world = (Done resp, w')
    ∧ requests w' = [].
Proof. eexists _, _. split; vm_compute; reflexivity. Qed.

Lemma executeTools_false_witness :
  ∃ resp w',
    run setters 1 0%nat 0%nat 0%nat Infinity false None world = (Done resp, w')
    ∧ invoked w' = []
    ∧ length (requests w') = 1%nat
    ∧ arrays w' !! rs_messages resp
      = Some [user_message "Hi";
              assistant_message None (Some [call "c1" "setA1"; call "c2" "setA2"])].
Proof.
  pose proof (executeTools_false_at_most_one_call setters 0 0%nat 0%nat 0%nat
                Infinity None world) as H.
  destruct (run setters 1 0%nat 0%nat 0%nat Infinity false None world)
    as [[resp| |] w'] eqn:Hrun; [| by vm_compute in Hrun..].
  destruct H as (Hinv & _ & _ & Hone).
  destruct (Hone eq_refl ltac:(by eexists)) as [rq Hrq].
  exists resp, w'. split; [done|]. split; [done|]. split; [by rewrite Hrq|].
  vm_compute in Hrun. by injection Hrun as <- <-.
Defined.

(** C6, where the code departs from it: an action throws
    [{ toString: 1 }], a value that has no string form; the [catch] block
    of the dispatch throws in its turn, and the run throws instead of
    returning with a tool message. *)
Lemma unconvertible_throw_aborts :
  ∃ w',
    run rejects 2 0%nat 0%nat 0%nat Infinity true None world
    = (Raised (ThrowError "TypeError" "Cannot convert object to primitive value"), w')
    ∧ invoked w' = [("reject", Throws (ThrowValue unconvertible))].
Proof. eexists. split; vm_compute; reflexivity. Qed.

(** An action throws [new Error('boom')]: one tool message reports it. *)
Lemma thrown_error_run :
  ∃ resp w',
    run fails 2 0%nat 0%nat 0%nat Infinity true None world = (Done resp, w')
    ∧ tool_messages (default [] (arrays w' !! rs_messages resp))
      = [failure_message (call "c1" "fail") "boom"].
Proof. eexists _, _. split; vm_compute; reflexivity. Qed.

(** C7, where the code departs from it: the backend asks for [toString],
    which the executor does not have; the method that the action map
    inherits is found and called, and its result becomes the tool message
    in place of the not-found message. *)
Lemma inherited_name_is_called :
  ∃ resp w',
    run (asks_for "toString") 2 0%nat 0%nat 0%nat Infinity true None world = (Done resp, w')
    ∧ tool_messages (default [] (arrays w' !! rs_messages resp))
      = [tool_message "[object Undefined]" "toString" "c1"]
    ∧ tool_messages (default [] (arrays w' !! rs_messages resp))
      ≠ [not_found_message (call "c1" "toString")].
Proof.
  eexists _, _. split; [vm_compute; reflexivity|].
  split; [vm_compute; reflexivity|]. vm_compute. discriminate.
Qed.

(** Scenario D: the model asks for [foo]. *)
Lemma scenario_D_not_found :
  ∃ resp w',
    run (asks_for "foo") 2 0%nat 0%nat 0%nat Infinity true None world = (Done resp, w')
    ∧ tool_messages (default [] (arrays w' !! rs_messages resp))
      = [not_found_message (call "c1" "foo")]
    ∧ length (requests w') = 1%nat.
Proof. eexists _, _. split; [vm_compute; reflexivity|]. split; vm_compute; reflexivity. Qed.

(** C8, where the code departs from it: on a plain reply "Hello", with no
    tool round at all, the streaming loop ends with the counter at 1 and
    the batched loop with the counter at 0. *)
Lemma streaming_counts_plain_call :
  ∃ st w' st_batched w'_batched,
    stream_loop streams_hello 1 Infinity true None "Echo" start world = (Done st, w')
    ∧ run_loop streams_hello 1 Infinity true None start world = (Done st_batched, w'_batched)
    ∧ invoked w' = [] ∧ invoked w'_batched = []
    ∧ turns st = 1%nat
    ∧ turns st_batched = 0%nat.
Proof.
  eexists _, _, _, _. split; [vm_compute; reflexivity|].
  split; [vm_compute; reflexivity|]. by vm_compute.
Qed.

Lemma run_works_on_copies_witness :
  ∃ resp w',
    run setters 3 0%nat 0%nat 0%nat Infinity true None world = (Done resp, w')
    ∧ arrays w' !! 0%nat = Some [user_message "Hi"]
    ∧ objects w' !! 0%nat = Some ∅
    ∧ rs_messages resp ≠ 0%nat
    ∧ ∃ appended, arrays w' !! rs_messages resp = Some ([user_message "Hi"] ++ appended).
Proof.
  pose proof (run_works_on_copies setters 3 0%nat 0%nat 0%nat Infinity true None world
                [user_message "Hi"] ∅ eq_refl eq_refl) as H.
  destruct (run setters 3 0%nat 0%nat 0%nat Infinity true None world)
    as [[resp| |] w'] eqn:Hrun; [| by vm_compute in Hrun..].
  destruct H as (Ha & Ho & Hresp). destruct (Hresp _ eq_refl) as [Hne Happ].
  by exists resp, w'.
Defined.

(** After a hand-over the trace holds the result of the action with its
    [context_variables] left [undefined]; the export drops that property,
    and the re-parsed event is another one. *)
Lemma handoff_trace_changes_on_reparse :
  ∃ resp w' reparsed ev ev',
    run reception 3 0%nat 0%nat 0%nat Infinity true None world = (Done resp, w')
    ∧ JSON.parse (Tracer_.exportToJson (tracer w')) = Some (JArr reparsed)
    ∧ JArr reparsed ≠ JArr (map Tracer_.event_to_js (events (tracer w')))
    ∧ events (tracer w') !! 4%nat = Some ev
    ∧ ev_data ev
      = JObj [("name", JStr "transfer");
              ("result", JObj [("value", JStr "transferring"); ("agent", JStr "Support");
                               ("context_variables", JUndefined)])]
    ∧ reparsed !! 4%nat = Some ev'
    ∧ obj_get "data" (match ev' with JObj props => props | _ => [] end)
      = Some (JObj [("name", JStr "transfer");
                    ("result", JObj [("value", JStr "transferring");
                                     ("agent", JStr "Support")])]).
Proof.
  eexists _, _, _, _, _. split; [vm_compute; reflexivity|].
  split; [vm_compute; reflexivity|].
  split; [vm_compute; discriminate|].
  split; [vm_compute; reflexivity|].
  split; [vm_compute; reflexivity|].
  split; vm_compute; reflexivity.
Qed.

(** Scenario C: every event of its trace carries JSON data, and the
    exported trace parses back to the recorded events. *)
Lemma scenario_C_trace_round_trip :
  ∃ resp w',
    run setters 3 0%nat 0%nat 0%nat Infinity true None world = (Done resp, w')
    ∧ length (events (tracer w')) = 8%nat
    ∧ JSON.parse (Tracer_.exportToJson (tracer w'))
      = Some (JArr (map Tracer_.event_to_js (events (tracer w')))).
Proof.
  destruct (run setters 3 0%nat 0%nat 0%nat Infinity true None world)
    as [[resp| |] w'] eqn:Hrun; [| by vm_compute in Hrun..].
  exists resp, w'. split; [done|].
  vm_compute in Hrun. injection Hrun as <- <-.
  split; [reflexivity|].
  apply export_parse_round_trip. repeat constructor.
Defined.
End evaluated.
(* ===================================================================== *)
(** * Further scenarios, evaluated *)
(* ===================================================================== *)

Section evaluated_further.
Import Scenario.

(** The arguments of a call to [setA1] are no JSON: the action is not
    invoked, and the call is answered by the parser's error. *)
Lemma malformed_arguments_witness :
  ∃ w', dispatch setters (functionMap_build (ag_functions (agents setters 0%nat))) ∅
          no_response (malformed_call "c1" "setA1") world
        = (Done (with_message no_response
                   (failure_message (malformed_call "c1" "setA1")
                      "Unexpected token in JSON")), w')
        ∧ invoked w' = [].
Proof.
  by eapply (bad_arguments_reported setters _ ∅ no_response (malformed_call "c1" "setA1")
               world _ (ThrowError "SyntaxError" "Unexpected token in JSON")).
Defined.

(** The action [delegate] returns the executor 1 itself. *)
Lemma bare_executor_witness :
  ∃ w', dispatch delegates (functionMap_build (ag_functions (agents delegates 0%nat))) ∅
          no_response (call "c1" "delegate") world
        = (Done {| tr_messages := []; tr_agent := Some 1%nat; tr_context_variables := ∅ |}, w').
Proof.
  by eapply (bare_executor_unanswered delegates _ ∅ no_response (call "c1" "delegate") world
               _ (JObj []) [] 1%nat).
Defined.

(** Scenario C: the two tool messages answer the two calls, in order. *)
Lemma scenario_C_calls_answered :
  ∃ r w' answered,
    handleToolCalls setters [call "c1" "setA1"; call "c2" "setA2"]
      (ag_functions (agents setters 0%nat)) ∅ world = (Done r, w')
    ∧ length (tr_messages r) = 2%nat
    ∧ sublist answered [call "c1" "setA1"; call "c2" "setA2"]
    ∧ Forall2 answers answered (tr_messages r).
Proof.
  destruct (handleToolCalls setters [call "c1" "setA1"; call "c2" "setA2"]
              (ag_functions (agents setters 0%nat)) ∅ world) as [[r| |] w'] eqn:Hrun;
    [| by vm_compute in Hrun..].
  destruct (tool_messages_answer_calls _ _ _ _ _ _ _ Hrun) as (answered & Hsub & _ & Hans).
  exists r, w', answered. split; [done|]. split; [|done].
  vm_compute in Hrun. by injection Hrun as <- <-.
Defined.

(** The front desk hands over: the run returns the executor 1. *)
Lemma reception_returns_support :
  ∃ resp w',
    run reception 3 0%nat 0%nat 0%nat Infinity true None world = (Done resp, w')
    ∧ rs_agent resp = 1%nat.
Proof.
  destruct (run reception 3 0%nat 0%nat 0%nat Infinity true None world)
    as [[resp| |] w'] eqn:Hrun; [| by vm_compute in Hrun..].
  destruct (returned_executor_is_last_handover _ _ _ _ _ _ _ _ _ _ _ Hrun)
    as (log & Hlog & Hagent).
  exists resp, w'. split; [done|]. rewrite Hagent.
  vm_compute in Hrun. injection Hrun as <- <-. simpl in Hlog. by subst log.
Defined.

(** The backend fails on the first request: the run fails with its error. *)
Lemma silent_backend_witness :
  ∃ w', run silent 1 0%nat 0%nat 0%nat Infinity true None world
        = (Raised (ThrowError "Error" "no reply"), w')
        ∧ length (requests w') = 1%nat.
Proof.
  destruct (provider_failure_is_rethrown silent 0 0%nat 0%nat 0%nat Infinity true None world
              "You are a helpful agent." (ThrowError "Error" "no reply"))
    as (w' & Hrun & Hreq).
  - reflexivity.
  - reflexivity.
  - repeat constructor. intros _ _. by eexists.
  - reflexivity.
  - exists w'. split; [done|]. by rewrite Hreq.
Defined.

(** The backend's stream fails on the first request: the streaming run
    ends with an [error] step and its [complete] step. *)
Lemma silent_stream_witness :
  ∃ w' before result context' trace,
    runWithStream silent 1 0%nat 0%nat 0%nat Infinity true None world = (Done tt, w')
    ∧ emitted w' = before ++ [error_step "Error: no reply";
                              complete result 0%nat context' trace]
    ∧ arrays w' !! result = Some [user_message "Hi"].
Proof.
  destruct (stream_failure_is_reported silent 0 0%nat 0%nat 0%nat Infinity true None world
              "You are a helpful agent." [] (ThrowError "Error" "no reply") "Error: no reply")
    as (w' & before & result & context' & trace & Hrun & Hem & Harr & _).
  - reflexivity.
  - reflexivity.
  - repeat constructor. intros _ _. by eexists.
  - reflexivity.
  - reflexivity.
  - by exists w', before, result, context', trace.
Defined.

(** Scenario A with tracing switched off: nothing is recorded. *)
Lemma untraced_run_witness :
  tracer (run echo 1 0%nat 0%nat 0%nat Infinity true None untraced).2 = Tracer_.new false
  ∧ ∃ resp w', run echo 1 0%nat 0%nat 0%nat Infinity true None untraced = (Done resp, w')
               ∧ rs_trace resp = [].
Proof.
  pose proof (disabled_tracer_records_nothing echo 1 0%nat 0%nat 0%nat Infinity true None
                untraced eq_refl) as H.
  destruct (run echo 1 0%nat 0%nat 0%nat Infinity true None untraced)
    as [[resp| |] w'] eqn:Hrun; [| by vm_compute in Hrun..].
  destruct H as [Htr Hresp]. split; [done|].
  exists resp, w'. split; [done|]. by apply Hresp.
Defined.

(** The front desk hands over: two requests, two [model_call] events. *)
Lemma reception_model_calls :
  ∃ resp w',
    run reception 3 0%nat 0%nat 0%nat Infinity true None world = (Done resp, w')
    ∧ length (requests w') = 2%nat
    ∧ model_calls (rs_trace resp) = 2%nat.
Proof.
  destruct (run reception 3 0%nat 0%nat 0%nat Infinity true None world)
    as [[resp| |] w'] eqn:Hrun; [| by vm_compute in Hrun..].
  destruct (one_model_call_event_per_request reception 3 0%nat 0%nat 0%nat Infinity true None
              world resp w' eq_refl Hrun)
    as (sent & Hsent & Hcount).
  exists resp, w'. split; [done|]. rewrite Hcount.
  simpl in Hsent. rewrite Hsent.
  vm_compute in Hrun. injection Hrun as _ <-. simpl in Hsent. by subst sent.
Defined.

(** The streamed "Hello": the caller's objects are as before. *)
Lemma stream_works_on_copies_witness :
  ∃ w', runWithStream streams_hello 1 0%nat 0%nat 0%nat Infinity true None world
        = (Done tt, w')
        ∧ arrays w' !! 0%nat = Some [user_message "Hi"]
        ∧ objects w' !! 0%nat = Some ∅
        ∧ ∃ result agent' context' trace appended,
            last (emitted w') = Some (complete result agent' context' trace)
            ∧ result ≠ 0%nat
            ∧ arrays w' !! result = Some ([user_message "Hi"] ++ appended).
Proof.
  pose proof (stream_works_on_copies streams_hello 1 0%nat 0%nat 0%nat Infinity true None
                world [user_message "Hi"] ∅ eq_refl eq_refl) as H.
  destruct (runWithStream streams_hello 1 0%nat 0%nat 0%nat Infinity true None world)
    as [[[]| |] w'] eqn:Hrun; [| by vm_compute in Hrun..].
  destruct H as (Ha & Ho & Hlast). exists w'. split; [done|]. split; [done|].
  split; [done|]. by apply Hlast.
Defined.

(** Two content fragments: the text is "Hello world", yielded in two
    [content] steps. *)
Lemma two_fragments_witness :
  ∃ slots' w' steps,
    collect_chunks "" [] [content_chunk "Hello"; content_chunk " world"] world
    = (Done ("Hello world", slots'), w')
    ∧ emitted w' = steps
    ∧ content_steps steps = ["Hello"; " world"].
Proof.
  destruct (collect_chunks "" [] [content_chunk "Hello"; content_chunk " world"] world)
    as [[[content' slots']| |] w'] eqn:Hrun; [| by vm_compute in Hrun..].
  destruct (content_is_the_yielded_fragments _ _ _ _ _ _ _ Hrun) as (-> & steps & Hem & Hc).
  by exists slots', w', steps.
Defined.

(** Two calls streamed in interleaved fragments: the arguments of the
    first are put together from its own fragments. *)
Lemma interleaved_calls_witness :
  ∃ content' slots' w',
    collect_chunks "" [] interleaved world = (Done (content', slots'), w')
    ∧ length slots' = 2%nat
    ∧ tc_name (slot_at slots' 0) = "setA1" ∧ tc_arguments (slot_at slots' 0) = "{}"
    ∧ tc_name (slot_at slots' 1) = "setA2" ∧ tc_arguments (slot_at slots' 1) = "{}".
Proof.
  destruct (collect_chunks "" [] interleaved world)
    as [[[content' slots']| |] w'] eqn:Hrun; [| by vm_compute in Hrun..].
  destruct (tool_calls_gathered_by_index _ _ _ _ _ _ Hrun) as (Hlen & Hat).
  exists content', slots', w'. split; [done|]. split; [by rewrite Hlen|].
  destruct (Hat 0%nat) as (_ & _ & -> & ->). destruct (Hat 1%nat) as (_ & _ & -> & ->).
  by vm_compute.
Defined.

(** Three rules, the first and the last refuse "Hello": both errors are
    reported. *)
Lemma all_rules_witness :
  ∃ result,
    validateInput echo (checked [at_most_two; accept_all; refuse_all] []) "Hello" = inl result
    ∧ valid result = false
    ∧ errors result = ["too long"; "not accepted"].
Proof.
  destruct (every_rule_is_run echo (checked [at_most_two; accept_all; refuse_all] []) "Hello"
              [at_most_two; accept_all; refuse_all] eq_refl)
    as (result & Hrun & Herr & Hvalid).
  - repeat constructor; by eexists.
  - exists result. split; [done|]. split; [|by rewrite Herr].
    destruct (valid result); [|done]. destruct Hvalid as [Hvalid _].
    specialize (Hvalid eq_refl). by inversion Hvalid.
Defined.

(** A validator throws [new Error('boom')]: the output is invalid. *)
Lemma throwing_rule_witness :
  ∃ result,
    validateOutput echo (checked [] [accept_all; broken]) "Hello" = inl result
    ∧ valid result = false
    ∧ "Validation error in rule broken: Error: boom" ∈ errors result.
Proof.
  destruct (validateOutput echo (checked [] [accept_all; broken]) "Hello")
    as [result|] eqn:Hrun; [|by vm_compute in Hrun].
  exists result. split; [done|].
  apply (throwing_rule_fails_validation echo (checked [] [accept_all; broken]) "Hello"
           [accept_all; broken] broken (ThrowError "Error" "boom") "Error: boom" result);
    try done.
  apply elem_of_cons. right. apply elem_of_cons. by left.
Defined.

(** [greet(context_variables, name)]: the schema shows [name] only. *)
Lemma greet_schema_witness :
  ∃ schema properties,
    schema ∈ getFunctionSchemas (agent "Greeter" [FnCallable greet] no_guardrails)
    ∧ js_path ["function"; "parameters"; "properties"] schema = Some (JObj properties)
    ∧ obj_get "context_variables" properties = None
    ∧ obj_get "name" properties = Some (JObj [("type", JStr "string")]).
Proof.
  destruct (context_parameter_is_hidden (agent "Greeter" [FnCallable greet] no_guardrails) greet)
    as (schema & properties & Hin & _ & Hpath & Hctx & Hother).
  - apply elem_of_cons. by left.
  - exists schema, properties. split; [done|]. split; [done|]. split; [done|].
    rewrite (Hother "name") by done. apply decide_True.
    apply elem_of_cons. right. apply elem_of_cons. by left.
Defined.

(** Two hand-over functions in one list: a call of [handoff] goes to the
    target of the second. *)
Lemma second_handoff_witness :
  ∃ w', handleToolCalls echo [call "c1" "handoff"]
          ([FnCallable (createHandoffFunction 1%nat None)]
           ++ [FnCallable (createHandoffFunction 2%nat (Some {[ "vip" := JBool true ]}))])
          {[ "user" := JStr "Ann" ]} world
        = (Done {| tr_messages := [tool_message "" "handoff" "c1"];
                   tr_agent := Some 2%nat;
                   tr_context_variables :=
                     handoff_context (Some {[ "vip" := JBool true ]})
                                     {[ "user" := JStr "Ann" ]} |}, w').
Proof.
  by apply (handoff_function_hands_over echo [FnCallable (createHandoffFunction 1%nat None)]
              2%nat (Some {[ "vip" := JBool true ]}) {[ "user" := JStr "Ann" ]}
              (call "c1" "handoff") world []).
Defined.

(** No [vip] in the context: the first condition fails, the second
    decides. *)
Lemma conditional_handoff_witness :
  ∃ w', handleToolCalls echo [call "c1" "conditionalHandoff"]
          ([] ++ [FnCallable (createConditionalHandoff vip_first)]) ∅ world
        = (Done {| tr_messages := [tool_message "" "conditionalHandoff" "c1"];
                   tr_agent := Some 2%nat;
                   tr_context_variables := {[ "queue" := JStr "general" ]} |}, w').
Proof.
  destruct (conditional_handoff_first_match echo []
              [ {| condition := is_vip; targetAgent := 1%nat;
                   updateContextVariables := None |} ]
              {| condition := λ _, inl true; targetAgent := 2%nat;
                 updateContextVariables := Some {[ "queue" := JStr "general" ]} |}
              [] ∅ (call "c1" "conditionalHandoff") world [])
    as [w' Hrun]; try done.
  - by repeat constructor.
  - exists w'. etransitivity; [exact Hrun|].
    unfold handoff_context, spread. simpl. by rewrite (right_id_L ∅ (∪)).
Defined.

(** No [vip] in the context and no other condition: the answer is [null]. *)
Lemma conditional_handoff_null_witness :
  ∃ w', handleToolCalls echo [call "c1" "conditionalHandoff"]
          ([] ++ [FnCallable (createConditionalHandoff vip_only)]) ∅ world
        = (Done {| tr_messages := [tool_message "null" "conditionalHandoff" "c1"];
                   tr_agent := None; tr_context_variables := ∅ |}, w').
Proof.
  apply (conditional_handoff_no_match echo [] vip_only ∅ (call "c1" "conditionalHandoff")
           world []); try done.
  by repeat constructor.
Defined.

(** The same three rules in the guardrail class and in the executor. *)
Lemma validators_agree_witness :
  ∃ r1 r2,
    validateInput echo (checked [at_most_two; broken; refuse_all] []) "Hello" = inl r1
    ∧ Guardrails.InputValidator_validate echo [at_most_two; broken; refuse_all] "Hello" = inl r2
    ∧ valid r1 = valid r2 ∧ length (errors r1) = length (errors r2).
Proof.
  pose proof (validators_agree echo (checked [at_most_two; broken; refuse_all] [])
                [at_most_two; broken; refuse_all] "Hello" eq_refl) as H.
  destruct (validateInput echo (checked [at_most_two; broken; refuse_all] []) "Hello")
    as [r1|] eqn:H1; [|by vm_compute in H1].
  destruct (Guardrails.InputValidator_validate echo [at_most_two; broken; refuse_all] "Hello")
    as [r2|] eqn:H2; [|done].
  destruct H as (Hv & Hl & _). by exists r1, r2.
Defined.


(** The front desk hands over to support, and support to the expert: the
    second [handoff] step names the front desk, while the trace names
    support. *)
Lemma relay_handoff_steps :
  ∃ steps ev,
    emitted (runWithStream relay 3 0%nat 0%nat 0%nat Infinity true None world).2 = steps
    ∧ (∀ from to, handoff_step from to ∈ steps → from = "Front")
    ∧ steps !! 9%nat = Some (handoff_step "Front" "Expert")
    ∧ events (tracer (runWithStream relay 3 0%nat 0%nat 0%nat Infinity true None world).2)
        !! 10%nat = Some ev
    ∧ ev_type ev = handoff
    ∧ obj_get "from" (match ev_data ev with JObj props => props | _ => [] end)
      = Some (JStr "Support").
Proof.
  destruct (stream_handoff_steps_name_the_start relay 3 0%nat 0%nat 0%nat Infinity true None
              world) as (steps & Hsteps & Hall).
  simpl in Hsteps. eexists steps, _. split; [done|]. split; [exact Hall|].
  rewrite <- Hsteps. split; [vm_compute; reflexivity|].
  split; [vm_compute; reflexivity|]. by vm_compute.
Defined.

(** The front desk hands over: the second request, built for support,
    still begins with a system message and the caller's message. *)
Lemma reception_requests :
  ∃ first second instructions appended,
    requests (run reception 3 0%nat 0%nat 0%nat Infinity true None world).2 = [first; second]
    ∧ rq_messages second
      = system_message instructions :: [user_message "Hi"] ++ appended
    ∧ rq_stream second = false.
Proof.
  destruct (requests_extend_the_input reception 3 0%nat 0%nat 0%nat Infinity true None world
              [user_message "Hi"] ∅ eq_refl eq_refl) as (sent & Hsent & Hall).
  simpl in Hsent.
  destruct sent as [|first [|second [|third sent]]]; try by vm_compute in Hsent.
  destruct (Hall second) as (ref & instructions & appended & Hrq).
  { apply elem_of_cons. right. apply elem_of_cons. by left. }
  exists first, second, instructions, appended. split; [done|]. by rewrite Hrq.
Defined.
End evaluated_further.
